(** * A shallow embedding of the C0 compiler front end

    The development follows the C sources of the repository:
    - [token.h], [token.c]: token kinds, the token record, the keyword table;
    - [lexer.h], [lexer.c]: the hand-written scanner;
    - [nfa_dfa.h], [nfa_dfa.c]: the identifier NFA, the subset construction
      and the partition-refinement minimiser.

    Conventions of the embedding.
    - A C string is a [list ascii]: the bytes stored from the pointer on.
      The terminating NUL is implicit after the last element, and a NUL
      inside the list terminates the string early, as it does in C.
    - [size_t] offsets are [nat]; [int] values are [Z].  Signed overflow is
      undefined in C and is not modelled: line and column counters are
      unbounded.
    - A fixed-capacity array with a separate element count (the [states] of
      a [StateSet], the [alphabet] of a [DFA], the [transitions] of an
      [NFA]) is the list of its used prefix; the count is its length.
    - A [while] loop is a [Fixpoint] on a fuel argument returning [option]:
      [None] means that the fuel ran out.  Each operation chooses its own
      fuel.  That the fuel suffices is proved for the scanner and for
      [epsilon_closure]; the subset construction and the minimiser are run
      on given automata.
    - An access outside an array is undefined behaviour in C.  A write
      outside an array makes the operation return [None]; a read yields a
      default value, as noted at [array_get]. *)

From Stdlib Require Import ZArith List Ascii String Bool Lia.
Import ListNotations.

Open Scope Z_scope.

(** ** A small error monad for partial operations *)

Definition bind {A B : Type} (m : option A) (k : A -> option B) : option B :=
  match m with
  | Some a => k a
  | None => None
  end.

Notation "x <- m ;; k" := (bind m (fun x => k))
  (at level 61, m at next level, right associativity).
Notation "' p <- m ;; k" := (bind m (fun x => let 'p := x in k))
  (at level 61, p pattern, m at next level, right associativity).

(** ** C strings and <ctype.h> *)

Definition NUL : ascii := "000"%char.

(** String literals of the C source. *)
Definition lit (s : string) : list ascii := list_ascii_of_string s.

(** [s[i]]: past the stored bytes lies the terminator. *)
Definition char_at (s : list ascii) (i : nat) : ascii := nth i s NUL.

Fixpoint strlen (s : list ascii) : nat :=
  match s with
  | [] => O
  | c :: r => if (c =? NUL)%char then O else S (strlen r)
  end.

(** [strdup]: the copy holds the bytes up to the first NUL. *)
Definition strdup (s : list ascii) : list ascii := firstn (strlen s) s.

(** [strncpy(buf, s + start, n); buf[n] = '\0'] read back as a C string. *)
Definition substr (s : list ascii) (start n : nat) : list ascii :=
  strdup (firstn n (skipn start s)).

Definition code (c : ascii) : Z := Z.of_N (N_of_ascii c).

Definition in_range (lo hi c : ascii) : bool :=
  (code lo <=? code c) && (code c <=? code hi).

(** The classification functions in the "C" locale.  Bytes above 127 belong
    to no class. *)
Definition isdigit (c : ascii) : bool := in_range "0" "9" c.
Definition isalpha (c : ascii) : bool := in_range "a" "z" c || in_range "A" "Z" c.
Definition isalnum (c : ascii) : bool := isalpha c || isdigit c.
Definition isxdigit (c : ascii) : bool :=
  isdigit c || in_range "a" "f" c || in_range "A" "F" c.
Definition isspace (c : ascii) : bool :=
  (c =? " ")%char || in_range "009" "013" c.

(** ** <stdlib.h>: [strtoll] and [atoll]

    Modelled after ISO C: optional white space, optional sign, for base 16 an
    optional [0x] prefix, then the longest run of digits of the base.  A value
    outside [long long] is replaced by [LLONG_MAX] or [LLONG_MIN]. *)

Definition LLONG_MAX : Z := 2 ^ 63 - 1.
Definition LLONG_MIN : Z := - 2 ^ 63.

Definition digit_value (c : ascii) : option Z :=
  if isdigit c then Some (code c - code "0")
  else if in_range "a" "z" c then Some (code c - code "a" + 10)
  else if in_range "A" "Z" c then Some (code c - code "A" + 10)
  else None.

Fixpoint strtoll_digits (base acc : Z) (s : list ascii) : Z :=
  match s with
  | [] => acc
  | c :: r =>
      match digit_value c with
      | Some d => if d <? base then strtoll_digits base (acc * base + d) r else acc
      | None => acc
      end
  end.

Fixpoint skip_spaces (s : list ascii) : list ascii :=
  match s with
  | c :: r => if isspace c then skip_spaces r else s
  | [] => []
  end.

Definition has_digit (base : Z) (s : list ascii) : bool :=
  match s with
  | c :: _ => match digit_value c with Some d => d <? base | None => false end
  | [] => false
  end.

Definition strip_hex_prefix (s : list ascii) : list ascii :=
  match s with
  | z :: x :: r =>
      if (z =? "0")%char && ((x =? "x")%char || (x =? "X")%char) && has_digit 16 r
      then r else s
  | _ => s
  end.

Definition clamp_llong (v : Z) : Z :=
  if v >? LLONG_MAX then LLONG_MAX else if v <? LLONG_MIN then LLONG_MIN else v.

Definition strtoll (s : list ascii) (base : Z) : Z :=
  let s1 := skip_spaces s in
  let '(neg, s2) :=
    match s1 with
    | c :: r => if (c =? "-")%char then (true, r)
                else if (c =? "+")%char then (false, r) else (false, s1)
    | [] => (false, s1)
    end in
  let s3 := if base =? 16 then strip_hex_prefix s2 else s2 in
  let v := strtoll_digits base 0 s3 in
  clamp_llong (if neg then - v else v).

(** [atoll(s)] is [strtoll(s, NULL, 10)]. *)
Definition atoll (s : list ascii) : Z := strtoll s 10.

(** [atof] yields a [double].  Floating-point arithmetic is not modelled: the
    value is kept as the decimal text it is converted from. *)
Inductive c_double : Type :=
| double_of_text (s : list ascii).

Definition atof (s : list ascii) : c_double := double_of_text s.

(** ** token.h, token.c *)

Inductive TokenType : Type :=
| TOKEN_CONST | TOKEN_INT | TOKEN_DOUBLE | TOKEN_CHAR | TOKEN_VOID
| TOKEN_IF | TOKEN_ELSE | TOKEN_WHILE | TOKEN_FOR | TOKEN_RETURN
| TOKEN_BREAK | TOKEN_CONTINUE | TOKEN_STRUCT
| TOKEN_IDENTIFIER | TOKEN_INT_CONST | TOKEN_DOUBLE_CONST
| TOKEN_CHAR_CONST | TOKEN_STRING_CONST
| TOKEN_PLUS | TOKEN_MINUS | TOKEN_MULTIPLY | TOKEN_DIVIDE | TOKEN_MODULO
| TOKEN_ASSIGN | TOKEN_EQ | TOKEN_NE | TOKEN_LT | TOKEN_LE | TOKEN_GT
| TOKEN_GE | TOKEN_AND | TOKEN_OR | TOKEN_NOT
| TOKEN_SEMICOLON | TOKEN_COMMA | TOKEN_LPAREN | TOKEN_RPAREN
| TOKEN_LBRACE | TOKEN_RBRACE | TOKEN_LBRACKET | TOKEN_RBRACKET
| TOKEN_EOF | TOKEN_ERROR.

(** The [value] union of a token.  [create_token] leaves it unwritten. *)
Inductive TokenValue : Type :=
| value_unset
| int_value (v : Z)
| double_value (d : c_double)
| char_value (c : ascii).

Record Token : Type := mkToken {
  tok_type : TokenType;
  tok_lexeme : list ascii;
  tok_line : Z;
  tok_column : Z;
  tok_value : TokenValue
}.

Definition keywords : list (list ascii * TokenType) :=
  [ (lit "const", TOKEN_CONST); (lit "int", TOKEN_INT);
    (lit "double", TOKEN_DOUBLE); (lit "char", TOKEN_CHAR);
    (lit "void", TOKEN_VOID); (lit "if", TOKEN_IF);
    (lit "else", TOKEN_ELSE); (lit "while", TOKEN_WHILE);
    (lit "for", TOKEN_FOR); (lit "return", TOKEN_RETURN);
    (lit "break", TOKEN_BREAK); (lit "continue", TOKEN_CONTINUE);
    (lit "struct", TOKEN_STRUCT) ].

Definition create_token (type : TokenType) (lexeme : list ascii)
    (line column : Z) : Token :=
  {| tok_type := type; tok_lexeme := strdup lexeme;
     tok_line := line; tok_column := column; tok_value := value_unset |}.

Definition set_value (t : Token) (v : TokenValue) : Token :=
  {| tok_type := tok_type t; tok_lexeme := tok_lexeme t;
     tok_line := tok_line t; tok_column := tok_column t; tok_value := v |}.

(** [strcmp(a, b) == 0] *)
Definition streq (a b : list ascii) : bool :=
  if list_eq_dec ascii_dec (strdup a) (strdup b) then true else false.

Fixpoint lookup_in (table : list (list ascii * TokenType)) (s : list ascii)
    : TokenType :=
  match table with
  | [] => TOKEN_IDENTIFIER
  | (k, ty) :: rest => if streq s k then ty else lookup_in rest s
  end.

Definition lookup_keyword (s : list ascii) : TokenType := lookup_in keywords s.

(** ** lexer.h, lexer.c *)

Record Lexer : Type := mkLexer {
  source : list ascii;
  pos : nat;
  len : nat;            (* the field [length] *)
  line : Z;
  column : Z;
  current_char : ascii
}.

Definition create_lexer (src : list ascii) : Lexer :=
  {| source := src; pos := 0; len := strlen src;
     line := 1; column := 1; current_char := char_at src 0 |}.

Definition advance (l : Lexer) : Lexer :=
  if (pos l <? len l)%nat then
    let '(ln, col) :=
      if (current_char l =? "010")%char
      then (line l + 1, 1)
      else (line l, column l + 1) in
    let p := S (pos l) in
    {| source := source l; pos := p; len := len l;
       line := ln; column := col;
       current_char := if (p <? len l)%nat then char_at (source l) p else NUL |}
  else l.

Definition peek (l : Lexer) : ascii :=
  if (pos l + 1 <? len l)%nat then char_at (source l) (pos l + 1) else NUL.

(** Enough fuel for any loop that consumes a character per iteration. *)
Definition budget (l : Lexer) : nat := S (len l - pos l).

Definition at_end (l : Lexer) : bool := (current_char l =? NUL)%char.

(** [while (lexer->current_char != '\0' && p(lexer->current_char)) advance(lexer);] *)
Fixpoint advance_while (fuel : nat) (p : ascii -> bool) (l : Lexer)
    : option Lexer :=
  match fuel with
  | O => None
  | S f =>
      if negb (at_end l) && p (current_char l)
      then advance_while f p (advance l)
      else Some l
  end.

Definition skip_whitespace (l : Lexer) : option Lexer :=
  advance_while (budget l) isspace l.

Definition skip_line_comment (l : Lexer) : option Lexer :=
  let l := advance (advance l) in
  l <- advance_while (budget l) (fun c => negb (c =? "010")%char) l ;;
  Some (if (current_char l =? "010")%char then advance l else l).

Fixpoint skip_block_comment_loop (fuel : nat) (l : Lexer) : option Lexer :=
  match fuel with
  | O => None
  | S f =>
      if negb (at_end l) then
        if (current_char l =? "*")%char && (peek l =? "/")%char
        then Some (advance (advance l))
        else skip_block_comment_loop f (advance l)
      else Some l
  end.

Definition skip_block_comment (l : Lexer) : option Lexer :=
  let l := advance (advance l) in
  skip_block_comment_loop (budget l) l.

Definition is_ident_char (c : ascii) : bool := isalnum c || (c =? "_")%char.

Definition read_identifier (l : Lexer) : option (Token * Lexer) :=
  let start_line := line l in
  let start_column := column l in
  let start_pos := pos l in
  l <- advance_while (budget l) is_ident_char l ;;
  let length := (pos l - start_pos)%nat in
  let identifier := substr (source l) start_pos length in
  let type := lookup_keyword identifier in
  Some (create_token type identifier start_line start_column, l).

(** The fractional part of [read_number]: the dot is taken only when a digit
    follows it.  Returns the new value of [is_float]. *)
Definition read_fraction (l : Lexer) : option (bool * Lexer) :=
  if (current_char l =? ".")%char && isdigit (peek l) then
    let l := advance l in
    l <- advance_while (budget l) isdigit l ;;
    Some (true, l)
  else Some (false, l).

(** The exponent part of [read_number]. *)
Definition read_exponent (is_float : bool) (l : Lexer) : option (bool * Lexer) :=
  if (current_char l =? "e")%char || (current_char l =? "E")%char then
    let l := advance l in
    let l :=
      if (current_char l =? "+")%char || (current_char l =? "-")%char
      then advance l else l in
    l <- advance_while (budget l) isdigit l ;;
    Some (true, l)
  else Some (is_float, l).

(** The end of [read_number]: the lexeme is cut out and converted. *)
Definition number_token (start_line start_column : Z) (start_pos : nat)
    (is_float is_hex : bool) (l : Lexer) : Token :=
  let length := (pos l - start_pos)%nat in
  let number_str := substr (source l) start_pos length in
  if is_float then
    set_value (create_token TOKEN_DOUBLE_CONST number_str start_line start_column)
              (double_value (atof number_str))
  else
    set_value (create_token TOKEN_INT_CONST number_str start_line start_column)
              (int_value (if is_hex then strtoll number_str 16
                          else atoll number_str)).

Definition read_number (l : Lexer) : option (Token * Lexer) :=
  let start_line := line l in
  let start_column := column l in
  let start_pos := pos l in
  if (current_char l =? "0")%char
     && ((peek l =? "x")%char || (peek l =? "X")%char)
  then
    let l := advance (advance l) in
    l <- advance_while (budget l) isxdigit l ;;
    Some (number_token start_line start_column start_pos false true l, l)
  else
    l <- advance_while (budget l) isdigit l ;;
    '(is_float, l) <- read_fraction l ;;
    '(is_float, l) <- read_exponent is_float l ;;
    Some (number_token start_line start_column start_pos is_float false l, l).

Definition dquote : ascii := "034"%char.
Definition squote : ascii := "'"%char.
Definition backslash : ascii := "\"%char.

Fixpoint read_string_loop (fuel : nat) (l : Lexer) : option Lexer :=
  match fuel with
  | O => None
  | S f =>
      if negb (at_end l) && negb (current_char l =? dquote)%char then
        if (current_char l =? backslash)%char then
          let l := advance l in
          read_string_loop f (if negb (at_end l) then advance l else l)
        else read_string_loop f (advance l)
      else Some l
  end.

Definition read_string (l : Lexer) : option (Token * Lexer) :=
  let start_line := line l in
  let start_column := column l in
  let start_pos := pos l in
  let l := advance l in
  l <- read_string_loop (budget l) l ;;
  if negb (current_char l =? dquote)%char then
    Some (create_token TOKEN_ERROR (lit "未结束的字符串") start_line start_column, l)
  else
    let l := advance l in
    let length := (pos l - start_pos)%nat in
    let string := substr (source l) start_pos length in
    Some (create_token TOKEN_STRING_CONST string start_line start_column, l).

Definition read_char (l : Lexer) : Token * Lexer :=
  let start_line := line l in
  let start_column := column l in
  let start_pos := pos l in
  let l := advance l in
  let '(char_value_, l) :=
    if (current_char l =? backslash)%char then
      let l := advance l in
      let c := current_char l in
      let v :=
        if (c =? "n")%char then "010"%char
        else if (c =? "t")%char then "009"%char
        else if (c =? "r")%char then "013"%char
        else if (c =? backslash)%char then backslash
        else if (c =? squote)%char then squote
        else if (c =? "0")%char then NUL
        else c in
      (v, advance l)
    else if negb (at_end l) && negb (current_char l =? squote)%char then
      (current_char l, advance l)
    else (NUL, l) in
  if negb (current_char l =? squote)%char then
    (create_token TOKEN_ERROR (lit "未结束的字符常量") start_line start_column, l)
  else
    let l := advance l in
    let length := (pos l - start_pos)%nat in
    let char_str := substr (source l) start_pos length in
    (set_value (create_token TOKEN_CHAR_CONST char_str start_line start_column)
               (char_value char_value_), l).

(** [snprintf(error_msg, sizeof(error_msg), "非法字符: '%c'", current)]: the
    text is 17 bytes long and fits the 64-byte buffer. *)
Definition illegal_char_msg (current : ascii) : list ascii :=
  lit "非法字符: '" ++ [current] ++ lit "'".

(** The one- and two-character operators and delimiters, after the
    classes of identifiers, numbers, strings and characters are excluded. *)
Definition read_operator (l : Lexer) : Token * Lexer :=
  let start_line := line l in
  let start_column := column l in
  let current := current_char l in
  let next := peek l in
  let two ty s := (create_token ty (lit s) start_line start_column,
                   advance (advance l)) in
  let one ty s := (create_token ty (lit s) start_line start_column,
                   advance l) in
  if (current =? "=")%char && (next =? "=")%char then two TOKEN_EQ "=="%string
  else if (current =? "!")%char && (next =? "=")%char then two TOKEN_NE "!="%string
  else if (current =? "<")%char && (next =? "=")%char then two TOKEN_LE "<="%string
  else if (current =? ">")%char && (next =? "=")%char then two TOKEN_GE ">="%string
  else if (current =? "&")%char && (next =? "&")%char then two TOKEN_AND "&&"%string
  else if (current =? "|")%char && (next =? "|")%char then two TOKEN_OR "||"%string
  else if (current =? "+")%char then one TOKEN_PLUS "+"%string
  else if (current =? "-")%char then one TOKEN_MINUS "-"%string
  else if (current =? "*")%char then one TOKEN_MULTIPLY "*"%string
  else if (current =? "/")%char then one TOKEN_DIVIDE "/"%string
  else if (current =? "%")%char then one TOKEN_MODULO "%"%string
  else if (current =? "=")%char then one TOKEN_ASSIGN "="%string
  else if (current =? "<")%char then one TOKEN_LT "<"%string
  else if (current =? ">")%char then one TOKEN_GT ">"%string
  else if (current =? "!")%char then one TOKEN_NOT "!"%string
  else if (current =? ";")%char then one TOKEN_SEMICOLON ";"%string
  else if (current =? ",")%char then one TOKEN_COMMA ","%string
  else if (current =? "(")%char then one TOKEN_LPAREN "("%string
  else if (current =? ")")%char then one TOKEN_RPAREN ")"%string
  else if (current =? "{")%char then one TOKEN_LBRACE "{"%string
  else if (current =? "}")%char then one TOKEN_RBRACE "}"%string
  else if (current =? "[")%char then one TOKEN_LBRACKET "["%string
  else if (current =? "]")%char then one TOKEN_RBRACKET "]"%string
  else (create_token TOKEN_ERROR (illegal_char_msg current) start_line start_column,
        advance l).

(** The loop of [get_next_token]: an iteration either skips white space or
    a comment and goes round again ([continue]) or returns a token. *)
Fixpoint get_next_token_loop (fuel : nat) (l : Lexer) : option (Token * Lexer) :=
  match fuel with
  | O => None
  | S f =>
      if negb (at_end l) then
        if isspace (current_char l) then
          l <- skip_whitespace l ;; get_next_token_loop f l
        else if (current_char l =? "/")%char && (peek l =? "/")%char then
          l <- skip_line_comment l ;; get_next_token_loop f l
        else if (current_char l =? "/")%char && (peek l =? "*")%char then
          l <- skip_block_comment l ;; get_next_token_loop f l
        else if isalpha (current_char l) || (current_char l =? "_")%char then
          read_identifier l
        else if isdigit (current_char l) then read_number l
        else if (current_char l =? dquote)%char then read_string l
        else if (current_char l =? squote)%char then Some (read_char l)
        else Some (read_operator l)
      else Some (create_token TOKEN_EOF [] (line l) (column l), l)
  end.

Definition get_next_token (l : Lexer) : option (Token * Lexer) :=
  get_next_token_loop (budget l) l.

(** [n] successive calls of [get_next_token]. *)
Fixpoint get_tokens (n : nat) (l : Lexer) : option (list Token * Lexer) :=
  match n with
  | O => Some ([], l)
  | S m =>
      '(t, l) <- get_next_token l ;;
      '(ts, l) <- get_tokens m l ;;
      Some (t :: ts, l)
  end.


(** ** token.c: the names of the token kinds *)

Definition token_type_to_string (type : TokenType) : string :=
  match type with
  | TOKEN_CONST => "CONST" | TOKEN_INT => "INT" | TOKEN_DOUBLE => "DOUBLE"
  | TOKEN_CHAR => "CHAR" | TOKEN_VOID => "VOID" | TOKEN_IF => "IF"
  | TOKEN_ELSE => "ELSE" | TOKEN_WHILE => "WHILE" | TOKEN_FOR => "FOR"
  | TOKEN_RETURN => "RETURN" | TOKEN_BREAK => "BREAK"
  | TOKEN_CONTINUE => "CONTINUE" | TOKEN_STRUCT => "STRUCT"
  | TOKEN_IDENTIFIER => "IDENTIFIER" | TOKEN_INT_CONST => "INT_CONST"
  | TOKEN_DOUBLE_CONST => "DOUBLE_CONST" | TOKEN_CHAR_CONST => "CHAR_CONST"
  | TOKEN_STRING_CONST => "STRING_CONST"
  | TOKEN_PLUS => "PLUS" | TOKEN_MINUS => "MINUS"
  | TOKEN_MULTIPLY => "MULTIPLY" | TOKEN_DIVIDE => "DIVIDE"
  | TOKEN_MODULO => "MODULO" | TOKEN_ASSIGN => "ASSIGN" | TOKEN_EQ => "EQ"
  | TOKEN_NE => "NE" | TOKEN_LT => "LT" | TOKEN_LE => "LE" | TOKEN_GT => "GT"
  | TOKEN_GE => "GE" | TOKEN_AND => "AND" | TOKEN_OR => "OR"
  | TOKEN_NOT => "NOT"
  | TOKEN_SEMICOLON => "SEMICOLON" | TOKEN_COMMA => "COMMA"
  | TOKEN_LPAREN => "LPAREN" | TOKEN_RPAREN => "RPAREN"
  | TOKEN_LBRACE => "LBRACE" | TOKEN_RBRACE => "RBRACE"
  | TOKEN_LBRACKET => "LBRACKET" | TOKEN_RBRACKET => "RBRACKET"
  | TOKEN_EOF => "EOF" | TOKEN_ERROR => "ERROR"
  end%string.

(** ** main.c: the loop of [perform_lexical_analysis]

    The loop asks for tokens until EOF, prints each token before EOF and
    counts the tokens and the errors.  The printed tokens are collected in a
    list; reading the file and formatting the output are left out. *)

Record Analysis : Type := mkAnalysis {
  printed : list Token;
  token_count : Z;
  error_count : Z
}.

Fixpoint analysis_loop (fuel : nat) (l : Lexer) (a : Analysis)
    : option (Analysis * Lexer) :=
  match fuel with
  | O => None
  | S f =>
      '(token, l) <- get_next_token l ;;
      match tok_type token with
      | TOKEN_EOF => Some (a, l)
      | ty =>
          analysis_loop f l
            {| printed := printed a ++ [token];
               token_count := token_count a + 1;
               error_count :=
                 match ty with
                 | TOKEN_ERROR => error_count a + 1
                 | _ => error_count a
                 end |}
      end
  end.

Definition perform_lexical_analysis (source : list ascii)
    : option (Analysis * Lexer) :=
  let lexer := create_lexer source in
  analysis_loop (S (len lexer)) lexer
    {| printed := []; token_count := 0; error_count := 0 |}.

(** ** nfa_dfa.h, nfa_dfa.c *)

Definition MAX_STATES : Z := 100.
Definition MAX_ALPHABET : Z := 128.
Definition EPSILON : Z := -1.

(** *** Arrays

    [array_get a i d] is the read [a[i]].  Outside the array, and in the
    part of a local array that was never written, C reads whatever lies
    there; the model reads [d].  [array_set a i v] is the write [a[i] = v],
    which has no defined result outside the array. *)

Definition array_get {A : Type} (a : list A) (i : Z) (d : A) : A :=
  if i <? 0 then d else nth (Z.to_nat i) a d.

Fixpoint update {A : Type} (n : nat) (v : A) (a : list A) : list A :=
  match a, n with
  | [], _ => []
  | _ :: r, O => v :: r
  | x :: r, S m => x :: update m v r
  end.

Definition array_set {A : Type} (a : list A) (i : Z) (v : A) : option (list A) :=
  if (0 <=? i) && (i <? Z.of_nat (List.length a))
  then Some (update (Z.to_nat i) v a)
  else None.

(** The table [int transition[MAX_STATES][MAX_ALPHABET]]. *)
Definition table : Type := list (list Z).

Definition empty_table : table :=
  repeat (repeat (-1) (Z.to_nat MAX_ALPHABET)) (Z.to_nat MAX_STATES).

Definition table_get (t : table) (state symbol : Z) : Z :=
  array_get (array_get t state []) symbol (-1).

Definition table_set (t : table) (state symbol v : Z) : option table :=
  row <- array_set (array_get t state []) symbol v ;;
  array_set t state row.

(** [0, 1, ..., n - 1] *)
Definition upto (n : Z) : list Z := map Z.of_nat (seq 0 (Z.to_nat n)).

(** The values of [for (char c = lo; c <= hi; c++)]. *)
Definition char_range (lo hi : ascii) : list Z :=
  map (fun k => code lo + k) (upto (code hi - code lo + 1)).

(** A fold whose step may fail. *)
Fixpoint fold_opt {A B : Type} (f : A -> B -> option A) (l : list B) (a : A)
    : option A :=
  match l with
  | [] => Some a
  | b :: r => a <- f a b ;; fold_opt f r a
  end.

(** *** The data structures *)

Record NFATransition : Type := mkTransition {
  from_state : Z;
  to_state : Z;
  symbol : Z
}.

Record NFA : Type := mkNFA {
  nfa_num_states : Z;
  nfa_start_state : Z;
  nfa_final_states : list bool;
  nfa_transitions : list NFATransition   (* [num_transitions] is its length *)
}.

Record DFA : Type := mkDFA {
  transition : table;
  num_states : Z;
  start_state : Z;
  final_states : list bool;
  alphabet : list Z                      (* [alphabet_size] is its length *)
}.

(** [states] and [count] of the C structure: the list of the stored states. *)
Definition StateSet : Type := list Z.

(** The element count that C keeps beside an array ([count],
    [num_dfa_states], [num_transitions], [alphabet_size]). *)
Definition count {A : Type} (a : list A) : Z := Z.of_nat (List.length a).

(** *** The identifier automaton *)

Definition edges (from to : Z) (symbols : list Z) : list NFATransition :=
  map (fun c => {| from_state := from; to_state := to; symbol := c |}) symbols.

Definition create_nfa_for_identifier : NFA :=
  {| nfa_num_states := 2;
     nfa_start_state := 0;
     nfa_final_states := update 1 true (repeat false (Z.to_nat MAX_STATES));
     nfa_transitions :=
       edges 0 1 (char_range "a" "z") ++
       edges 0 1 (char_range "A" "Z") ++
       edges 0 1 [code "_"] ++
       edges 1 1 (char_range "a" "z") ++
       edges 1 1 (char_range "A" "Z") ++
       edges 1 1 (char_range "0" "9") ++
       edges 1 1 [code "_"] |}.

(** *** State sets *)

Definition state_set_contains (set : StateSet) (state : Z) : bool :=
  existsb (fun s => s =? state) set.

Definition state_set_add (set : StateSet) (state : Z) : StateSet :=
  if negb (state_set_contains set state) && (count set <? MAX_STATES)
  then set ++ [state]
  else set.

Definition state_set_equal (a b : StateSet) : bool :=
  if negb (count a =? count b) then false
  else forallb (fun s => state_set_contains b s) a.

(** *** epsilon_closure *)

(** The loop over the transitions for one state of the closure. *)
Definition add_targets (nfa : NFA) (state sym : Z) (set : StateSet) : StateSet :=
  fold_left
    (fun set t =>
       if (from_state t =? state) && (symbol t =? sym)
       then state_set_add set (to_state t)
       else set)
    (nfa_transitions nfa) set.

(** [for (int i = 0; i < closure.count; i++)]: the bound is read again on
    every iteration, so that states added on the way are visited too. *)
Fixpoint closure_scan (fuel : nat) (nfa : NFA) (i : nat) (closure : StateSet)
    : option StateSet :=
  match fuel with
  | O => None
  | S f =>
      if (i <? List.length closure)%nat
      then closure_scan f nfa (S i)
             (add_targets nfa (nth i closure 0) EPSILON closure)
      else Some closure
  end.

Definition scan_fuel (closure : StateSet) : nat :=
  S (Nat.max (Z.to_nat MAX_STATES) (List.length closure)).

(** [while (changed)] *)
Fixpoint closure_loop (fuel : nat) (nfa : NFA) (closure : StateSet)
    : option StateSet :=
  match fuel with
  | O => None
  | S f =>
      let old_count := count closure in
      closure <- closure_scan (scan_fuel closure) nfa 0 closure ;;
      if count closure >? old_count
      then closure_loop f nfa closure
      else Some closure
  end.

Definition epsilon_closure (nfa : NFA) (states : StateSet) : option StateSet :=
  closure_loop (S (S (Z.to_nat MAX_STATES))) nfa states.

(** *** move *)

Definition move (nfa : NFA) (states : StateSet) (sym : Z) : StateSet :=
  fold_left (fun result state => add_targets nfa state sym result) states [].

Fixpoint find_from (i : Z) (sets : list StateSet) (target : StateSet) : Z :=
  match sets with
  | [] => -1
  | s :: r => if state_set_equal s target then i else find_from (i + 1) r target
  end.

Definition find_state_set_index (sets : list StateSet) (target : StateSet) : Z :=
  find_from 0 sets target.

(** *** nfa_to_dfa *)

(** The variables of the subset construction: the table under construction,
    [dfa_states] and the stack [unmarked], its top first. *)
Record Subset : Type := mkSubset {
  sub_table : table;
  dfa_states : list StateSet;
  unmarked : list Z
}.

(** The body of the loop over the alphabet. *)
Definition subset_step (nfa : NFA) (current_dfa_state : Z)
    (current_set : StateSet) (st : Subset) (sym : Z) : option Subset :=
  let next_set := move nfa current_set sym in
  if count next_set >? 0 then
    next_set <- epsilon_closure nfa next_set ;;
    let next_dfa_state := find_state_set_index (dfa_states st) next_set in
    '(next_dfa_state, states, stack) <-
      (if next_dfa_state =? -1 then
         let next_dfa_state := count (dfa_states st) in
         (* [dfa_states[num_dfa_states++] = next_set] needs room *)
         if next_dfa_state <? MAX_STATES
         then Some (next_dfa_state, dfa_states st ++ [next_set],
                    next_dfa_state :: unmarked st)
         else None
       else Some (next_dfa_state, dfa_states st, unmarked st)) ;;
    tbl <- table_set (sub_table st) current_dfa_state sym next_dfa_state ;;
    Some {| sub_table := tbl; dfa_states := states; unmarked := stack |}
  else Some st.

(** [while (unmarked_count > 0)] *)
Fixpoint subset_loop (fuel : nat) (nfa : NFA) (alphabet : list Z) (st : Subset)
    : option Subset :=
  match fuel with
  | O => None
  | S f =>
      match unmarked st with
      | [] => Some st
      | current_dfa_state :: rest =>
          let current_set := array_get (dfa_states st) current_dfa_state [] in
          st <- fold_opt (subset_step nfa current_dfa_state current_set)
                  alphabet
                  {| sub_table := sub_table st; dfa_states := dfa_states st;
                     unmarked := rest |} ;;
          subset_loop f nfa alphabet st
      end
  end.

Definition nfa_to_dfa (nfa : NFA) : option DFA :=
  let alphabet :=
    char_range "a" "z" ++ char_range "A" "Z" ++ char_range "0" "9" ++
    [code "_"] in
  initial_set <- epsilon_closure nfa [nfa_start_state nfa] ;;
  st <- subset_loop (S (Z.to_nat MAX_STATES)) nfa alphabet
          {| sub_table := empty_table; dfa_states := [initial_set];
             unmarked := [0] |} ;;
  let num_dfa_states := count (dfa_states st) in
  Some {| transition := sub_table st;
          num_states := num_dfa_states;
          start_state := 0;
          final_states :=
            map (fun set =>
                   existsb (fun s => array_get (nfa_final_states nfa) s false) set)
                (dfa_states st)
            ++ repeat false (Z.to_nat (MAX_STATES - num_dfa_states));
          alphabet := alphabet |}.

(** *** minimize_dfa *)

(** The test on one pair of states of a block, against [partition]. *)
Definition distinguishable (dfa : DFA) (partition : list Z) (s1 s2 : Z) : bool :=
  existsb
    (fun sym =>
       let next1 := table_get (transition dfa) s1 sym in
       let next2 := table_get (transition dfa) s2 sym in
       negb (Bool.eqb (next1 =? -1) (next2 =? -1))
       || (negb (next1 =? -1) && negb (next2 =? -1)
           && negb (array_get partition next1 0 =? array_get partition next2 0)))
    (alphabet dfa).

(** The variables that a pass of the refinement writes. *)
Record Pass : Type := mkPass {
  new_partition : list Z;
  next_partition_id : Z;
  changed : bool
}.

(** The body of the loop over the blocks [p]: the members are collected in
    increasing order and each is compared with the first. *)
Definition refine_block (dfa : DFA) (partition : list Z) (st : Pass) (p : Z)
    : Pass :=
  let states_in_partition :=
    filter (fun i => array_get partition i 0 =? p) (upto (num_states dfa)) in
  match states_in_partition with
  | [] => st
  | s1 :: others =>
      fold_left
        (fun st s2 =>
           if distinguishable dfa partition s1 s2
           then {| new_partition := update (Z.to_nat s2) (next_partition_id st)
                                      (new_partition st);
                   next_partition_id := next_partition_id st + 1;
                   changed := true |}
           else st)
        others st
  end.

(** [while (changed)] *)
Fixpoint refine_loop (fuel : nat) (dfa : DFA) (partition : list Z)
    (num_partitions : Z) : option (list Z * Z) :=
  match fuel with
  | O => None
  | S f =>
      let st :=
        fold_left (refine_block dfa partition) (upto num_partitions)
          {| new_partition := partition;
             next_partition_id := num_partitions;
             changed := false |} in
      if changed st
      then refine_loop f dfa (new_partition st) (next_partition_id st)
      else Some (new_partition st, next_partition_id st)
  end.

(** The loops that fill the final states and the table of the result. *)
Definition build_state (dfa : DFA) (partition : list Z)
    (acc : list bool * table) (i : Z) : option (list bool * table) :=
  let '(finals, tbl) := acc in
  let p := array_get partition i 0 in
  finals <- (if array_get (final_states dfa) i false
             then array_set finals p true else Some finals) ;;
  tbl <- fold_opt
           (fun tbl sym =>
              let next := table_get (transition dfa) i sym in
              if negb (next =? -1)
              then table_set tbl p sym (array_get partition next 0)
              else Some tbl)
           (alphabet dfa) tbl ;;
  Some (finals, tbl).

Definition minimize_dfa (dfa : DFA) : option DFA :=
  let partition :=
    map (fun i => if array_get (final_states dfa) i false then 1 else 0)
        (upto (num_states dfa)) in
  '(partition, num_partitions) <-
    refine_loop (S (S (Z.to_nat (num_states dfa)))) dfa partition 2 ;;
  '(finals, tbl) <-
    fold_opt (build_state dfa partition) (upto (num_states dfa))
      (repeat false (Z.to_nat MAX_STATES), empty_table) ;;
  Some {| transition := tbl;
          num_states := num_partitions;
          start_state := array_get partition (start_state dfa) 0;
          final_states := finals;
          alphabet := alphabet dfa |}.
(** * Predicates of the specification *)

(** The invariant of the scanner state: the offset is within the source and
    the lookahead mirrors the source at the offset, or is NUL at the end. *)
Definition lexer_inv (l : Lexer) : Prop :=
  (pos l <= len l)%nat /\
  ((pos l < len l)%nat -> current_char l = char_at (source l) (pos l)) /\
  (pos l = len l -> current_char l = NUL).

(** [l'] comes after [l] in one scan of the same source. *)
Definition follows (l l' : Lexer) : Prop :=
  source l' = source l /\ len l' = len l /\ (pos l <= pos l')%nat.

(** A scanner state that satisfies the invariant and follows [l]. *)
Definition good_after (l l' : Lexer) : Prop := lexer_inv l' /\ follows l l'.


(** A scanner state of a session opened by [create_lexer]: the recorded
    length is the C length of the source. *)
Definition wf_lexer (l : Lexer) : Prop :=
  lexer_inv l /\ len l = strlen (source l).

(** The part of the source that is still to be read. *)
Definition unread (l : Lexer) : list ascii :=
  skipn (pos l) (firstn (len l) (source l)).

(** From [l] the scanner reads exactly the characters [w] and arrives at [l']. *)
Definition reads (l : Lexer) (w : list ascii) (l' : Lexer) : Prop :=
  wf_lexer l' /\ source l' = source l /\ len l' = len l /\
  pos l' = (pos l + List.length w)%nat /\ unread l = w ++ unread l'.

(** No character of a loop's stop set comes first. *)
Definition stops (p : ascii -> bool) (r : list ascii) : Prop :=
  match r with
  | [] => True
  | c :: _ => p c = false
  end.

(** The end-of-input token issued at state [l]. *)
Definition eof_token (l : Lexer) : Token :=
  create_token TOKEN_EOF [] (line l) (column l).

(** A closing [*/] occurs somewhere in [s]. *)
Fixpoint has_close (s : list ascii) : bool :=
  match s with
  | [] => false
  | c :: r => ((c =? "*")%char && (hd NUL r =? "/")%char) || has_close r
  end.

(** The number written by a run of hexadecimal digits, most significant
    digit first. *)
Definition hex_digit (c : ascii) : Z :=
  if isdigit c then code c - 48
  else if in_range "a" "f" c then code c - 87
  else code c - 55.

Definition base16_value (hs : list ascii) : Z :=
  fold_left (fun acc c => 16 * acc + hex_digit c) hs 0.

(** [b] keeps the elements of [a] in place and is no longer than the
    capacity allows. *)
Definition grows (a b : StateSet) : Prop :=
  (exists extra, b = a ++ extra) /\
  (List.length b <= Nat.max (Z.to_nat MAX_STATES) (List.length a))%nat.

(** A set that one more scan leaves as it is. *)
Definition scan_stable (nfa : NFA) (c : StateSet) : Prop :=
  closure_scan (scan_fuel c) nfa 0 c = Some c.

(** *** Running a DFA

    The sources build and print automata and do not run them.  A run reads
    the table the way the printing functions do: from [state] on the
    character [c] the next state is [transition[state][(int)c]], and [-1]
    means that there is none.  [char] is taken as signed, so that a byte
    above 127 is a negative index; it has no column in the table and no
    transition. *)

Definition char_to_int (c : ascii) : Z :=
  if code c <? 128 then code c else code c - 256.

Fixpoint dfa_run (d : DFA) (state : Z) (w : list ascii) : bool :=
  match w with
  | [] => array_get (final_states d) state false
  | c :: r =>
      let next := table_get (transition d) state (char_to_int c) in
      if next =? -1 then false else dfa_run d next r
  end.

Definition dfa_accepts (d : DFA) (w : list ascii) : bool :=
  dfa_run d (start_state d) w.

(** The words of [[A-Za-z_][A-Za-z_0-9]*]. *)
Definition is_letter (c : ascii) : bool :=
  in_range "A" "Z" c || in_range "a" "z" c || (c =? "_")%char.

Definition is_letter_or_digit (c : ascii) : bool :=
  is_letter c || in_range "0" "9" c.

Definition matches_identifier (w : list ascii) : bool :=
  match w with
  | [] => false
  | c :: r => is_letter c && forallb is_letter_or_digit r
  end.

(** All the characters there are. *)
Definition all_chars : list ascii := map ascii_of_nat (seq 0 256).

(** What the identifier DFA must look like for the language to be right:
    two states, 0 the start, 1 the only final one, letters lead from 0 to 1
    and letters and digits from 1 to 1, nothing else leads anywhere. *)
Definition identifier_shape (d : DFA) : bool :=
  (start_state d =? 0) && (num_states d =? 2)
  && negb (array_get (final_states d) 0 false) && array_get (final_states d) 1 false
  && forallb
       (fun c =>
          (table_get (transition d) 0 (char_to_int c)
             =? (if is_letter c then 1 else -1))
          && (table_get (transition d) 1 (char_to_int c)
                =? (if is_letter_or_digit c then 1 else -1)))
       all_chars.

(** *** Well-formed DFAs

    The state count is within the capacity, the start state is a state, the
    arrays have their declared sizes, only states are final, every entry of
    the table is [-1] or a state, and the alphabet consists of column
    indices. *)
Definition is_state (d : DFA) (s : Z) : bool :=
  (0 <=? s) && (s <? num_states d).

Definition dfa_wf (d : DFA) : bool :=
  (1 <=? num_states d) && (num_states d <=? MAX_STATES)
  && is_state d (start_state d)
  && (count (final_states d) =? MAX_STATES)
  && forallb (fun s => is_state d s || negb (array_get (final_states d) s false))
       (upto MAX_STATES)
  && (count (transition d) =? MAX_STATES)
  && forallb
       (fun row =>
          (count row =? MAX_ALPHABET)
          && forallb (fun next => (next =? -1) || is_state d next) row)
       (transition d)
  && (count (alphabet d) <=? MAX_ALPHABET)
  && forallb (fun c => (0 <=? c) && (c <? MAX_ALPHABET)) (alphabet d).

(** The same words are accepted. *)
Definition same_language (d1 d2 : DFA) : Prop :=
  forall w, dfa_accepts d1 w = dfa_accepts d2 w.

(** *** Three small DFAs over the alphabet [{a}] or [{a, b, c}] *)

(** One state, accepting, with a loop on [a]: the words [a...a]. *)
Definition dfa_a_star : option DFA :=
  tbl <- table_set empty_table 0 (code "a") 0 ;;
  finals <- array_set (repeat false (Z.to_nat MAX_STATES)) 0 true ;;
  Some {| transition := tbl; num_states := 1; start_state := 0;
          final_states := finals; alphabet := [code "a"] |}.

(** One state, not accepting, with a loop on [a]: no word at all. *)
Definition dfa_a_loop : option DFA :=
  tbl <- table_set empty_table 0 (code "a") 0 ;;
  Some {| transition := tbl; num_states := 1; start_state := 0;
          final_states := repeat false (Z.to_nat MAX_STATES);
          alphabet := [code "a"] |}.

(** Start state 0, accepting state 3 reached on [a], and two dead states
    1 and 2 reached on [b] and [c]: the word [a] alone. *)
Definition dfa_two_dead : option DFA :=
  tbl <- table_set empty_table 0 (code "a") 3 ;;
  tbl <- table_set tbl 0 (code "b") 1 ;;
  tbl <- table_set tbl 0 (code "c") 2 ;;
  finals <- array_set (repeat false (Z.to_nat MAX_STATES)) 3 true ;;
  Some {| transition := tbl; num_states := 4; start_state := 0;
          final_states := finals;
          alphabet := [code "a"; code "b"; code "c"] |}.

(** The same language with the two dead states merged. *)
Definition dfa_one_dead : option DFA :=
  tbl <- table_set empty_table 0 (code "a") 2 ;;
  tbl <- table_set tbl 0 (code "b") 1 ;;
  tbl <- table_set tbl 0 (code "c") 1 ;;
  finals <- array_set (repeat false (Z.to_nat MAX_STATES)) 2 true ;;
  Some {| transition := tbl; num_states := 3; start_state := 0;
          final_states := finals;
          alphabet := [code "a"; code "b"; code "c"] |}.

(** [R] relates states of [d1] and [d2] that agree on being final and whose
    successors on every character are both missing or related again. *)
Definition bisimulation (d1 d2 : DFA) (R : list (Z * Z)) : bool :=
  forallb
    (fun '(s1, s2) =>
       Bool.eqb (array_get (final_states d1) s1 false) (array_get (final_states d2) s2 false)
       && forallb
            (fun c =>
               let n1 := table_get (transition d1) s1 (char_to_int c) in
               let n2 := table_get (transition d2) s2 (char_to_int c) in
               if n1 =? -1 then n2 =? -1
               else negb (n2 =? -1)
                    && existsb (fun '(a, b) => (a =? n1) && (b =? n2)) R)
            all_chars)
    R.

(** The kinds and lexemes of the first [n] tokens of a source text. *)
Definition scan_text (n : nat) (src : list ascii)
    : option (list (TokenType * string)) :=
  '(ts, _) <- get_tokens n (create_lexer src) ;;
  Some (map (fun t => (tok_type t, string_of_list_ascii (tok_lexeme t))) ts).

Definition scan (n : nat) (src : string) : option (list (TokenType * string)) :=
  scan_text n (lit src).

(** * Further predicates *)

(** [l'] is reached from [l] by calls of [advance] alone. *)
Definition steps (l l' : Lexer) : Prop :=
  exists n, l' = Nat.iter n advance l.

Definition newline : ascii := "010"%char.

(** The line and the column of the character that follows [text]: one more
    than the number of newlines in [text], and one more than the number of
    characters after the last of them. *)
Definition line_at (text : list ascii) : Z :=
  1 + Z.of_nat (count_occ ascii_dec text newline).

Fixpoint run_to_newline (backwards : list ascii) : nat :=
  match backwards with
  | [] => O
  | c :: r => if (c =? newline)%char then O else S (run_to_newline r)
  end.

Definition column_at (text : list ascii) : Z :=
  1 + Z.of_nat (run_to_newline (rev text)).

(** The line and column counters of [l] agree with its offset. *)
Definition located (l : Lexer) : Prop :=
  line l = line_at (firstn (pos l) (source l)) /\
  column l = column_at (firstn (pos l) (source l)).

(** The longest prefix of characters that satisfy [p], and the rest. *)
Fixpoint take_while (p : ascii -> bool) (s : list ascii) : list ascii :=
  match s with
  | [] => []
  | c :: r => if p c then c :: take_while p r else []
  end.

Fixpoint drop_while (p : ascii -> bool) (s : list ascii) : list ascii :=
  match s with
  | [] => []
  | c :: r => if p c then drop_while p r else s
  end.

Definition not_newline (c : ascii) : bool := negb (c =? newline)%char.

(** Text that the scanner passes over between tokens: runs of white space,
    line comments up to and including the end of the line, and block
    comments up to and including the first star-slash. *)
Inductive skipped : list ascii -> Prop :=
| skipped_nil : skipped []
| skipped_space ws rest :
    ws <> [] -> forallb isspace ws = true -> skipped rest ->
    skipped (ws ++ rest)
| skipped_line body rest :
    forallb not_newline body = true -> skipped rest ->
    skipped ("/"%char :: "/"%char :: body ++ newline :: rest)
| skipped_block body rest :
    has_close body = false -> skipped rest ->
    skipped ("/"%char :: "*"%char :: body ++ "*"%char :: "/"%char :: rest).

(** A comment that nothing ends: a line comment without a newline or a
    block comment without a star-slash. *)
Inductive cut_off : list ascii -> Prop :=
| cut_off_line body :
    forallb not_newline body = true ->
    cut_off ("/"%char :: "/"%char :: body)
| cut_off_block body :
    has_close body = false ->
    cut_off ("/"%char :: "*"%char :: body).

(** The text begins with a white-space character or opens a comment. *)
Definition begins_separator (r : list ascii) : bool :=
  match r with
  | [] => false
  | c :: r' =>
      isspace c
      || (c =? "/")%char
         && ((hd NUL r' =? "/")%char || (hd NUL r' =? "*")%char)
  end.

(** [sk] is all the text that is passed over before [rest]: [rest] begins
    with no white space and opens no comment, and [sk] consists of white
    space and finished comments, or ends in a comment that nothing ends,
    and then nothing is left. *)
Definition passes_over (sk rest : list ascii) : Prop :=
  begins_separator rest = false /\
  (skipped sk \/
   exists s c, sk = s ++ c /\ skipped s /\ cut_off c /\ rest = []).

(** The source text between two offsets. *)
Definition text_between (l : Lexer) (from to : nat) : list ascii :=
  firstn (to - from) (skipn from (firstn (len l) (source l))).

(** Token [t] was read between the states [ls] and [l']: it carries the line
    and column of [ls]; unless it is an ERROR token its lexeme is the source
    text between the two offsets; EOF is issued at the end of the input and
    reads nothing, every other token reads at least one character. *)
Definition token_at (ls : Lexer) (t : Token) (l' : Lexer) : Prop :=
  steps ls l' /\
  tok_line t = line ls /\ tok_column t = column ls /\
  (tok_type t <> TOKEN_ERROR ->
   tok_lexeme t = text_between ls (pos ls) (pos l')) /\
  (tok_type t = TOKEN_EOF -> l' = ls /\ pos ls = len ls) /\
  (tok_type t <> TOKEN_EOF -> (pos ls < pos l')%nat).

(** The part of a block comment before its first star-slash, and what
    follows that star-slash if there is one. *)
Fixpoint before_close (s : list ascii) : list ascii :=
  match s with
  | [] => []
  | c :: r =>
      if (c =? "*")%char && (hd NUL r =? "/")%char then []
      else c :: before_close r
  end.

Fixpoint after_close (s : list ascii) : option (list ascii) :=
  match s with
  | [] => None
  | c :: r =>
      if (c =? "*")%char && (hd NUL r =? "/")%char then Some (tl r)
      else after_close r
  end.

(** The tokens [ts] in order, each after all the text that is passed over
    before it, and the text passed over at the end make up [text].  An ERROR
    token stands for some text that is not empty; any other token for its
    lexeme. *)
Inductive covers : list Token -> list ascii -> Prop :=
| covers_end sk : passes_over sk [] -> covers [] sk
| covers_token sk body t ts rest :
    passes_over sk (body ++ rest) -> body <> [] ->
    (tok_type t <> TOKEN_ERROR -> tok_lexeme t = body) ->
    covers ts rest ->
    covers (t :: ts) (sk ++ body ++ rest).

Definition is_error (t : Token) : bool :=
  match tok_type t with
  | TOKEN_ERROR => true
  | _ => false
  end.

Definition is_eof (t : Token) : bool :=
  match tok_type t with
  | TOKEN_EOF => true
  | _ => false
  end.

(** [toupper] of <ctype.h>, used here to compare the two tables of token.h
    and token.c. *)
Definition toupper (c : ascii) : ascii :=
  if in_range "a" "z" c then ascii_of_N (N_of_ascii c - 32) else c.

(** The number written by a run of decimal digits. *)
Definition base10_value (ds : list ascii) : Z :=
  fold_left (fun acc c => 10 * acc + (code c - 48)) ds 0.

(** The characters that continue a decimal number after its digits. *)
Definition continues_number (c : ascii) : bool :=
  isdigit c || (c =? ".")%char || (c =? "e")%char || (c =? "E")%char.

Definition is_x (c : ascii) : bool := (c =? "x")%char || (c =? "X")%char.

Definition is_sign (c : ascii) : bool := (c =? "+")%char || (c =? "-")%char.

Definition is_exponent_mark (c : ascii) : bool :=
  (c =? "e")%char || (c =? "E")%char.

(** The inside of a string literal: characters other than the double quote
    and the backslash, and backslashes each with the character after it. *)
Inductive string_body : list ascii -> Prop :=
| body_nil : string_body []
| body_plain c rest :
    c <> dquote -> c <> backslash -> string_body rest ->
    string_body (c :: rest)
| body_escape c rest :
    string_body rest -> string_body (backslash :: c :: rest).

Definition unterminated_string_msg : list ascii := lit "未结束的字符串".
Definition unterminated_char_msg : list ascii := lit "未结束的字符常量".

(** The escapes of a character literal; any other character after the
    backslash stands for itself. *)
Definition escapes : list (ascii * ascii) :=
  [ ("n"%char, "010"%char); ("t"%char, "009"%char); ("r"%char, "013"%char);
    (backslash, backslash); (squote, squote); ("0"%char, NUL) ].

Definition unescape (c : ascii) : ascii :=
  match find (fun p => (fst p =? c)%char) escapes with
  | Some p => snd p
  | None => c
  end.

(** The operators of two characters and of one character with their token
    types, and the characters that begin a token of another class. *)
Definition two_char_ops : list (ascii * ascii * TokenType) :=
  [ ("="%char, "="%char, TOKEN_EQ); ("!"%char, "="%char, TOKEN_NE);
    ("<"%char, "="%char, TOKEN_LE); (">"%char, "="%char, TOKEN_GE);
    ("&"%char, "&"%char, TOKEN_AND); ("|"%char, "|"%char, TOKEN_OR) ].

Definition one_char_ops : list (ascii * TokenType) :=
  [ ("+"%char, TOKEN_PLUS); ("-"%char, TOKEN_MINUS);
    ("*"%char, TOKEN_MULTIPLY); ("/"%char, TOKEN_DIVIDE);
    ("%"%char, TOKEN_MODULO); ("="%char, TOKEN_ASSIGN);
    ("<"%char, TOKEN_LT); (">"%char, TOKEN_GT); ("!"%char, TOKEN_NOT);
    (";"%char, TOKEN_SEMICOLON); (","%char, TOKEN_COMMA);
    ("("%char, TOKEN_LPAREN); (")"%char, TOKEN_RPAREN);
    ("{"%char, TOKEN_LBRACE); ("}"%char, TOKEN_RBRACE);
    ("["%char, TOKEN_LBRACKET); ("]"%char, TOKEN_RBRACKET) ].

Definition is_operator_char (c : ascii) : bool :=
  existsb (fun p => (c =? fst p)%char) one_char_ops.

(** [a] and [b] together are an operator of two characters or open a
    comment. *)
Definition pairs_with (a b : ascii) : bool :=
  existsb (fun p => (a =? fst (fst p))%char && (b =? snd (fst p))%char)
          two_char_ops
  || (a =? "/")%char && ((b =? "/")%char || (b =? "*")%char).

Definition begins_other_token (c : ascii) : bool :=
  isspace c || isalpha c || (c =? "_")%char || isdigit c
  || (c =? dquote)%char || (c =? squote)%char.

(** The states reached from [states] over epsilon transitions alone. *)
Inductive eps_reachable (nfa : NFA) (states : StateSet) : Z -> Prop :=
  | eps_here : forall s, In s states -> eps_reachable nfa states s
  | eps_step : forall s t,
      eps_reachable nfa states s ->
      In t (nfa_transitions nfa) ->
      from_state t = s -> symbol t = EPSILON ->
      eps_reachable nfa states (to_state t).

(** [a] and [b] hold the same states. *)
Definition same_states (a b : StateSet) : Prop :=
  forall s, In s a <-> In s b.

(** *** Partitions of the states of a DFA *)

(** A table of MAX_STATES rows and MAX_ALPHABET columns. *)
Definition shaped (t : table) : Prop :=
  count t = MAX_STATES /\ forall row, In row t -> count row = MAX_ALPHABET.

(** The states [s1] and [s2] have transitions on the same symbols of the
    alphabet, to states of the same block of [partition]. *)
Definition agree (dfa : DFA) (partition : list Z) (s1 s2 : Z) : Prop :=
  forall sym,
    In sym (alphabet dfa) ->
    (table_get (transition dfa) s1 sym = -1 <->
     table_get (transition dfa) s2 sym = -1) /\
    (table_get (transition dfa) s1 sym <> -1 ->
     array_get partition (table_get (transition dfa) s1 sym) 0
     = array_get partition (table_get (transition dfa) s2 sym) 0).

(** No block of [partition] holds two states that disagree. *)
Definition congruent (dfa : DFA) (partition : list Z) : Prop :=
  forall s s',
    0 <= s < num_states dfa -> 0 <= s' < num_states dfa ->
    array_get partition s 0 = array_get partition s' 0 ->
    agree dfa partition s s'.

(** What the refinement keeps true of [partition] and [num_partitions]:
    every state has a block below [num_partitions]; the states of a block
    are all final or all not; the blocks from 2 on hold one state each;
    state 0 stays in block 0 or 1; and a block is counted for every state
    outside the blocks 0 and 1. *)
Definition refined (dfa : DFA) (partition : list Z) (num_partitions : Z)
    : Prop :=
  List.length partition = Z.to_nat (num_states dfa) /\
  (forall s, 0 <= s < num_states dfa ->
             0 <= array_get partition s 0 < num_partitions) /\
  (forall s s',
     0 <= s < num_states dfa -> 0 <= s' < num_states dfa ->
     array_get partition s 0 = array_get partition s' 0 ->
     array_get (final_states dfa) s false
     = array_get (final_states dfa) s' false) /\
  (forall s s',
     0 <= s < num_states dfa -> 0 <= s' < num_states dfa ->
     array_get partition s 0 = array_get partition s' 0 ->
     2 <= array_get partition s 0 -> s = s') /\
  array_get partition 0 0 < 2 /\
  num_partitions
  + count (filter (fun s => array_get partition s 0 <? 2)
                  (upto (num_states dfa)))
  = num_states dfa + 2.

(** The comparisons of a pass over the blocks [ps] found no difference. *)
Definition stable (dfa : DFA) (partition : list Z) (ps : list Z) : Prop :=
  forall p s1 others s2,
    In p ps ->
    filter (fun i => array_get partition i 0 =? p) (upto (num_states dfa))
    = s1 :: others ->
    In s2 others ->
    distinguishable dfa partition s1 s2 = false.

(** The table has transitions on symbols of the alphabet only. *)
Definition on_alphabet (d : DFA) : bool :=
  forallb
    (fun s =>
       forallb
         (fun c =>
            (table_get (transition d) s c =? -1)
            || existsb (fun a => a =? c) (alphabet d))
         (upto MAX_ALPHABET))
    (upto (num_states d)).

(** Start state 0 with transitions on [a] to 1 and on [b] to 2; 1 and 2
    are final and have a transition on [a] to 3, which is not final. *)
Definition dfa_twins : DFA :=
  {| transition :=
       update 0 (update (Z.to_nat (code "a")) 1
                   (update (Z.to_nat (code "b")) 2
                      (repeat (-1) (Z.to_nat MAX_ALPHABET))))
         (update 1 (update (Z.to_nat (code "a")) 3
                      (repeat (-1) (Z.to_nat MAX_ALPHABET)))
            (update 2 (update (Z.to_nat (code "a")) 3
                         (repeat (-1) (Z.to_nat MAX_ALPHABET)))
               empty_table));
     num_states := 4;
     start_state := 0;
     final_states :=
       update 1 true (update 2 true (repeat false (Z.to_nat MAX_STATES)));
     alphabet := [code "a"; code "b"] |}.

(** *** Running an NFA

    The sources build NFAs and do not run them.  A path reads a word from
    one state to another: an epsilon transition reads nothing, and a
    transition on any other symbol reads the character with that code. *)
Inductive nfa_path (nfa : NFA) : Z -> list ascii -> Z -> Prop :=
  | path_here : forall s, nfa_path nfa s [] s
  | path_eps : forall s t w s',
      In t (nfa_transitions nfa) -> from_state t = s ->
      symbol t = EPSILON ->
      nfa_path nfa (to_state t) w s' ->
      nfa_path nfa s w s'
  | path_char : forall s t c w s',
      In t (nfa_transitions nfa) -> from_state t = s ->
      symbol t = char_to_int c -> symbol t <> EPSILON ->
      nfa_path nfa (to_state t) w s' ->
      nfa_path nfa s (c :: w) s'.

Definition nfa_accepts (nfa : NFA) (w : list ascii) : Prop :=
  exists s,
    nfa_path nfa (nfa_start_state nfa) w s /\
    array_get (nfa_final_states nfa) s false = true.

(** The state count is within the capacity, and the start state and the
    ends of every transition are states. *)
Definition in_states (nfa : NFA) (s : Z) : bool :=
  (0 <=? s) && (s <? nfa_num_states nfa).

Definition nfa_wf (nfa : NFA) : bool :=
  (nfa_num_states nfa <=? MAX_STATES)
  && in_states nfa (nfa_start_state nfa)
  && forallb (fun t => in_states nfa (from_state t)
                       && in_states nfa (to_state t))
       (nfa_transitions nfa).

(** The alphabet that [nfa_to_dfa] gives its result. *)
Definition subset_alphabet : list Z :=
  char_range "a" "z" ++ char_range "A" "Z" ++ char_range "0" "9" ++
  [code "_"].

(** A set of states of the NFA without repetitions. *)
Definition bounded (nfa : NFA) (set : StateSet) : Prop :=
  NoDup set /\ forall s, In s set -> 0 <= s < nfa_num_states nfa.

(** No epsilon transition leaves the set. *)
Definition eps_closed (nfa : NFA) (set : StateSet) : Prop :=
  forall t,
    In t (nfa_transitions nfa) -> symbol t = EPSILON ->
    In (from_state t) set -> In (to_state t) set.

(** Every entry of the table under construction is [-1] or, in the row of
    a DFA state and the column of a symbol of the alphabet, the index of the
    set reached from the set of that state on that symbol. *)
Definition entries_sound (nfa : NFA) (states : list StateSet) (tbl : table)
    : Prop :=
  forall i sym,
    table_get tbl i sym = -1 \/
    (0 <= i < count states /\ In sym subset_alphabet /\
     0 <= table_get tbl i sym < count states /\
     forall s,
       In s (array_get states (table_get tbl i sym) []) <->
       eps_reachable nfa (move nfa (array_get states i []) sym) s).

(** The row of state [i] has an entry wherever a transition leads. *)
Definition row_complete (nfa : NFA) (states : list StateSet) (tbl : table)
    (i : Z) : Prop :=
  forall sym,
    In sym subset_alphabet ->
    count (move nfa (array_get states i []) sym) > 0 ->
    table_get tbl i sym <> -1.

(** What the subset construction keeps true while the states in [pending]
    wait for their rows. *)
Definition subset_inv (nfa : NFA) (pending : list Z) (st : Subset) : Prop :=
  shaped (sub_table st) /\
  1 <= count (dfa_states st) <= MAX_STATES /\
  (forall set, In set (dfa_states st) -> bounded nfa set /\ eps_closed nfa set) /\
  (forall s, In s (array_get (dfa_states st) 0 []) <->
             eps_reachable nfa [nfa_start_state nfa] s) /\
  (forall i, In i (unmarked st) -> 0 <= i < count (dfa_states st)) /\
  entries_sound nfa (dfa_states st) (sub_table st) /\
  (forall i, 0 <= i < count (dfa_states st) -> ~ In i pending ->
             row_complete nfa (dfa_states st) (sub_table st) i).

(** The DFA of the identifiers, as [nfa_to_dfa] builds it. *)
Definition identifier_dfa : DFA :=
  match nfa_to_dfa create_nfa_for_identifier with
  | Some d => d
  | None => {| transition := empty_table; num_states := 0; start_state := 0;
               final_states := []; alphabet := [] |}
  end.

(** What the identifier NFA must look like for its language to be right:
    0 is the start state and 1 the only final state of the two, no
    transition is an epsilon transition, the transitions on a character
    lead from 0 to 1 only for the letters and the underscore and from 1 to
    1 only for these and the digits, and there is such a transition for
    each of these characters. *)
Definition identifier_nfa_shape (nfa : NFA) : bool :=
  (nfa_start_state nfa =? 0)
  && negb (array_get (nfa_final_states nfa) 0 false)
  && array_get (nfa_final_states nfa) 1 false
  && forallb (fun t => negb (symbol t =? EPSILON)) (nfa_transitions nfa)
  && forallb
       (fun c =>
          forallb
            (fun t =>
               implb (symbol t =? char_to_int c)
                 (if from_state t =? 0
                  then (to_state t =? 1) && is_letter c
                  else (from_state t =? 1) && (to_state t =? 1)
                       && is_letter_or_digit c))
            (nfa_transitions nfa)
          && implb (is_letter c)
               (existsb
                  (fun t => (from_state t =? 0) && (to_state t =? 1)
                            && (symbol t =? char_to_int c))
                  (nfa_transitions nfa))
          && implb (is_letter_or_digit c)
               (existsb
                  (fun t => (from_state t =? 1) && (to_state t =? 1)
                            && (symbol t =? char_to_int c))
                  (nfa_transitions nfa)))
       all_chars.
(** * Properties of the scanner *)



Lemma follows_refl l : follows l l.
Proof. unfold follows; auto. Qed.

Lemma follows_trans l1 l2 l3 : follows l1 l2 -> follows l2 l3 -> follows l1 l3.
Proof.
  unfold follows; intros (S1 & L1 & P1) (S2 & L2 & P2).
  repeat split; try congruence; lia.
Qed.

Lemma create_lexer_inv src : lexer_inv (create_lexer src).
Proof.
  unfold lexer_inv, create_lexer; simpl.
  repeat split; try lia; auto.
  intros H. destruct src as [|c r]; simpl in *; auto.
  destruct (Ascii.eqb_spec c NUL); [assumption | discriminate].
Qed.

Lemma advance_inv l : lexer_inv l -> lexer_inv (advance l).
Proof.
  unfold lexer_inv, advance; intros (Hle & Hin & Hend).
  destruct (Nat.ltb_spec (pos l) (len l)) as [Hlt | Hge]; [| auto].
  destruct (current_char l =? "010")%char; simpl;
    (destruct (Nat.ltb_spec (S (pos l)) (len l)); repeat split; auto; lia).
Qed.

Lemma advance_follows l : follows l (advance l).
Proof.
  unfold follows, advance.
  destruct (Nat.ltb_spec (pos l) (len l)); [| auto].
  destruct (current_char l =? "010")%char; simpl; auto.
Qed.

Lemma advance_pos l : (pos l < len l)%nat -> pos (advance l) = S (pos l).
Proof.
  unfold advance; intros H.
  destruct (Nat.ltb_spec (pos l) (len l)); [| lia].
  destruct (current_char l =? "010")%char; reflexivity.
Qed.

Lemma advance_char l :
  (pos l < len l)%nat ->
  current_char (advance l) =
    if (S (pos l) <? len l)%nat then char_at (source l) (S (pos l)) else NUL.
Proof.
  unfold advance; intros H.
  destruct (Nat.ltb_spec (pos l) (len l)); [| lia].
  destruct (current_char l =? "010")%char; reflexivity.
Qed.

(** Away from the end of the input the invariant leaves room to advance. *)
Lemma not_at_end_lt l : lexer_inv l -> at_end l = false -> (pos l < len l)%nat.
Proof.
  unfold at_end; intros (Hle & _ & Hend) H.
  destruct (Nat.eq_dec (pos l) (len l)) as [E | N]; [| lia].
  rewrite (Hend E) in H; discriminate.
Qed.

Lemma at_end_of_input l : lexer_inv l -> pos l = len l -> at_end l = true.
Proof. unfold at_end; intros (_ & _ & Hend) E; rewrite (Hend E); reflexivity. Qed.


Lemma good_after_advance l l' : good_after l l' -> good_after l (advance l').
Proof.
  intros [I F]; split; [apply advance_inv; assumption |].
  eapply follows_trans; [eassumption | apply advance_follows].
Qed.

Lemma good_after_refl l : lexer_inv l -> good_after l l.
Proof. intros; split; [assumption | apply follows_refl]. Qed.

Lemma good_after_trans l1 l2 l3 :
  good_after l1 l2 -> good_after l2 l3 -> good_after l1 l3.
Proof. intros [_ F1] [I F2]; split; [assumption | eapply follows_trans; eassumption]. Qed.

Lemma good_after_step l l' :
  (pos l < len l)%nat -> good_after (advance l) l' ->
  good_after l l' /\ (pos l < pos l')%nat.
Proof.
  intros Hlt [I F]. pose proof (advance_pos l Hlt) as P.
  pose proof (advance_follows l) as F0.
  split; [split; [assumption | eapply follows_trans; eassumption] |].
  destruct F as (_ & _ & Hp); lia.
Qed.

Lemma advance_while_total p fuel l :
  lexer_inv l -> (len l - pos l < fuel)%nat ->
  exists l', advance_while fuel p l = Some l' /\ good_after l l'.
Proof.
  revert l; induction fuel as [| f IH]; intros l I Hf; [lia |].
  simpl. destruct (negb (at_end l) && p (current_char l)) eqn:C.
  - apply andb_prop in C as [C _]; apply negb_true_iff in C.
    pose proof (not_at_end_lt l I C) as Hlt.
    destruct (IH (advance l)) as (l' & E & G).
    + apply advance_inv; assumption.
    + destruct (advance_follows l) as (_ & -> & _).
      rewrite (advance_pos l Hlt); lia.
    + exists l'; split; [assumption |].
      apply (good_after_step l l' Hlt G).
  - exists l; split; [reflexivity | apply good_after_refl; assumption].
Qed.

Lemma budget_enough l : (len l - pos l < budget l)%nat.
Proof. unfold budget; lia. Qed.

Lemma skip_block_comment_loop_total fuel l :
  lexer_inv l -> (len l - pos l < fuel)%nat ->
  exists l', skip_block_comment_loop fuel l = Some l' /\ good_after l l'.
Proof.
  revert l; induction fuel as [| f IH]; intros l I Hf; [lia |].
  simpl. destruct (at_end l) eqn:C; simpl.
  - exists l; split; [reflexivity | apply good_after_refl; assumption].
  - destruct ((current_char l =? "*")%char && (peek l =? "/")%char).
    + eexists; split; [reflexivity |].
      do 2 apply good_after_advance. apply good_after_refl; assumption.
    + pose proof (not_at_end_lt l I C) as Hlt.
      destruct (IH (advance l)) as (l' & E & G).
      * apply advance_inv; assumption.
      * destruct (advance_follows l) as (_ & -> & _).
        rewrite (advance_pos l Hlt); lia.
      * exists l'; split; [assumption |].
        apply (good_after_step l l' Hlt G).
Qed.

Lemma read_string_loop_total fuel l :
  lexer_inv l -> (len l - pos l < fuel)%nat ->
  exists l', read_string_loop fuel l = Some l' /\ good_after l l'.
Proof.
  revert l; induction fuel as [| f IH]; intros l I Hf; [lia |].
  simpl. destruct (negb (at_end l) && negb (current_char l =? dquote)%char) eqn:C.
  - apply andb_prop in C as [C _]; apply negb_true_iff in C.
    pose proof (not_at_end_lt l I C) as Hlt.
    pose proof (advance_pos l Hlt) as P.
    pose proof (advance_inv l I) as I1.
    pose proof (advance_follows l) as (S1 & L1 & P1).
    destruct (current_char l =? backslash)%char.
    + set (l2 := if negb (at_end (advance l)) then advance (advance l) else advance l).
      assert (G2 : good_after (advance l) l2).
      { unfold l2; destruct (negb (at_end (advance l)));
          [apply good_after_advance |]; apply good_after_refl; assumption. }
      destruct (IH l2) as (l' & E & G).
      * apply G2.
      * destruct G2 as (_ & _ & L2 & P2). rewrite L2, L1. lia.
      * exists l'; split; [assumption |].
        apply (good_after_step l l' Hlt (good_after_trans _ _ _ G2 G)).
    + destruct (IH (advance l)) as (l' & E & G); [assumption | rewrite L1, P; lia |].
      exists l'; split; [assumption |].
      apply (good_after_step l l' Hlt G).
  - exists l; split; [reflexivity | apply good_after_refl; assumption].
Qed.

(** Unfolds one bind of the error monad in the goal, given the result. *)
Ltac bind_some H := rewrite H; cbn [bind].

(** Closes [good_after l (advance (... (advance l')))] from a hypothesis
    on [l'] or from the invariant of [l]. *)
Ltac good :=
  first [ assumption
        | apply good_after_refl; assumption
        | apply good_after_advance; good ].

Lemma advance_while_progress p l :
  lexer_inv l -> at_end l = false -> p (current_char l) = true ->
  exists l', advance_while (budget l) p l = Some l' /\
             good_after (advance l) l'.
Proof.
  intros I C Hp. pose proof (not_at_end_lt l I C) as Hlt.
  unfold budget; simpl. rewrite C, Hp; simpl.
  apply advance_while_total; [apply advance_inv; assumption |].
  destruct (advance_follows l) as (_ & -> & _).
  rewrite (advance_pos l Hlt); lia.
Qed.

Lemma skip_line_comment_total l :
  lexer_inv l ->
  exists l', skip_line_comment l = Some l' /\ good_after (advance l) l'.
Proof.
  intros I. unfold skip_line_comment.
  pose proof (advance_inv _ (advance_inv _ I)) as I2.
  destruct (advance_while_total (fun c => negb (c =? "010")%char) _ _ I2
              (budget_enough _)) as (l1 & E & G).
  bind_some E.
  assert (G1 : good_after (advance l) l1).
  { eapply good_after_trans; [| exact G].
    apply good_after_advance, good_after_refl, advance_inv, I. }
  eexists; split; [reflexivity |].
  destruct (current_char l1 =? "010")%char;
    [apply good_after_advance |]; assumption.
Qed.

Lemma skip_block_comment_total l :
  lexer_inv l ->
  exists l', skip_block_comment l = Some l' /\ good_after (advance l) l'.
Proof.
  intros I. unfold skip_block_comment.
  pose proof (advance_inv _ (advance_inv _ I)) as I2.
  destruct (skip_block_comment_loop_total _ _ I2 (budget_enough _))
    as (l1 & E & G).
  exists l1; split; [assumption |].
  eapply good_after_trans; [| exact G].
  apply good_after_advance, good_after_refl, advance_inv, I.
Qed.

Lemma read_identifier_total l :
  lexer_inv l ->
  exists t l', read_identifier l = Some (t, l') /\ good_after l l'.
Proof.
  intros I. unfold read_identifier.
  destruct (advance_while_total is_ident_char _ _ I (budget_enough _))
    as (l1 & E & G).
  bind_some E. eauto.
Qed.

Lemma read_fraction_total l :
  lexer_inv l ->
  exists f l', read_fraction l = Some (f, l') /\ good_after l l'.
Proof.
  intros I. unfold read_fraction.
  destruct ((current_char l =? ".")%char && isdigit (peek l)).
  - destruct (advance_while_total isdigit _ _ (advance_inv _ I)
                (budget_enough _)) as (l2 & E & G).
    bind_some E. do 2 eexists; split; [reflexivity |].
    eapply good_after_trans; [| exact G].
    apply good_after_advance, good_after_refl, I.
  - do 2 eexists; split; [reflexivity | apply good_after_refl, I].
Qed.

Lemma read_exponent_total f l :
  lexer_inv l ->
  exists f' l', read_exponent f l = Some (f', l') /\ good_after l l'.
Proof.
  intros I. unfold read_exponent.
  destruct ((current_char l =? "e")%char || (current_char l =? "E")%char).
  - set (l4 := if (current_char (advance l) =? "+")%char
                  || (current_char (advance l) =? "-")%char
               then advance (advance l) else advance l).
    assert (G4 : good_after l l4).
    { unfold l4.
      destruct ((current_char (advance l) =? "+")%char
                || (current_char (advance l) =? "-")%char);
        good. }
    destruct (advance_while_total isdigit _ _ (proj1 G4)
                (budget_enough _)) as (l5 & E & G).
    bind_some E. do 2 eexists; split; [reflexivity |].
    eapply good_after_trans; eassumption.
  - do 2 eexists; split; [reflexivity | apply good_after_refl, I].
Qed.

Lemma read_number_total l :
  lexer_inv l ->
  exists t l', read_number l = Some (t, l') /\ good_after l l'.
Proof.
  intros I. unfold read_number.
  destruct ((current_char l =? "0")%char
            && ((peek l =? "x")%char || (peek l =? "X")%char)).
  - pose proof (advance_inv _ (advance_inv _ I)) as I2.
    destruct (advance_while_total isxdigit _ _ I2 (budget_enough _))
      as (l1 & E & G).
    bind_some E. do 2 eexists; split; [reflexivity |].
    eapply good_after_trans; [| exact G].
    do 2 apply good_after_advance. apply good_after_refl, I.
  - destruct (advance_while_total isdigit _ _ I (budget_enough _))
      as (l1 & E1 & G1).
    bind_some E1.
    destruct (read_fraction_total l1 (proj1 G1)) as (f2 & l2 & E2 & G2).
    bind_some E2.
    destruct (read_exponent_total f2 l2 (proj1 G2)) as (f3 & l3 & E3 & G3).
    bind_some E3. do 2 eexists; split; [reflexivity |].
    eapply good_after_trans; [eassumption |].
    eapply good_after_trans; eassumption.
Qed.

Lemma read_string_total l :
  lexer_inv l ->
  exists t l', read_string l = Some (t, l') /\ good_after l l'.
Proof.
  intros I. unfold read_string.
  destruct (read_string_loop_total _ _ (advance_inv _ I) (budget_enough _))
    as (l1 & E & G).
  bind_some E.
  assert (G1 : good_after l l1).
  { eapply good_after_trans; [| exact G].
    apply good_after_advance, good_after_refl, I. }
  destruct (negb (current_char l1 =? dquote)%char);
    do 2 eexists; (split; [reflexivity |]);
    [| apply good_after_advance]; assumption.
Qed.

Lemma read_char_good l : lexer_inv l -> good_after l (snd (read_char l)).
Proof.
  intros I. unfold read_char.
  pose proof (good_after_advance _ _ (good_after_refl l I)) as G1.
  match goal with
  | |- context [let '(v, l0) := ?e in _] =>
      assert (G2 : good_after l (snd e)); [| destruct e as [v l2]]
  end.
  { destruct (current_char (advance l) =? backslash)%char; simpl;
      [good |].
    destruct (negb (at_end (advance l))
              && negb (current_char (advance l) =? squote)%char); simpl; good. }
  simpl in G2.
  destruct (negb (current_char l2 =? squote)%char); simpl; good.
Qed.

Lemma read_operator_good l : lexer_inv l -> good_after l (snd (read_operator l)).
Proof.
  intros I. unfold read_operator.
  pose proof (good_after_advance _ _ (good_after_refl l I)) as G1.
  pose proof (good_after_advance _ _ G1) as G2.
  repeat match goal with
         | |- context [if ?b then _ else _] => destruct b
         end; simpl; assumption.
Qed.

Lemma get_next_token_loop_total fuel l :
  lexer_inv l -> (len l - pos l < fuel)%nat ->
  exists t l', get_next_token_loop fuel l = Some (t, l') /\ good_after l l'.
Proof.
  revert l; induction fuel as [| f IH]; intros l I Hf; [lia |].
  assert (Hcont : forall l1, (pos l < len l)%nat ->
            good_after (advance l) l1 ->
            exists t l', get_next_token_loop f l1 = Some (t, l') /\
                         good_after l l').
  { intros l1 Hlt G1.
    destruct (good_after_step l l1 Hlt G1) as (G & Hp).
    destruct G as [I1 F1].
    destruct (IH l1 I1) as (t & l' & E & G').
    - destruct F1 as (_ & -> & _); lia.
    - exists t, l'; split; [assumption |].
      eapply good_after_trans; [split |]; eassumption. }
  simpl. destruct (at_end l) eqn:C; simpl.
  { do 2 eexists; split; [reflexivity | apply good_after_refl, I]. }
  pose proof (not_at_end_lt l I C) as Hlt.
  destruct (isspace (current_char l)) eqn:Hsp.
  { destruct (advance_while_progress isspace l I C Hsp) as (l1 & E & G).
    unfold skip_whitespace. bind_some E. apply Hcont; assumption. }
  destruct ((current_char l =? "/")%char && (peek l =? "/")%char).
  { destruct (skip_line_comment_total l I) as (l1 & E & G).
    bind_some E. apply Hcont; assumption. }
  destruct ((current_char l =? "/")%char && (peek l =? "*")%char).
  { destruct (skip_block_comment_total l I) as (l1 & E & G).
    bind_some E. apply Hcont; assumption. }
  destruct (isalpha (current_char l) || (current_char l =? "_")%char).
  { apply read_identifier_total, I. }
  destruct (isdigit (current_char l)).
  { apply read_number_total, I. }
  destruct (current_char l =? dquote)%char.
  { apply read_string_total, I. }
  destruct (current_char l =? squote)%char.
  - pose proof (read_char_good l I) as G. destruct (read_char l) as [t l'].
    eauto.
  - pose proof (read_operator_good l I) as G.
    destruct (read_operator l) as [t l']. eauto.
Qed.

Lemma get_next_token_total l :
  lexer_inv l ->
  exists t l', get_next_token l = Some (t, l') /\ good_after l l'.
Proof. intros I; apply get_next_token_loop_total; [exact I | apply budget_enough]. Qed.

(** ** The scanner seen through the unread input *)

Lemma skipn_cons_inv {A} (n : nat) (l : list A) (c d : A) (r : list A) :
  skipn n l = c :: r ->
  nth n l d = c /\ skipn (S n) l = r /\ (n < List.length l)%nat.
Proof.
  revert l; induction n as [| n IH]; intros [| a l] H; simpl in *;
    try discriminate.
  - inversion H; subst; repeat split; lia.
  - destruct (IH l H) as (H1 & H2 & H3). repeat split; auto; lia.
Qed.

Lemma hd_skipn {A} (n : nat) (l : list A) (d : A) :
  hd d (skipn n l) = nth n l d.
Proof.
  rewrite <- (Nat.add_0_r n) at 2. rewrite <- nth_skipn.
  destruct (skipn n l); reflexivity.
Qed.

Lemma strlen_le s : (strlen s <= List.length s)%nat.
Proof.
  induction s as [| c r IH]; simpl; [lia |].
  destruct (c =? NUL)%char; lia.
Qed.

Lemma strlen_no_NUL s c : In c (firstn (strlen s) s) -> c <> NUL.
Proof.
  induction s as [| a r IH]; simpl; [tauto |].
  destruct (Ascii.eqb_spec a NUL) as [E | N]; simpl; [tauto |].
  intros [<- | H]; auto.
Qed.

Lemma strdup_no_NUL s : ~ In NUL s -> strdup s = s.
Proof.
  unfold strdup. induction s as [| a r IH]; simpl; [reflexivity |].
  intros H. destruct (Ascii.eqb_spec a NUL) as [E | N]; [tauto |].
  simpl. f_equal. apply IH. tauto.
Qed.

Lemma create_lexer_wf src : wf_lexer (create_lexer src).
Proof. split; [apply create_lexer_inv | reflexivity]. Qed.

Lemma advance_wf l : wf_lexer l -> wf_lexer (advance l).
Proof.
  intros [I L]; split; [apply advance_inv, I |].
  destruct (advance_follows l) as (-> & -> & _); assumption.
Qed.

Lemma unread_create src : unread (create_lexer src) = strdup src.
Proof. reflexivity. Qed.

Lemma unread_no_NUL l c : wf_lexer l -> In c (unread l) -> c <> NUL.
Proof.
  intros [_ L] H. unfold unread in H. rewrite L in H.
  apply (strlen_no_NUL (source l)).
  rewrite <- (firstn_skipn (pos l) (firstn _ _)). apply in_or_app; auto.
Qed.

Lemma text_length l :
  wf_lexer l -> List.length (firstn (len l) (source l)) = len l.
Proof.
  intros [_ L]. rewrite length_firstn, L.
  pose proof (strlen_le (source l)); lia.
Qed.

Lemma reads_nil l : wf_lexer l -> reads l [] l.
Proof. intros W; unfold reads; simpl; repeat split; auto; apply W. Qed.

Lemma reads_trans l1 w1 l2 w2 l3 :
  reads l1 w1 l2 -> reads l2 w2 l3 -> reads l1 (w1 ++ w2) l3.
Proof.
  intros (W2 & S2 & L2 & P2 & U2) (W3 & S3 & L3 & P3 & U3).
  unfold reads. rewrite length_app, <- app_assoc, <- U3.
  repeat split; try apply W3; try congruence; lia.
Qed.

Lemma unread_nil l :
  wf_lexer l -> unread l = [] -> at_end l = true /\ pos l = len l.
Proof.
  intros W H. pose proof (text_length l W) as TL. destruct W as [I L].
  assert (E : pos l = len l).
  { apply (f_equal (@List.length ascii)) in H. unfold unread in H.
    rewrite length_skipn, TL in H. simpl in H. destruct I; lia. }
  split; [apply at_end_of_input |]; assumption.
Qed.

Lemma unread_cons l c r :
  wf_lexer l -> unread l = c :: r ->
  current_char l = c /\ at_end l = false /\ peek l = hd NUL r /\
  (pos l < len l)%nat /\ reads l [c] (advance l) /\ unread (advance l) = r.
Proof.
  intros W H. pose proof (text_length l W) as TL.
  pose proof (unread_no_NUL l c W) as NN. rewrite H in NN.
  specialize (NN (or_introl eq_refl)).
  unfold unread in H.
  destruct (skipn_cons_inv _ _ _ NUL _ H) as (Hn & Hs & Hlt).
  rewrite TL in Hlt. rewrite nth_firstn in Hn.
  destruct (Nat.ltb_spec (pos l) (len l)); [| lia].
  destruct W as [I L]. pose proof I as (_ & Hin & _).
  assert (Hc : current_char l = c) by (rewrite Hin; auto).
  pose proof (advance_pos l Hlt) as P.
  destruct (advance_follows l) as (S1 & L1 & _).
  assert (U : unread (advance l) = r).
  { unfold unread. rewrite S1, L1, P. exact Hs. }
  assert (R : reads l [c] (advance l)).
  { unfold reads. split; [apply advance_wf; split; assumption |].
    rewrite U, P. simpl. repeat split; auto; lia. }
  assert (E : at_end l = false).
  { unfold at_end. rewrite Hc. destruct (Ascii.eqb_spec c NUL); congruence. }
  assert (K : peek l = hd NUL r).
  { unfold peek, char_at.
    rewrite <- Hs, hd_skipn, nth_firstn, Nat.add_1_r. reflexivity. }
  exact (conj Hc (conj E (conj K (conj Hlt (conj R U))))).
Qed.

Lemma unread_length l : wf_lexer l -> List.length (unread l) = (len l - pos l)%nat.
Proof.
  intros W. unfold unread. rewrite length_skipn, (text_length l W). reflexivity.
Qed.

Lemma unread_budget l w r :
  wf_lexer l -> unread l = w ++ r -> (List.length w < budget l)%nat.
Proof.
  intros W H. apply (f_equal (@List.length ascii)) in H.
  rewrite (unread_length l W), length_app in H. unfold budget. lia.
Qed.

Lemma advance_while_reads p w :
  forall fuel l r,
    wf_lexer l -> unread l = w ++ r ->
    forallb p w = true -> stops p r -> (List.length w < fuel)%nat ->
    exists l', advance_while fuel p l = Some l' /\ reads l w l' /\ unread l' = r.
Proof.
  induction w as [| c w IH]; intros fuel l r W U Hp Hs Hf;
    (destruct fuel as [| f]; [simpl in Hf; lia |]); simpl advance_while.
  - exists l. simpl in U.
    assert (C : negb (at_end l) && p (current_char l) = false).
    { destruct r as [| c r].
      - destruct (unread_nil l W U) as [-> _]. reflexivity.
      - destruct (unread_cons l c r W U) as (-> & _). simpl in Hs.
        rewrite Hs. apply andb_false_r. }
    rewrite C. split; [reflexivity | split; [apply reads_nil, W | exact U]].
  - simpl in U, Hp, Hf. apply andb_prop in Hp as [Hc Hw].
    destruct (unread_cons l c (w ++ r) W U) as (Hcur & E & _ & _ & R & U1).
    rewrite E, Hcur, Hc. simpl.
    destruct (IH f (advance l) r) as (l' & E' & R' & U'); auto;
      [apply R | lia |].
    exists l'. split; [exact E' |]. split; [| exact U'].
    apply (reads_trans _ [c] _ w _ R R').
Qed.

Lemma reads_no_NUL l w l' : wf_lexer l -> reads l w l' -> ~ In NUL w.
Proof.
  intros W (_ & _ & _ & _ & U) H.
  apply (unread_no_NUL l NUL W); [| reflexivity].
  rewrite U. apply in_or_app; auto.
Qed.

Lemma reads_substr l w l' :
  wf_lexer l -> reads l w l' ->
  substr (source l') (pos l) (pos l' - pos l) = w.
Proof.
  intros W R. pose proof (reads_no_NUL l w l' W R) as NN.
  destruct R as (W' & S' & L' & P' & U).
  unfold substr. rewrite S', P'.
  replace (pos l + List.length w - pos l)%nat with (List.length w) by lia.
  assert (E : firstn (List.length w) (skipn (pos l) (source l)) = w).
  { assert (Hle : (pos l + List.length w <= len l)%nat).
    { destruct W' as [(Hle & _) _]. lia. }
    rewrite firstn_skipn_comm.
    replace (firstn (pos l + List.length w) (source l))
      with (firstn (pos l + List.length w) (firstn (len l) (source l)))
      by (rewrite firstn_firstn; f_equal; lia).
    rewrite <- firstn_skipn_comm. fold (unread l). rewrite U.
    rewrite firstn_app, Nat.sub_diag, firstn_all. simpl. apply app_nil_r. }
  rewrite E. apply strdup_no_NUL, NN.
Qed.

(** ** Every call away from the end of the input reads something *)

Lemma ident_start_char c :
  isalpha c || (c =? "_")%char = true -> is_ident_char c = true.
Proof.
  unfold is_ident_char, isalnum. intros H.
  apply orb_true_iff in H as [-> | ->]; [reflexivity | apply orb_true_r].
Qed.

Lemma read_identifier_moves l :
  lexer_inv l -> at_end l = false -> is_ident_char (current_char l) = true ->
  exists t l', read_identifier l = Some (t, l') /\ good_after (advance l) l'.
Proof.
  intros I A C. unfold read_identifier.
  destruct (advance_while_progress is_ident_char l I A C) as (l1 & E & G).
  bind_some E. eauto.
Qed.

Lemma read_number_moves l :
  lexer_inv l -> at_end l = false -> isdigit (current_char l) = true ->
  exists t l', read_number l = Some (t, l') /\ good_after (advance l) l'.
Proof.
  intros I A C. unfold read_number.
  pose proof (advance_inv l I) as I1.
  destruct ((current_char l =? "0")%char
            && ((peek l =? "x")%char || (peek l =? "X")%char)).
  - destruct (advance_while_total isxdigit _ _ (advance_inv _ I1)
                (budget_enough _)) as (l1 & E & G).
    bind_some E. do 2 eexists; split; [reflexivity |].
    eapply good_after_trans; [| exact G]. good.
  - destruct (advance_while_progress isdigit l I A C) as (l1 & E1 & G1).
    bind_some E1.
    destruct (read_fraction_total l1 (proj1 G1)) as (f2 & l2 & E2 & G2).
    bind_some E2.
    destruct (read_exponent_total f2 l2 (proj1 G2)) as (f3 & l3 & E3 & G3).
    bind_some E3. do 2 eexists; split; [reflexivity |].
    eapply good_after_trans; [eassumption |].
    eapply good_after_trans; eassumption.
Qed.

Lemma read_string_moves l :
  lexer_inv l ->
  exists t l', read_string l = Some (t, l') /\ good_after (advance l) l'.
Proof.
  intros I. unfold read_string.
  pose proof (advance_inv l I) as I1.
  destruct (read_string_loop_total _ _ I1 (budget_enough _)) as (l1 & E & G).
  bind_some E.
  destruct (negb (current_char l1 =? dquote)%char);
    do 2 eexists; (split; [reflexivity |]); good.
Qed.

Lemma read_char_moves l :
  lexer_inv l -> good_after (advance l) (snd (read_char l)).
Proof.
  intros I. unfold read_char.
  pose proof (good_after_refl _ (advance_inv l I)) as G1.
  match goal with
  | |- context [let '(v, l0) := ?e in _] =>
      assert (G2 : good_after (advance l) (snd e)); [| destruct e as [v l2]]
  end.
  { destruct (current_char (advance l) =? backslash)%char; simpl; [good |].
    destruct (negb (at_end (advance l))
              && negb (current_char (advance l) =? squote)%char); simpl; good. }
  simpl in G2.
  destruct (negb (current_char l2 =? squote)%char); simpl; good.
Qed.

Lemma read_operator_moves l :
  lexer_inv l -> good_after (advance l) (snd (read_operator l)).
Proof.
  intros I. unfold read_operator.
  pose proof (good_after_refl _ (advance_inv l I)) as G1.
  pose proof (good_after_advance _ _ G1) as G2.
  repeat match goal with
         | |- context [if ?b then _ else _] => destruct b
         end; simpl; assumption.
Qed.

Lemma get_next_token_moves l :
  lexer_inv l -> at_end l = false ->
  exists t l',
    get_next_token l = Some (t, l') /\ good_after l l' /\ (pos l < pos l')%nat.
Proof.
  intros I A. pose proof (not_at_end_lt l I A) as Hlt.
  assert (K : exists t l', get_next_token l = Some (t, l') /\
                           good_after (advance l) l').
  { assert (Hcont : forall l1, good_after (advance l) l1 ->
              exists t l', get_next_token_loop (len l - pos l) l1 = Some (t, l')
                           /\ good_after (advance l) l').
    { intros l1 G1.
      destruct (good_after_step l l1 Hlt G1) as ([I1 F1] & Hp).
      destruct (get_next_token_loop_total (len l - pos l) l1 I1)
        as (t & l' & E & G').
      - destruct F1 as (_ & -> & _); lia.
      - exists t, l'. split; [assumption |].
        eapply good_after_trans; eassumption. }
    unfold get_next_token, budget. cbn [get_next_token_loop].
    rewrite A. cbn [negb].
    destruct (isspace (current_char l)) eqn:Hsp.
    { destruct (advance_while_progress isspace l I A Hsp) as (l1 & E & G).
      unfold skip_whitespace. bind_some E. apply Hcont, G. }
    destruct ((current_char l =? "/")%char && (peek l =? "/")%char).
    { destruct (skip_line_comment_total l I) as (l1 & E & G).
      bind_some E. apply Hcont, G. }
    destruct ((current_char l =? "/")%char && (peek l =? "*")%char).
    { destruct (skip_block_comment_total l I) as (l1 & E & G).
      bind_some E. apply Hcont, G. }
    destruct (isalpha (current_char l) || (current_char l =? "_")%char) eqn:Hid.
    { apply read_identifier_moves; auto using ident_start_char. }
    destruct (isdigit (current_char l)) eqn:Hd.
    { apply read_number_moves; assumption. }
    destruct (current_char l =? dquote)%char.
    { apply read_string_moves, I. }
    destruct (current_char l =? squote)%char.
    - pose proof (read_char_moves l I) as G. destruct (read_char l) as [t l'].
      eauto.
    - pose proof (read_operator_moves l I) as G.
      destruct (read_operator l) as [t l']. eauto. }
  destruct K as (t & l' & E & G).
  exists t, l'. split; [exact E |]. apply (good_after_step l l' Hlt G).
Qed.

Lemma good_after_wf l l' : wf_lexer l -> good_after l l' -> wf_lexer l'.
Proof.
  intros [_ L] [I (S' & L' & _)]. split; [exact I |].
  rewrite S', L'. exact L.
Qed.

Lemma at_end_wf l : wf_lexer l -> at_end l = true -> pos l = len l.
Proof.
  intros W A. destruct (unread l) as [| c r] eqn:U.
  - apply (unread_nil l W U).
  - destruct (unread_cons l c r W U) as (_ & A' & _). congruence.
Qed.

Lemma scan_reaches_end_from n :
  forall l, wf_lexer l -> (len l - pos l <= n)%nat ->
  exists k ts l',
    (k <= n)%nat /\ get_tokens k l = Some (ts, l') /\
    wf_lexer l' /\ follows l l' /\ pos l' = len l'.
Proof.
  induction n as [| n IH]; intros l W Hn;
    destruct (at_end l) eqn:A.
  - exists 0%nat, [], l.
    repeat split; auto using follows_refl, at_end_wf; apply W.
  - pose proof (not_at_end_lt l (proj1 W) A). lia.
  - exists 0%nat, [], l.
    repeat split; auto using follows_refl, at_end_wf; try apply W. lia.
  - destruct (get_next_token_moves l (proj1 W) A) as (t & l1 & E & G & Hp).
    pose proof (good_after_wf l l1 W G) as W1.
    destruct G as [_ F].
    destruct (IH l1 W1) as (k & ts & l' & Hk & E' & W' & F' & P').
    { destruct F as (_ & -> & _). lia. }
    exists (S k), (t :: ts), l'.
    split; [lia |]. split.
    + cbn [get_tokens]. rewrite E. cbn [bind]. rewrite E'. reflexivity.
    + split; [exact W' |]. split; [| exact P'].
      eapply follows_trans; eassumption.
Qed.

(** For every source the session reaches the end of the input, after at
    most as many calls as the source has characters. *)
Lemma scan_reaches_end src :
  exists k ts l,
    (k <= strlen src)%nat /\
    get_tokens k (create_lexer src) = Some (ts, l) /\
    lexer_inv l /\ pos l = len l.
Proof.
  destruct (scan_reaches_end_from (strlen src) (create_lexer src)
              (create_lexer_wf src)) as (k & ts & l & Hk & E & W & _ & P).
  { simpl. lia. }
  exists k, ts, l. repeat split; try assumption; apply W.
Qed.

(** ** The claims about the scanner *)

Lemma get_tokens_inv n :
  forall l, lexer_inv l ->
  exists ts l', get_tokens n l = Some (ts, l') /\ good_after l l'.
Proof.
  induction n as [| n IH]; intros l I; simpl.
  - do 2 eexists; split; [reflexivity | apply good_after_refl, I].
  - destruct (get_next_token_total l I) as (t & l1 & E1 & G1).
    bind_some E1.
    destruct (IH l1 (proj1 G1)) as (ts & l2 & E2 & G2).
    bind_some E2. do 2 eexists; split; [reflexivity |].
    eapply good_after_trans; eassumption.
Qed.

Lemma get_next_token_at_end l :
  at_end l = true -> get_next_token l = Some (eof_token l, l).
Proof. intros E. unfold get_next_token, budget. simpl. rewrite E. reflexivity. Qed.

(** Decides the invariant on a closed scanner state. *)
Ltac inv_by_computation :=
  unfold lexer_inv; cbn; repeat split;
  first [ lia | intros; reflexivity | intros; exfalso; lia | intros; discriminate ].

(** C8: the scanner invariant.  A state satisfies it when the recorded
    length is the length of the source, the offset is at most that length,
    and the lookahead is the source character at the offset, or NUL when the
    offset is the length.  It holds of the state that [create_lexer] returns
    for any source, which holds that source at offset 0; [advance] preserves
    it; every call of [get_next_token] on a state that satisfies it returns a
    token and a state that satisfies it again, over the same source and not
    before the old offset; hence it holds after any number of calls in a
    session. *)
Theorem scanner_invariant :
  (forall l,
     wf_lexer l <->
     len l = strlen (source l) /\
     (pos l <= strlen (source l))%nat /\
     ((pos l < strlen (source l))%nat ->
      current_char l = char_at (source l) (pos l)) /\
     (pos l = strlen (source l) -> current_char l = NUL)) /\
  (forall src,
     wf_lexer (create_lexer src) /\
     source (create_lexer src) = src /\ pos (create_lexer src) = 0%nat) /\
  (forall l, wf_lexer l -> wf_lexer (advance l) /\ follows l (advance l)) /\
  (forall l, wf_lexer l ->
     exists t l', get_next_token l = Some (t, l') /\
                  wf_lexer l' /\ follows l l') /\
  (forall src n,
     exists ts l, get_tokens n (create_lexer src) = Some (ts, l) /\
                  wf_lexer l /\ follows (create_lexer src) l).
Proof.
  split; [| split; [| split; [| split]]].
  - intros l. unfold wf_lexer, lexer_inv. split.
    + intros [(Hle & Hin & Hend) L]. rewrite <- L. auto.
    + intros (L & Hle & Hin & Hend). rewrite L. auto.
  - intros src. split; [apply create_lexer_wf | split; reflexivity].
  - intros l W. split; [apply advance_wf, W | apply advance_follows].
  - intros l W. destruct (get_next_token_total l (proj1 W)) as (t & l' & E & G).
    exists t, l'. split; [exact E |].
    split; [apply (good_after_wf l l' W G) | apply G].
  - intros src n.
    destruct (get_tokens_inv n _ (create_lexer_inv src)) as (ts & l & E & G).
    exists ts, l. split; [exact E |].
    split; [apply (good_after_wf _ l (create_lexer_wf src) G) | apply G].
Qed.

Lemma scanner_invariant_witness :
  (wf_lexer (advance (create_lexer (lit "x = 1"))) /\
   follows (create_lexer (lit "x = 1")) (advance (create_lexer (lit "x = 1"))))
  /\
  exists t l', get_next_token (create_lexer (lit "x = 1")) = Some (t, l') /\
               wf_lexer l' /\ follows (create_lexer (lit "x = 1")) l'.
Proof.
  assert (W : wf_lexer (create_lexer (lit "x = 1")))
    by (split; [inv_by_computation | reflexivity]).
  split.
  - exact (proj1 (proj2 (proj2 scanner_invariant)) _ W).
  - exact (proj1 (proj2 (proj2 (proj2 scanner_invariant))) _ W).
Defined.

(** C1: once the scanner has reached the end of its input (offset equal to
    the length, in a state that satisfies the invariant), [get_next_token]
    returns the EOF token and leaves the state as it is, so that any number
    of further calls return EOF tokens and the offset never passes the
    length. *)
Theorem eof_idempotent (l : Lexer) :
  lexer_inv l -> pos l = len l ->
  get_next_token l = Some (eof_token l, l) /\
  tok_type (eof_token l) = TOKEN_EOF /\
  forall n, get_tokens n l = Some (repeat (eof_token l) n, l) /\
            (pos l <= len l)%nat.
Proof.
  intros I E. pose proof (at_end_of_input l I E) as A.
  split; [apply get_next_token_at_end, A |].
  split; [reflexivity |].
  intros n. split; [| lia].
  induction n as [| n IH]; simpl; [reflexivity |].
  rewrite (get_next_token_at_end l A). cbn [bind]. rewrite IH. reflexivity.
Qed.

Lemma eof_idempotent_witness :
  exists t l,
    get_next_token (create_lexer (lit "ab")) = Some (t, l) /\
    tok_type t = TOKEN_IDENTIFIER /\
    get_tokens 3 l = Some (repeat (eof_token l) 3%nat, l).
Proof.
  eexists. eexists. split; [vm_compute; reflexivity |].
  split; [reflexivity |].
  refine (proj1 (proj2 (proj2 (eof_idempotent _ _ _)) 3%nat)).
  - inv_by_computation.
  - reflexivity.
Defined.

Lemma nth_skipn_cons {A} (n : nat) (l : list A) (d : A) :
  (n < List.length l)%nat -> skipn n l = nth n l d :: skipn (S n) l.
Proof.
  revert l; induction n as [| n IH]; intros [| a l] H; simpl in *; try lia.
  - reflexivity.
  - apply IH; lia.
Qed.

Lemma char_at_in_source s i : char_at s i <> NUL -> (i < List.length s)%nat.
Proof.
  unfold char_at; intros H.
  destruct (Nat.lt_ge_cases i (List.length s)) as [Hlt | Hge]; [exact Hlt |].
  rewrite nth_overflow in H by exact Hge. congruence.
Qed.

(** C9: when the lookahead is a single quote and the next character is a
    single quote too, [get_next_token] returns a CHAR_CONST token whose
    lexeme is the two quotes and whose character value is NUL, and moves two
    characters on. *)
Theorem empty_char_literal (l : Lexer) :
  lexer_inv l -> current_char l = squote -> peek l = squote ->
  exists l',
    get_next_token l =
      Some ({| tok_type := TOKEN_CHAR_CONST; tok_lexeme := [squote; squote];
               tok_line := line l; tok_column := column l;
               tok_value := char_value NUL |}, l') /\
    pos l' = (pos l + 2)%nat /\ follows l l'.
Proof.
  intros I Hc Hp. pose proof I as (Hle & Hin & Hend).
  unfold peek in Hp.
  destruct (Nat.ltb_spec (pos l + 1) (len l)) as [H1 | H1];
    [| discriminate].
  rewrite Nat.add_1_r in Hp, H1.
  assert (H0 : (pos l < len l)%nat) by lia.
  specialize (Hin H0). rewrite Hc in Hin. symmetry in Hin.
  assert (Hs0 : (pos l < List.length (source l))%nat)
    by (apply char_at_in_source; rewrite Hin; discriminate).
  assert (Hs1 : (S (pos l) < List.length (source l))%nat)
    by (apply char_at_in_source; rewrite Hp; discriminate).
  assert (Hsub : substr (source l) (pos l) 2 = [squote; squote]).
  { unfold substr. rewrite (nth_skipn_cons _ _ NUL Hs0).
    rewrite (nth_skipn_cons _ _ NUL Hs1).
    unfold char_at in Hin, Hp. simpl. rewrite Hin, Hp. reflexivity. }
  (* the state after the opening quote *)
  pose proof (advance_pos l H0) as P1.
  pose proof (advance_follows l) as (S1 & L1 & _).
  assert (C1 : current_char (advance l) = squote).
  { rewrite (advance_char l H0).
    destruct (Nat.ltb_spec (S (pos l)) (len l)); [exact Hp | lia]. }
  (* the state after the closing quote *)
  assert (H1' : (pos (advance l) < len (advance l))%nat) by (rewrite P1, L1; lia).
  pose proof (advance_pos _ H1') as P2.
  pose proof (advance_follows (advance l)) as (S2 & L2 & _).
  unfold get_next_token, budget.
  destruct (len l - pos l)%nat as [| k] eqn:Ek; [lia |].
  cbn [get_next_token_loop]. unfold at_end. rewrite Hc.
  cbn -[read_char].
  unfold read_char. rewrite C1. cbn -[advance substr Nat.sub].
  unfold at_end. rewrite C1. cbn -[advance substr Nat.sub].
  rewrite S2, S1, P2, P1.
  replace (S (S (pos l)) - pos l)%nat with 2%nat by lia.
  rewrite Hsub, C1. cbn -[advance].
  eexists; split; [reflexivity |].
  split; [rewrite P2, P1; lia |].
  unfold follows. rewrite S2, S1, L2, L1, P2, P1. repeat split; lia.
Qed.

Lemma empty_char_literal_witness :
  exists l',
    get_next_token (create_lexer (lit "''")) =
      Some ({| tok_type := TOKEN_CHAR_CONST; tok_lexeme := [squote; squote];
               tok_line := 1; tok_column := 1;
               tok_value := char_value NUL |}, l') /\
    pos l' = 2%nat /\ follows (create_lexer (lit "''")) l'.
Proof.
  apply (empty_char_literal (create_lexer (lit "''"))).
  - inv_by_computation.
  - reflexivity.
  - reflexivity.
Defined.

Lemma skip_block_comment_loop_reads body :
  forall fuel l,
    wf_lexer l -> unread l = body -> has_close body = false ->
    (List.length body < fuel)%nat ->
    exists l', skip_block_comment_loop fuel l = Some l' /\
               reads l body l' /\ unread l' = [].
Proof.
  induction body as [| c r IH]; intros fuel l W U Hc Hf;
    (destruct fuel as [| f]; [simpl in Hf; lia |]);
    cbn [skip_block_comment_loop].
  - destruct (unread_nil l W U) as [-> _]. simpl.
    exists l. split; [reflexivity | split; [apply reads_nil, W | exact U]].
  - destruct (unread_cons l c r W U) as (Hcur & E & Hpk & _ & R & U1).
    simpl in Hc, Hf. apply orb_false_elim in Hc as [Hc1 Hc2].
    rewrite E, Hcur, Hpk, Hc1. cbn [negb].
    destruct (IH f (advance l)) as (l' & E' & R' & U'); auto;
      [apply R | lia |].
    exists l'. split; [exact E' |]. split; [| exact U'].
    apply (reads_trans _ [c] _ r _ R R').
Qed.

Lemma block_comment_to_end fuel (l : Lexer) (body : list ascii) :
  wf_lexer l ->
  unread l = "/"%char :: "*"%char :: body ->
  has_close body = false ->
  (2 <= fuel)%nat ->
  exists l',
    get_next_token_loop fuel l = Some (eof_token l', l') /\
    reads l ("/"%char :: "*"%char :: body) l' /\
    pos l' = len l'.
Proof.
  intros W U Hc Hf.
  destruct (unread_cons l _ _ W U) as (Hcur & E & Hpk & Hlt & R1 & U1).
  pose proof R1 as (W1 & _).
  destruct (unread_cons _ _ _ W1 U1) as (_ & _ & _ & _ & R2 & U2).
  pose proof R2 as (W2 & _).
  destruct (skip_block_comment_loop_reads body (budget (advance (advance l)))
              (advance (advance l)) W2 U2 Hc) as (l' & E' & R' & U').
  { apply (unread_budget _ body []); [exact W2 | rewrite app_nil_r; exact U2]. }
  pose proof R' as (W' & _).
  destruct (unread_nil l' W' U') as (A' & P').
  exists l'. split; [| split; [| exact P']].
  - destruct fuel as [| [| k]]; try lia.
    cbn [get_next_token_loop]. rewrite E, Hcur, Hpk.
    cbn -[skip_block_comment get_next_token_loop].
    unfold skip_block_comment. rewrite E'. cbn [bind].
    rewrite A'. reflexivity.
  - apply (reads_trans _ ["/"%char] _ ("*"%char :: body) _ R1).
    apply (reads_trans _ ["*"%char] _ body _ R2 R').
Qed.


(** Settles a statement about one character by trying all 256 of them. *)
Ltac by_cases_on_char c :=
  destruct c as [[|] [|] [|] [|] [|] [|] [|] [|]];
  try reflexivity; try discriminate; try (intros; discriminate).

Lemma digit_dispatch c :
  isdigit c = true ->
  isspace c = false /\ (c =? "/")%char = false /\
  (isalpha c || (c =? "_")%char) = false /\
  (c =? "x")%char || (c =? "X")%char = false.
Proof. revert c. intros c. by_cases_on_char c; intros _; repeat split. Qed.

Lemma stops_hd p r : p NUL = false -> stops p r -> p (hd NUL r) = false.
Proof. intros H0 H; destruct r; simpl; assumption. Qed.

Lemma create_token_no_NUL ty s ln col :
  ~ In NUL s ->
  create_token ty s ln col =
    {| tok_type := ty; tok_lexeme := s; tok_line := ln; tok_column := col;
       tok_value := value_unset |}.
Proof. intros H. unfold create_token. rewrite (strdup_no_NUL s H). reflexivity. Qed.

Lemma decimal_digits_then_dot (l : Lexer) (ds r : list ascii) :
  wf_lexer l ->
  unread l = ds ++ "."%char :: r ->
  ds <> [] -> forallb isdigit ds = true -> stops isdigit r ->
  exists l1,
    read_number l =
      Some ({| tok_type := TOKEN_INT_CONST; tok_lexeme := ds;
               tok_line := line l; tok_column := column l;
               tok_value := int_value (atoll ds) |}, l1) /\
    reads l ds l1 /\ unread l1 = "."%char :: r.
Proof.
  intros W U Hne Hd Hs.
  destruct (advance_while_reads isdigit ds (budget l) l ("."%char :: r)
              W U Hd eq_refl (unread_budget l _ _ W U))
    as (l1 & E1 & R1 & U1).
  pose proof R1 as (W1 & _).
  destruct (unread_cons l1 _ _ W1 U1) as (Hcur1 & _ & Hpk1 & _).
  exists l1. split; [| split; assumption].
  destruct ds as [| d ds]; [congruence |]. clear Hne.
  simpl in U. destruct (unread_cons l _ _ W U) as (Hcur & _ & Hpk & _).
  assert (Hx : (peek l =? "x")%char || (peek l =? "X")%char = false).
  { rewrite Hpk. simpl in Hd. apply andb_prop in Hd as [_ Hd].
    destruct ds as [| d' ds]; simpl; [reflexivity |].
    simpl in Hd. apply andb_prop in Hd as [Hd' _].
    apply (digit_dispatch d' Hd'). }
  unfold read_number. rewrite Hx, andb_false_r, E1. cbn [bind].
  unfold read_fraction. rewrite Hcur1, Hpk1, (stops_hd isdigit r eq_refl Hs).
  cbn [Ascii.eqb Bool.eqb andb bind].
  unfold read_exponent. rewrite Hcur1.
  cbn [Ascii.eqb Bool.eqb orb bind].
  unfold number_token. rewrite (reads_substr l _ l1 W R1).
  rewrite (create_token_no_NUL _ _ _ _ (reads_no_NUL l _ l1 W R1)).
  reflexivity.
Qed.

(** C6: in a decimal number the dot is taken into the token only when a
    digit follows it.  When a run of digits is followed by a dot that is not
    followed by a digit, [get_next_token] returns an INT_CONST token for the
    digits and leaves the dot unread, and the next call returns an ERROR
    token for the illegal character and reads the dot.  On the input "5."
    the two tokens are INT_CONST "5" with value 5 and the ERROR token. *)
Theorem dangling_dot :
  (forall (l : Lexer) (ds r : list ascii),
     wf_lexer l ->
     unread l = ds ++ "."%char :: r ->
     ds <> [] -> forallb isdigit ds = true -> stops isdigit r ->
     exists l1 l2,
       get_next_token l =
         Some ({| tok_type := TOKEN_INT_CONST; tok_lexeme := ds;
                  tok_line := line l; tok_column := column l;
                  tok_value := int_value (atoll ds) |}, l1) /\
       reads l ds l1 /\ unread l1 = "."%char :: r /\
       get_next_token l1 =
         Some ({| tok_type := TOKEN_ERROR;
                  tok_lexeme := illegal_char_msg ".";
                  tok_line := line l1; tok_column := column l1;
                  tok_value := value_unset |}, l2) /\
       reads l1 ["."%char] l2) /\
  (exists l2,
     get_tokens 2 (create_lexer (lit "5.")) =
       Some ([ {| tok_type := TOKEN_INT_CONST; tok_lexeme := lit "5";
                  tok_line := 1; tok_column := 1;
                  tok_value := int_value 5 |};
               {| tok_type := TOKEN_ERROR;
                  tok_lexeme := lit "非法字符: '.'";
                  tok_line := 1; tok_column := 2;
                  tok_value := value_unset |} ], l2) /\
     pos l2 = 2%nat).
Proof.
  split.
  - intros l ds r W U Hne Hd Hs.
    destruct (decimal_digits_then_dot l ds r W U Hne Hd Hs)
      as (l1 & E1 & R1 & U1).
    pose proof R1 as (W1 & _).
    destruct (unread_cons l1 _ _ W1 U1) as (Hcur1 & A1 & _ & _ & R2 & _).
    exists l1, (advance l1).
    refine (conj _ (conj R1 (conj U1 (conj _ R2)))).
    + destruct ds as [| d ds]; [congruence |].
      simpl in U, Hd. apply andb_prop in Hd as [Hd _].
      destruct (unread_cons l _ _ W U) as (Hcur & A & _).
      destruct (digit_dispatch d Hd) as (D1 & D2 & D3 & _).
      unfold get_next_token, budget. cbn [get_next_token_loop].
      rewrite A, Hcur, D1, D2, D3, Hd. cbn [negb andb]. exact E1.
    + unfold get_next_token, budget. cbn [get_next_token_loop].
      rewrite A1, Hcur1. cbn -[read_operator].
      unfold read_operator. rewrite Hcur1. cbn -[advance]. reflexivity.
  - eexists. split; [vm_compute; reflexivity | reflexivity].
Qed.

Lemma dangling_dot_witness :
  exists l1 l2,
    get_next_token (create_lexer (lit "12.x")) =
      Some ({| tok_type := TOKEN_INT_CONST; tok_lexeme := lit "12";
               tok_line := 1; tok_column := 1;
               tok_value := int_value 12 |}, l1) /\
    reads (create_lexer (lit "12.x")) (lit "12") l1 /\
    unread l1 = lit ".x" /\
    get_next_token l1 =
      Some ({| tok_type := TOKEN_ERROR;
               tok_lexeme := illegal_char_msg ".";
               tok_line := line l1; tok_column := column l1;
               tok_value := value_unset |}, l2) /\
    reads l1 ["."%char] l2.
Proof.
  apply (proj1 dangling_dot (create_lexer (lit "12.x")) (lit "12") (lit "x")).
  - split; [inv_by_computation | reflexivity].
  - reflexivity.
  - discriminate.
  - reflexivity.
  - reflexivity.
Defined.

Lemma xdigit_value c :
  isxdigit c = true ->
  digit_value c = Some (hex_digit c) /\ 0 <= hex_digit c < 16 /\
  isspace c = false.
Proof.
  revert c. intros c.
  by_cases_on_char c; intros _; repeat split; try discriminate; reflexivity.
Qed.

Lemma strtoll_digits_hex hs :
  forallb isxdigit hs = true ->
  forall acc,
    strtoll_digits 16 acc hs =
      fold_left (fun a c => 16 * a + hex_digit c) hs acc.
Proof.
  induction hs as [| h hs IH]; intros H acc; cbn [strtoll_digits fold_left];
    [reflexivity |].
  simpl in H. apply andb_prop in H as [Hh Hs].
  destruct (xdigit_value h Hh) as (-> & Hr & _).
  destruct (Z.ltb_spec (hex_digit h) 16); [| lia].
  rewrite (IH Hs). f_equal. lia.
Qed.

Lemma fold_hex_nonneg hs :
  forallb isxdigit hs = true ->
  forall acc, 0 <= acc ->
    0 <= fold_left (fun a c => 16 * a + hex_digit c) hs acc.
Proof.
  induction hs as [| h hs IH]; intros H acc Hacc; cbn [fold_left];
    [exact Hacc |].
  simpl in H. apply andb_prop in H as [Hh Hs].
  destruct (xdigit_value h Hh) as (_ & Hr & _).
  apply (IH Hs). lia.
Qed.

Lemma clamp_nonneg v : 0 <= v -> clamp_llong v = Z.min v LLONG_MAX.
Proof.
  intros H. unfold clamp_llong, LLONG_MIN, LLONG_MAX.
  destruct (Z.gtb_spec v (2 ^ 63 - 1)); [lia |].
  destruct (Z.ltb_spec v (- 2 ^ 63)); lia.
Qed.

(** What [strtoll] makes of the lexeme of a hexadecimal literal. *)
Lemma strtoll_hex_lexeme x hs :
  x = "x"%char \/ x = "X"%char ->
  forallb isxdigit hs = true ->
  strtoll ("0"%char :: x :: hs) 16 = Z.min (base16_value hs) LLONG_MAX.
Proof.
  intros Hx Hs.
  assert (E : strtoll ("0"%char :: x :: hs) 16 =
              clamp_llong (strtoll_digits 16 0
                             (strip_hex_prefix ("0"%char :: x :: hs))))
    by reflexivity.
  rewrite E. clear E.
  assert (D : strtoll_digits 16 0 (strip_hex_prefix ("0"%char :: x :: hs))
              = base16_value hs).
  { destruct hs as [| h hs].
    - destruct Hx as [-> | ->]; reflexivity.
    - unfold strip_hex_prefix, has_digit.
      pose proof Hs as Hs'. simpl in Hs'. apply andb_prop in Hs' as [Hh _].
      destruct (xdigit_value h Hh) as (-> & Hr & _).
      destruct (Z.ltb_spec (hex_digit h) 16); [| lia].
      replace ((x =? "x")%char || (x =? "X")%char) with true
        by (destruct Hx as [-> | ->]; reflexivity).
      cbn [Ascii.eqb Bool.eqb andb].
      apply (strtoll_digits_hex (h :: hs) Hs). }
  rewrite D. apply clamp_nonneg.
  apply (fold_hex_nonneg hs Hs). lia.
Qed.

(** C7, as the code has it: a number that starts with 0x or 0X is read as a
    hexadecimal integer only.  The token is INT_CONST, its lexeme is the
    prefix and the hexadecimal digits, and nothing after the digits is read:
    no dot, no exponent.  Its value is the base-16 value of the digits when
    that is at most LLONG_MAX, and LLONG_MAX otherwise.  Scanning "0x1A2B"
    gives INT_CONST with value 6699. *)
Theorem hex_literal :
  (forall (l : Lexer) (x : ascii) (hs r : list ascii),
     wf_lexer l ->
     unread l = "0"%char :: x :: hs ++ r ->
     x = "x"%char \/ x = "X"%char ->
     forallb isxdigit hs = true -> stops isxdigit r ->
     exists l1,
       get_next_token l =
         Some ({| tok_type := TOKEN_INT_CONST;
                  tok_lexeme := "0"%char :: x :: hs;
                  tok_line := line l; tok_column := column l;
                  tok_value :=
                    int_value (Z.min (base16_value hs) LLONG_MAX) |}, l1) /\
       reads l ("0"%char :: x :: hs) l1 /\ unread l1 = r) /\
  (exists l1,
     get_next_token (create_lexer (lit "0x1A2B")) =
       Some ({| tok_type := TOKEN_INT_CONST; tok_lexeme := lit "0x1A2B";
                tok_line := 1; tok_column := 1;
                tok_value := int_value 6699 |}, l1) /\
     pos l1 = 6%nat).
Proof.
  split.
  - intros l x hs r W U Hx Hs Hr.
    destruct (unread_cons l _ _ W U) as (Hcur & A & Hpk & _ & R1 & U1).
    pose proof R1 as (W1 & _).
    destruct (unread_cons _ _ _ W1 U1) as (_ & _ & _ & _ & R2 & U2).
    pose proof R2 as (W2 & _).
    destruct (advance_while_reads isxdigit hs (budget (advance (advance l)))
                (advance (advance l)) r W2 U2 Hs Hr
                (unread_budget _ _ _ W2 U2))
      as (l1 & E1 & R3 & U3).
    assert (R : reads l ("0"%char :: x :: hs) l1).
    { apply (reads_trans _ ["0"%char] _ (x :: hs) _ R1).
      apply (reads_trans _ [x] _ hs _ R2 R3). }
    exists l1. refine (conj _ (conj R U3)).
    unfold get_next_token, budget. cbn [get_next_token_loop].
    rewrite A, Hcur. cbn -[read_number].
    unfold read_number. rewrite Hcur, Hpk. cbn [hd].
    replace ((x =? "x")%char || (x =? "X")%char) with true
      by (destruct Hx as [-> | ->]; reflexivity).
    cbn [Ascii.eqb Bool.eqb andb]. rewrite E1. cbn [bind].
    unfold number_token. rewrite (reads_substr l _ l1 W R).
    rewrite (create_token_no_NUL _ _ _ _ (reads_no_NUL l _ l1 W R)).
    rewrite (strtoll_hex_lexeme x hs Hx Hs). reflexivity.
  - eexists. split; [vm_compute; reflexivity | reflexivity].
Qed.

Lemma hex_literal_witness :
  exists l1,
    get_next_token (create_lexer (lit "0Xff.5")) =
      Some ({| tok_type := TOKEN_INT_CONST; tok_lexeme := lit "0Xff";
               tok_line := 1; tok_column := 1;
               tok_value := int_value 255 |}, l1) /\
    reads (create_lexer (lit "0Xff.5")) (lit "0Xff") l1 /\
    unread l1 = lit ".5".
Proof.
  apply (proj1 hex_literal (create_lexer (lit "0Xff.5")) "X"%char
           (lit "ff") (lit ".5")).
  - split; [inv_by_computation | reflexivity].
  - reflexivity.
  - right; reflexivity.
  - reflexivity.
  - reflexivity.
Defined.

(** C7 as it is stated fails on seventeen hexadecimal digits: the value of
    the token is LLONG_MAX, not the base-16 value of the digits. *)
Lemma hex_literal_saturates :
  exists t l1,
    get_next_token (create_lexer (lit "0xFFFFFFFFFFFFFFFFF")) = Some (t, l1) /\
    tok_type t = TOKEN_INT_CONST /\
    tok_value t = int_value 9223372036854775807 /\
    base16_value (lit "FFFFFFFFFFFFFFFFF") = 295147905179352825855 /\
    tok_value t <> int_value (base16_value (lit "FFFFFFFFFFFFFFFFF")).
Proof.
  eexists. eexists. split; [vm_compute; reflexivity |].
  split; [reflexivity |]. split; [reflexivity |]. split; [reflexivity |].
  vm_compute. discriminate.
Qed.

(** * Properties of the automata *)

(** ** epsilon_closure *)

Lemma grows_refl a : grows a a.
Proof. split; [exists []; symmetry; apply app_nil_r | lia]. Qed.

Lemma grows_trans a b c : grows a b -> grows b c -> grows a c.
Proof.
  intros [[e1 ->] L1] [[e2 ->] L2]. split.
  - exists (e1 ++ e2). symmetry; apply app_assoc.
  - rewrite !length_app in *. lia.
Qed.

Lemma grows_length a b : grows a b -> (List.length a <= List.length b)%nat.
Proof. intros [[e ->] _]. rewrite length_app. lia. Qed.

Lemma grows_same_length a b :
  grows a b -> (List.length b <= List.length a)%nat -> b = a.
Proof.
  intros [[e ->] _] H. rewrite length_app in H.
  destruct e; [apply app_nil_r | simpl in H; lia].
Qed.

Lemma grows_capacity a b :
  grows a b ->
  Nat.max (Z.to_nat MAX_STATES) (List.length b)
  = Nat.max (Z.to_nat MAX_STATES) (List.length a).
Proof. intros G. pose proof (grows_length a b G). destruct G as [_ L]. lia. Qed.

Lemma state_set_add_grows set state : grows set (state_set_add set state).
Proof.
  unfold state_set_add.
  destruct (negb (state_set_contains set state)); cbn [andb];
    [| apply grows_refl].
  unfold count. destruct (Z.ltb_spec (Z.of_nat (List.length set)) MAX_STATES);
    [| apply grows_refl].
  split; [eexists; reflexivity |].
  rewrite length_app. cbn [List.length]. unfold MAX_STATES in *. lia.
Qed.

Section Closure.

Variable nfa : NFA.

Lemma add_targets_grows state sym set :
  grows set (add_targets nfa state sym set).
Proof.
  unfold add_targets. revert set.
  induction (nfa_transitions nfa) as [| t ts IH]; intros set; simpl;
    [apply grows_refl |].
  eapply grows_trans; [| apply IH].
  destruct ((from_state t =? state) && (symbol t =? sym));
    [apply state_set_add_grows | apply grows_refl].
Qed.

Lemma closure_scan_total fuel :
  forall i closure,
    (Nat.max (Z.to_nat MAX_STATES) (List.length closure) - i < fuel)%nat ->
    exists c, closure_scan fuel nfa i closure = Some c /\ grows closure c.
Proof.
  induction fuel as [| f IH]; intros i closure Hf; [lia |].
  cbn [closure_scan]. destruct (Nat.ltb_spec i (List.length closure)) as [Hlt | Hge].
  - pose proof (add_targets_grows (nth i closure 0) EPSILON closure) as G.
    destruct (IH (S i) (add_targets nfa (nth i closure 0) EPSILON closure))
      as (c & E & G').
    + rewrite (grows_capacity _ _ G). lia.
    + exists c. split; [exact E | eapply grows_trans; eassumption].
  - exists closure. split; [reflexivity | apply grows_refl].
Qed.

Lemma scan_fuel_enough closure :
  (Nat.max (Z.to_nat MAX_STATES) (List.length closure) - 0 < scan_fuel closure)%nat.
Proof. unfold scan_fuel. lia. Qed.

Lemma closure_loop_total fuel :
  forall closure,
    (Nat.max (Z.to_nat MAX_STATES) (List.length closure)
       - List.length closure < fuel)%nat ->
    exists c, closure_loop fuel nfa closure = Some c /\
              grows closure c /\ scan_stable nfa c.
Proof.
  induction fuel as [| f IH]; intros closure Hf; [lia |].
  cbn [closure_loop].
  destruct (closure_scan_total _ 0 closure (scan_fuel_enough closure))
    as (c1 & E1 & G1).
  rewrite E1. cbn [bind]. unfold count.
  destruct (Z.gtb_spec (Z.of_nat (List.length c1))
                       (Z.of_nat (List.length closure))) as [Hgt | Hle].
  - destruct (IH c1) as (c & E & G & St).
    + rewrite (grows_capacity _ _ G1). destruct G1 as [_ L]. lia.
    + exists c. split; [exact E |]. split; [| exact St].
      eapply grows_trans; eassumption.
  - assert (c1 = closure) by (apply grows_same_length; [exact G1 | lia]).
    subst c1. exists closure.
    split; [reflexivity |]. split; [apply grows_refl | exact E1].
Qed.

Lemma epsilon_closure_stable c :
  scan_stable nfa c -> epsilon_closure nfa c = Some c.
Proof.
  intros St. unfold epsilon_closure. cbn [closure_loop].
  unfold scan_stable in St. rewrite St. cbn [bind].
  destruct (Z.gtb_spec (count c) (count c)); [lia | reflexivity].
Qed.

End Closure.

Lemma state_set_contains_In set state :
  state_set_contains set state = true <-> In state set.
Proof.
  unfold state_set_contains. rewrite existsb_exists. split.
  - intros (x & Hin & E). apply Z.eqb_eq in E. subst. exact Hin.
  - intros H. exists state. split; [exact H | apply Z.eqb_refl].
Qed.

(** C10: for every NFA and every state set, [epsilon_closure] returns a set
    that contains every state of the argument, and applied to its own result
    it returns that result again: the same states, hence the same set. *)
Theorem epsilon_closure_extensive_idempotent (nfa : NFA) (states : StateSet) :
  exists closure,
    epsilon_closure nfa states = Some closure /\
    forallb (state_set_contains closure) states = true /\
    epsilon_closure nfa closure = Some closure /\
    state_set_equal closure closure = true.
Proof.
  destruct (closure_loop_total nfa (S (S (Z.to_nat MAX_STATES))) states)
    as (c & E & [[extra ->] _] & St); [lia |].
  exists (states ++ extra). split; [exact E |].
  split; [| split; [apply (epsilon_closure_stable nfa), St |]].
  - apply forallb_forall. intros s H.
    apply state_set_contains_In, in_or_app; auto.
  - unfold state_set_equal. rewrite Z.eqb_refl. cbn [negb].
    apply forallb_forall. intros x Hx. apply state_set_contains_In, Hx.
Qed.

(** ** Running DFAs *)

Lemma all_chars_complete c : In c all_chars.
Proof.
  unfold all_chars. rewrite <- (ascii_nat_embedding c).
  apply in_map, in_seq. pose proof (nat_ascii_bounded c). lia.
Qed.

Lemma bisimulation_sound d1 d2 R :
  bisimulation d1 d2 R = true ->
  forall w s1 s2, In (s1, s2) R -> dfa_run d1 s1 w = dfa_run d2 s2 w.
Proof.
  intros B. unfold bisimulation in B. rewrite forallb_forall in B.
  induction w as [| c w IH]; intros s1 s2 Hin;
    specialize (B _ Hin) as B'; cbn beta iota in B';
    apply andb_prop in B' as [Bf Bt].
  - simpl. apply eqb_prop, Bf.
  - rewrite forallb_forall in Bt.
    specialize (Bt c (all_chars_complete c)). cbv zeta in Bt.
    cbn [dfa_run].
    destruct (table_get (transition d1) s1 (char_to_int c) =? -1) eqn:E1.
    + rewrite Bt. reflexivity.
    + apply andb_prop in Bt as [E2 Ex]. apply negb_true_iff in E2.
      rewrite E2. apply existsb_exists in Ex as ([a b] & Hab & Eab).
      apply andb_prop in Eab as [Ea Eb].
      apply Z.eqb_eq in Ea, Eb. subst. apply IH, Hab.
Qed.

Lemma bisimulation_same_language d1 d2 R :
  bisimulation d1 d2 R = true ->
  In (start_state d1, start_state d2) R ->
  same_language d1 d2.
Proof. intros B Hin w. apply (bisimulation_sound d1 d2 R B w _ _ Hin). Qed.

(** ** The identifier DFA *)

Lemma identifier_shape_language d :
  identifier_shape d = true ->
  forall w, dfa_accepts d w = matches_identifier w.
Proof.
  unfold identifier_shape. intros H.
  repeat (apply andb_prop in H as [H ?]).
  match goal with K : forallb _ all_chars = true |- _ =>
    rewrite forallb_forall in K; rename K into Hstep end.
  match goal with K : (start_state d =? 0) = true |- _ =>
    apply Z.eqb_eq in K; rename K into Hstart end.
  match goal with K : negb _ = true |- _ =>
    apply negb_true_iff in K; rename K into Hf0 end.
  match goal with K : array_get (final_states d) 1 false = true |- _ =>
    rename K into Hf1 end.
  assert (Hrun1 : forall w, dfa_run d 1 w = forallb is_letter_or_digit w).
  { induction w as [| c w IH]; cbn [dfa_run forallb]; [exact Hf1 |].
    destruct (proj1 (andb_true_iff _ _) (Hstep c (all_chars_complete c)))
      as [_ E1].
    apply Z.eqb_eq in E1. rewrite E1.
    destruct (is_letter_or_digit c); simpl; [exact IH | reflexivity]. }
  intros [| c w]; unfold dfa_accepts; rewrite Hstart; cbn [dfa_run];
    [exact Hf0 |].
  destruct (proj1 (andb_true_iff _ _) (Hstep c (all_chars_complete c)))
    as [E0 _].
  apply Z.eqb_eq in E0. rewrite E0. unfold matches_identifier.
  destruct (is_letter c); simpl; [apply Hrun1 | reflexivity].
Qed.

(** C2: [nfa_to_dfa] succeeds on the identifier NFA, and the DFA it returns,
    run from its start state over its table, accepts a word exactly when the
    word matches [[A-Za-z_][A-Za-z_0-9]*]: it is not empty, begins with a
    letter or an underscore and goes on with letters, digits and
    underscores.  Both sides are decided, and they agree on every word. *)
Theorem identifier_dfa_language :
  exists d,
    nfa_to_dfa create_nfa_for_identifier = Some d /\
    forall w, dfa_accepts d w = matches_identifier w.
Proof.
  destruct (nfa_to_dfa create_nfa_for_identifier) as [d |] eqn:E.
  - exists d. split; [reflexivity |].
    apply (identifier_shape_language d).
    assert (K : match nfa_to_dfa create_nfa_for_identifier with
                | Some d => identifier_shape d
                | None => false
                end = true) by (vm_compute; reflexivity).
    rewrite E in K. exact K.
  - exfalso.
    assert (K : match nfa_to_dfa create_nfa_for_identifier with
                | Some _ => true
                | None => false
                end = true) by (vm_compute; reflexivity).
    rewrite E in K. discriminate.
Qed.

(** The minimiser leaves the identifier DFA with its two states and its
    language. *)
Lemma identifier_dfa_minimized :
  exists d m,
    nfa_to_dfa create_nfa_for_identifier = Some d /\
    minimize_dfa d = Some m /\
    num_states m = 2 /\ num_states d = 2 /\ same_language m d.
Proof.
  destruct (nfa_to_dfa create_nfa_for_identifier) as [d |] eqn:E;
    [| exfalso;
       assert (K : match nfa_to_dfa create_nfa_for_identifier with
                   | Some _ => true | None => false end = true)
         by (vm_compute; reflexivity);
       rewrite E in K; discriminate].
  assert (K : match nfa_to_dfa create_nfa_for_identifier with
              | Some d =>
                  match minimize_dfa d with
                  | Some m =>
                      (num_states m =? 2) && (num_states d =? 2)
                      && (start_state m =? 0) && (start_state d =? 0)
                      && bisimulation m d [(0, 0); (1, 1)]
                  | None => false
                  end
              | None => false
              end = true) by (vm_compute; reflexivity).
  rewrite E in K. destruct (minimize_dfa d) as [m |] eqn:Em; [| discriminate].
  repeat (apply andb_prop in K as [K ?]).
  exists d, m. repeat split; try assumption;
    try (apply Z.eqb_eq; assumption).
  apply (bisimulation_same_language m d [(0, 0); (1, 1)]); [assumption |].
  replace (start_state m) with 0 by (symmetry; apply Z.eqb_eq; assumption).
  replace (start_state d) with 0 by (symmetry; apply Z.eqb_eq; assumption).
  left; reflexivity.
Qed.

(** ** The minimiser *)

Lemma minimize_dfa_alphabet d m :
  minimize_dfa d = Some m -> alphabet m = alphabet d.
Proof.
  unfold minimize_dfa. intros Em.
  destruct (refine_loop _ _ _ _) as [[? ?] |]; [| discriminate].
  cbn [bind] in Em.
  destruct (fold_opt _ _ _) as [[? ?] |]; [| discriminate].
  inversion Em. reflexivity.
Qed.

(** C3 fails on the DFA with one accepting state and a loop on [a]: it is
    well formed and has one state, and [minimize_dfa] returns a DFA with two
    states for the same language.  The result is neither the smallest DFA of
    the language nor at most as large as the input. *)
Theorem minimize_adds_a_state :
  exists d m,
    dfa_a_star = Some d /\ dfa_wf d = true /\
    minimize_dfa d = Some m /\
    alphabet m = alphabet d /\ same_language m d /\
    num_states d = 1 /\ num_states m = 2.
Proof.
  destruct dfa_a_star as [d |] eqn:E; [| discriminate E].
  assert (K : match dfa_a_star with
              | Some d =>
                  match minimize_dfa d with
                  | Some m =>
                      dfa_wf d && (num_states d =? 1) && (num_states m =? 2)
                      && (start_state m =? 1) && (start_state d =? 0)
                      && bisimulation m d [(1, 0)]
                  | None => false
                  end
              | None => false
              end = true) by (vm_compute; reflexivity).
  rewrite E in K. destruct (minimize_dfa d) as [m |] eqn:Em; [| discriminate].
  apply andb_prop in K as [K HB]. apply andb_prop in K as [K Hsd].
  apply andb_prop in K as [K Hsm]. apply andb_prop in K as [K Hnm].
  apply andb_prop in K as [K Hnd].
  apply Z.eqb_eq in Hsd, Hsm, Hnm, Hnd.
  exists d, m.
  refine (conj eq_refl (conj K (conj Em (conj _ (conj _ (conj Hnd Hnm)))))).
  - apply (minimize_dfa_alphabet d m Em).
  - apply (bisimulation_same_language m d [(1, 0)] HB).
    rewrite Hsm, Hsd. left; reflexivity.
Qed.

(** The minimiser also keeps equivalent states apart: the two dead states of
    [dfa_two_dead] stay two states, although the DFA with one dead state
    accepts the same language. *)
Lemma minimize_keeps_equivalent_states :
  exists d m d',
    dfa_two_dead = Some d /\ dfa_wf d = true /\
    minimize_dfa d = Some m /\ num_states m = 4 /\
    dfa_one_dead = Some d' /\ dfa_wf d' = true /\
    num_states d' = 3 /\ same_language d' m.
Proof.
  destruct dfa_two_dead as [d |] eqn:E; [| discriminate E].
  destruct dfa_one_dead as [d' |] eqn:E'; [| discriminate E'].
  assert (K : match dfa_two_dead, dfa_one_dead with
              | Some d, Some d' =>
                  match minimize_dfa d with
                  | Some m =>
                      dfa_wf d && dfa_wf d'
                      && (num_states m =? 4) && (num_states d' =? 3)
                      && (start_state d' =? 0) && (start_state m =? 0)
                      && bisimulation d' m [(0, 0); (1, 2); (1, 3); (2, 1)]
                  | None => false
                  end
              | _, _ => false
              end = true) by (vm_compute; reflexivity).
  rewrite E, E' in K.
  destruct (minimize_dfa d) as [m |] eqn:Em; [| discriminate].
  apply andb_prop in K as [K HB]. apply andb_prop in K as [K Hsm].
  apply andb_prop in K as [K Hsd]. apply andb_prop in K as [K Hnd].
  apply andb_prop in K as [K Hnm]. apply andb_prop in K as [Hw Hw'].
  apply Z.eqb_eq in Hsd, Hsm, Hnm, Hnd.
  exists d, m, d'.
  refine (conj eq_refl (conj Hw (conj Em (conj Hnm
            (conj eq_refl (conj Hw' (conj Hnd _))))))).
  apply (bisimulation_same_language d' m [(0, 0); (1, 2); (1, 3); (2, 1)] HB).
  rewrite Hsm, Hsd. left; reflexivity.
Qed.

(** C4 fails on the DFA with one state that is not accepting and has a loop
    on [a]: it is well formed, [minimize_dfa] returns a well-formed DFA with
    two states, and [minimize_dfa] of that has three. *)
Theorem minimize_twice_grows :
  exists d m1 m2,
    dfa_a_loop = Some d /\ dfa_wf d = true /\
    minimize_dfa d = Some m1 /\ dfa_wf m1 = true /\
    minimize_dfa m1 = Some m2 /\
    num_states m1 = 2 /\ num_states m2 = 3.
Proof.
  destruct dfa_a_loop as [d |] eqn:E; [| discriminate E].
  assert (K : match dfa_a_loop with
              | Some d =>
                  match minimize_dfa d with
                  | Some m1 =>
                      match minimize_dfa m1 with
                      | Some m2 =>
                          dfa_wf d && dfa_wf m1
                          && (num_states m1 =? 2) && (num_states m2 =? 3)
                      | None => false
                      end
                  | None => false
                  end
              | None => false
              end = true) by (vm_compute; reflexivity).
  rewrite E in K.
  destruct (minimize_dfa d) as [m1 |] eqn:E1; [| discriminate].
  destruct (minimize_dfa m1) as [m2 |] eqn:E2; [| discriminate].
  apply andb_prop in K as [K Hn2]. apply andb_prop in K as [K Hn1].
  apply andb_prop in K as [Hw Hw1].
  apply Z.eqb_eq in Hn1, Hn2.
  exists d, m1, m2.
  exact (conj eq_refl (conj Hw (conj E1 (conj Hw1
           (conj E2 (conj Hn1 Hn2)))))).
Qed.

(** * The embedding at work

    The scanner and the automata run inside Rocq.  These checks follow the
    examples of the specification and of [test_input.c]. *)

Example scan_maximal_munch :
  scan 3 "123abc"
  = Some [(TOKEN_INT_CONST, "123"); (TOKEN_IDENTIFIER, "abc"); (TOKEN_EOF, EmptyString)]%string.
Proof. vm_compute. reflexivity. Qed.

Example scan_keyword_prefix :
  scan 3 "returning return"
  = Some [(TOKEN_IDENTIFIER, "returning"); (TOKEN_RETURN, "return");
          (TOKEN_EOF, EmptyString)]%string.
Proof. vm_compute. reflexivity. Qed.

Example scan_two_character_operator :
  scan 4 "a<=b"
  = Some [(TOKEN_IDENTIFIER, "a"); (TOKEN_LE, "<="); (TOKEN_IDENTIFIER, "b");
          (TOKEN_EOF, EmptyString)]%string.
Proof. vm_compute. reflexivity. Qed.

Example scan_scientific_notation :
  scan 2 "1.23e-5" = Some [(TOKEN_DOUBLE_CONST, "1.23e-5"); (TOKEN_EOF, EmptyString)]%string.
Proof. vm_compute. reflexivity. Qed.

Example scan_comments :
  scan 3 "x // one
/* two */ y"
  = Some [(TOKEN_IDENTIFIER, "x"); (TOKEN_IDENTIFIER, "y"); (TOKEN_EOF, EmptyString)]%string.
Proof. vm_compute. reflexivity. Qed.

Example scan_unterminated_string :
  scan_text 3 (lit "s = " ++ [dquote] ++ lit "Hello")
  = Some [(TOKEN_IDENTIFIER, "s"); (TOKEN_ASSIGN, "=");
          (TOKEN_ERROR, "未结束的字符串")]%string.
Proof. vm_compute. reflexivity. Qed.

(** An NFA with two epsilon moves in a row, 0 to 1 and 1 to 2, and a move on
    [a] from 2 to 3. *)
Example epsilon_closure_chain :
  let nfa := {| nfa_num_states := 4; nfa_start_state := 0;
                nfa_final_states := repeat false (Z.to_nat MAX_STATES);
                nfa_transitions :=
                  [ mkTransition 1 2 EPSILON; mkTransition 0 1 EPSILON;
                    mkTransition 2 3 (code "a") ] |} in
  epsilon_closure nfa [0] = Some [0; 1; 2] /\
  move nfa [0; 1; 2] (code "a") = [3] /\
  epsilon_closure nfa [3] = Some [3].
Proof. vm_compute. repeat split. Qed.

(** * More about the scanner *)

(** ** The scanner moves by [advance] alone *)

Lemma steps_refl l : steps l l.
Proof. exists 0%nat. reflexivity. Qed.

Lemma steps_advance l l' : steps l l' -> steps l (advance l').
Proof. intros [n ->]. exists (S n). reflexivity. Qed.

Lemma steps_trans l1 l2 l3 : steps l1 l2 -> steps l2 l3 -> steps l1 l3.
Proof.
  intros [n ->] [m ->]. exists (m + n)%nat. symmetry. apply Nat.iter_add.
Qed.

Lemma steps_invariant (P : Lexer -> Prop) :
  (forall l, P l -> P (advance l)) ->
  forall l l', steps l l' -> P l -> P l'.
Proof.
  intros HP l l' [n ->] H. induction n as [| n IH]; simpl; auto.
Qed.

Lemma steps_good_after l l' : lexer_inv l -> steps l l' -> good_after l l'.
Proof.
  intros I S.
  apply (steps_invariant (good_after l) (good_after_advance l) l l' S).
  apply good_after_refl, I.
Qed.

Lemma steps_wf l l' : wf_lexer l -> steps l l' -> wf_lexer l'.
Proof. intros W S. apply (steps_invariant wf_lexer advance_wf l l' S W). Qed.

(** Closes [steps l (advance (... (advance l')))]. *)
Ltac stepping :=
  first [ assumption
        | apply steps_refl
        | apply steps_advance; stepping ].

Lemma advance_while_steps p fuel :
  forall l l', advance_while fuel p l = Some l' ->
    steps l l' /\ negb (at_end l') && p (current_char l') = false.
Proof.
  induction fuel as [| f IH]; intros l l' E; [discriminate |].
  cbn [advance_while] in E.
  destruct (negb (at_end l) && p (current_char l)) eqn:C.
  - destruct (IH _ _ E) as [S' C']. split; [| exact C'].
    eapply steps_trans; [| exact S']. stepping.
  - inversion E; subst. split; [apply steps_refl | exact C].
Qed.

Lemma skip_block_comment_loop_steps fuel :
  forall l l', skip_block_comment_loop fuel l = Some l' -> steps l l'.
Proof.
  induction fuel as [| f IH]; intros l l' E; [discriminate |].
  cbn [skip_block_comment_loop] in E.
  destruct (negb (at_end l)).
  - destruct ((current_char l =? "*")%char && (peek l =? "/")%char).
    + inversion E; subst. stepping.
    + eapply steps_trans; [| apply (IH _ _ E)]. stepping.
  - inversion E; subst. apply steps_refl.
Qed.

Lemma read_string_loop_steps fuel :
  forall l l', read_string_loop fuel l = Some l' ->
    steps l l' /\
    (at_end l' = true \/ current_char l' = dquote).
Proof.
  induction fuel as [| f IH]; intros l l' E; [discriminate |].
  cbn [read_string_loop] in E.
  destruct (negb (at_end l) && negb (current_char l =? dquote)%char) eqn:C.
  - destruct (current_char l =? backslash)%char.
    + destruct (IH _ _ E) as [S' C']. split; [| exact C'].
      eapply steps_trans; [| exact S'].
      destruct (negb (at_end (advance l))); stepping.
    + destruct (IH _ _ E) as [S' C']. split; [| exact C'].
      eapply steps_trans; [| exact S']. stepping.
  - inversion E; subst. split; [apply steps_refl |].
    apply andb_false_iff in C as [C | C].
    + left. apply negb_false_iff, C.
    + right. apply negb_false_iff in C.
      destruct (Ascii.eqb_spec (current_char l') dquote); [assumption | discriminate].
Qed.

Lemma bind_some_inv {A B} (m : option A) (k : A -> option B) (b : B) :
  bind m k = Some b -> exists a, m = Some a /\ k a = Some b.
Proof. destruct m as [a |]; simpl; [eauto | discriminate]. Qed.

Lemma skip_whitespace_steps l l' : skip_whitespace l = Some l' -> steps l l'.
Proof. intros E. apply (advance_while_steps _ _ _ _ E). Qed.

Lemma skip_line_comment_steps l l' :
  skip_line_comment l = Some l' -> steps l l'.
Proof.
  unfold skip_line_comment. intros E.
  apply bind_some_inv in E as (l1 & E1 & E2).
  inversion E2; subst; clear E2.
  destruct (advance_while_steps _ _ _ _ E1) as [S1 _].
  assert (S : steps l l1) by (eapply steps_trans; [| exact S1]; stepping).
  destruct (current_char l1 =? "010")%char; stepping.
Qed.

Lemma skip_block_comment_steps l l' :
  skip_block_comment l = Some l' -> steps l l'.
Proof.
  unfold skip_block_comment. intros E.
  eapply steps_trans; [| apply (skip_block_comment_loop_steps _ _ _ E)].
  stepping.
Qed.

(** ** What was read between two states *)

Lemma follows_reads l l' :
  wf_lexer l -> wf_lexer l' -> follows l l' ->
  reads l (text_between l (pos l) (pos l')) l'.
Proof.
  intros W W' (Hs & Hl & Hp).
  pose proof (text_length l W) as TL.
  assert (Hle : (pos l' <= len l)%nat) by (destruct W' as [(H & _) _]; lia).
  unfold reads, text_between, unread. rewrite Hs, Hl.
  split; [exact W' |]. split; [reflexivity |]. split; [reflexivity |].
  split.
  - rewrite length_firstn, length_skipn, TL. lia.
  - rewrite <- (firstn_skipn (pos l' - pos l)
                  (skipn (pos l) (firstn (len l) (source l)))) at 1.
    f_equal. rewrite skipn_skipn. f_equal. lia.
Qed.

Lemma steps_reads l l' :
  wf_lexer l -> steps l l' -> reads l (text_between l (pos l) (pos l')) l'.
Proof.
  intros W S. apply follows_reads; [exact W | apply (steps_wf l l' W S) |].
  apply (steps_good_after l l' (proj1 W) S).
Qed.

Lemma steps_pos l l' : lexer_inv l -> steps l l' -> (pos l <= pos l')%nat.
Proof. intros I S. apply (steps_good_after l l' I S). Qed.

Lemma reads_text_between l w l' :
  wf_lexer l -> reads l w l' -> text_between l (pos l) (pos l') = w.
Proof.
  intros W (_ & _ & _ & P & U). unfold text_between.
  fold (unread l). rewrite U, P.
  replace (pos l + List.length w - pos l)%nat with (List.length w) by lia.
  rewrite firstn_app, Nat.sub_diag, firstn_all. simpl. apply app_nil_r.
Qed.

Lemma text_between_substr l l' :
  wf_lexer l -> steps l l' ->
  substr (source l') (pos l) (pos l' - pos l)
  = text_between l (pos l) (pos l').
Proof. intros W S. apply (reads_substr l _ l' W (steps_reads l l' W S)). Qed.

Lemma strdup_idem s : strdup (strdup s) = strdup s.
Proof.
  apply strdup_no_NUL. intros H. apply (strlen_no_NUL s NUL H). reflexivity.
Qed.

Lemma text_between_no_NUL l l' :
  wf_lexer l -> steps l l' -> ~ In NUL (text_between l (pos l) (pos l')).
Proof. intros W S. apply (reads_no_NUL l _ l' W (steps_reads l l' W S)). Qed.

Lemma take_drop_while p s : s = take_while p s ++ drop_while p s.
Proof.
  induction s as [| c r IH]; simpl; [reflexivity |].
  destruct (p c); simpl; [f_equal; exact IH | reflexivity].
Qed.

Lemma take_while_all p s : forallb p (take_while p s) = true.
Proof.
  induction s as [| c r IH]; simpl; [reflexivity |].
  destruct (p c) eqn:E; simpl; [rewrite E; exact IH | reflexivity].
Qed.

Lemma drop_while_stops p s : stops p (drop_while p s).
Proof.
  induction s as [| c r IH]; simpl; [exact I |].
  destruct (p c) eqn:E; simpl; [exact IH | exact E].
Qed.

(** A loop [advance_while] reads the longest run of characters that
    satisfy its test. *)
Lemma advance_while_run p l :
  wf_lexer l ->
  exists l',
    advance_while (budget l) p l = Some l' /\
    reads l (take_while p (unread l)) l' /\
    unread l' = drop_while p (unread l).
Proof.
  intros W.
  apply (advance_while_reads p _ (budget l) l _ W (take_drop_while p (unread l))
           (take_while_all p _) (drop_while_stops p _)).
  apply (unread_budget l _ (drop_while p (unread l)) W), take_drop_while.
Qed.

(** ** Each reader returns the text it read *)

Lemma lookup_in_range table s :
  lookup_in table s = TOKEN_IDENTIFIER \/
  exists k, In (k, lookup_in table s) table /\ streq s k = true.
Proof.
  induction table as [| [k ty] rest IH]; simpl; [left; reflexivity |].
  destruct (streq s k) eqn:E.
  - right. exists k. split; [left; reflexivity | exact E].
  - destruct IH as [IH | (k' & Hin & E')]; [left; exact IH |].
    right. exists k'. split; [right; exact Hin | exact E'].
Qed.

Lemma lookup_keyword_not_special s :
  lookup_keyword s <> TOKEN_ERROR /\ lookup_keyword s <> TOKEN_EOF.
Proof.
  unfold lookup_keyword.
  destruct (lookup_in_range keywords s) as [-> | (k & Hin & _)];
    [split; discriminate |].
  revert Hin. generalize (lookup_in keywords s). intros ty Hin.
  simpl in Hin.
  repeat (destruct Hin as [Hin | Hin];
          [inversion Hin; subst; split; discriminate |]).
  contradiction.
Qed.

Lemma one_char l c r :
  wf_lexer l -> unread l = c :: r ->
  steps l (advance l) /\
  text_between l (pos l) (pos (advance l)) = [c] /\
  (pos l < pos (advance l))%nat.
Proof.
  intros W U.
  destruct (unread_cons l c r W U) as (_ & _ & _ & Hlt & R & _).
  split; [stepping |]. split; [apply (reads_text_between l _ _ W R) |].
  rewrite (advance_pos l Hlt). lia.
Qed.

Lemma two_chars l c1 c2 r :
  wf_lexer l -> unread l = c1 :: c2 :: r ->
  steps l (advance (advance l)) /\
  text_between l (pos l) (pos (advance (advance l))) = [c1; c2] /\
  (pos l < pos (advance (advance l)))%nat.
Proof.
  intros W U.
  destruct (unread_cons l c1 _ W U) as (_ & _ & _ & Hlt & R1 & U1).
  pose proof R1 as (W1 & _).
  destruct (unread_cons _ c2 r W1 U1) as (_ & _ & _ & Hlt1 & R2 & _).
  pose proof (reads_trans _ _ _ _ _ R1 R2) as R.
  split; [stepping |]. split; [apply (reads_text_between l _ _ W R) |].
  rewrite (advance_pos _ Hlt1), (advance_pos l Hlt). lia.
Qed.

Lemma not_at_end_unread l :
  wf_lexer l -> at_end l = false ->
  exists r, unread l = current_char l :: r.
Proof.
  intros W A. destruct (unread l) as [| c r] eqn:U.
  - destruct (unread_nil l W U) as [A' _]. congruence.
  - destruct (unread_cons l c r W U) as (<- & _). eauto.
Qed.

Lemma peek_unread l r c :
  wf_lexer l -> unread l = current_char l :: r ->
  peek l = c -> c <> NUL -> exists r', r = c :: r'.
Proof.
  intros W U Hp Hc.
  destruct (unread_cons l _ r W U) as (_ & _ & Hpk & _).
  rewrite Hpk in Hp. destruct r as [| c' r']; simpl in Hp; [congruence |].
  subst. eauto.
Qed.

(** The lexeme of a token cut out of the source between [l] and [l']. *)
Lemma cut_lexeme l l' ty ln col :
  wf_lexer l -> steps l l' ->
  tok_lexeme (create_token ty (substr (source l') (pos l) (pos l' - pos l))
                ln col)
  = text_between l (pos l) (pos l').
Proof.
  intros W S. simpl. rewrite (text_between_substr l l' W S).
  apply strdup_no_NUL, (text_between_no_NUL l l' W S).
Qed.

Lemma read_identifier_token l t l' :
  wf_lexer l -> at_end l = false -> is_ident_char (current_char l) = true ->
  read_identifier l = Some (t, l') ->
  token_at l t l' /\ tok_type t = lookup_keyword (tok_lexeme t).
Proof.
  intros W A C E.
  destruct (read_identifier_moves l (proj1 W) A C) as (t0 & l0 & E0 & G).
  rewrite E in E0. inversion E0; subst t0 l0; clear E0.
  destruct (good_after_step l l' (not_at_end_lt l (proj1 W) A) G) as [_ Hp].
  unfold read_identifier in E.
  apply bind_some_inv in E as (l1 & E1 & E2). inversion E2; subst; clear E2.
  destruct (advance_while_steps _ _ _ _ E1) as [S _].
  pose proof (cut_lexeme l l' (lookup_keyword
                (substr (source l') (pos l) (pos l' - pos l)))
                (line l) (column l) W S) as HL.
  assert (Hty : tok_type (create_token
                  (lookup_keyword (substr (source l') (pos l) (pos l' - pos l)))
                  (substr (source l') (pos l) (pos l' - pos l))
                  (line l) (column l))
                = lookup_keyword (text_between l (pos l) (pos l'))).
  { simpl. rewrite (text_between_substr l l' W S). reflexivity. }
  split.
  - unfold token_at. rewrite HL, Hty.
    destruct (lookup_keyword_not_special (text_between l (pos l) (pos l')))
      as [_ N2].
    repeat split; auto; try reflexivity; intros; try contradiction.
  - rewrite HL. exact Hty.
Qed.

Lemma read_fraction_steps l f l' :
  read_fraction l = Some (f, l') -> steps l l'.
Proof.
  unfold read_fraction. intros E.
  destruct ((current_char l =? ".")%char && isdigit (peek l)).
  - apply bind_some_inv in E as (l1 & E1 & E2). inversion E2; subst.
    eapply steps_trans; [| apply (advance_while_steps _ _ _ _ E1)]. stepping.
  - inversion E; subst. apply steps_refl.
Qed.

Lemma read_exponent_steps f0 l f l' :
  read_exponent f0 l = Some (f, l') -> steps l l'.
Proof.
  unfold read_exponent. intros E.
  destruct ((current_char l =? "e")%char || (current_char l =? "E")%char).
  - apply bind_some_inv in E as (l1 & E1 & E2). inversion E2; subst.
    eapply steps_trans; [| apply (advance_while_steps _ _ _ _ E1)].
    destruct ((current_char (advance l) =? "+")%char
              || (current_char (advance l) =? "-")%char); stepping.
  - inversion E; subst. apply steps_refl.
Qed.

Lemma number_token_at l l' (is_float is_hex : bool) :
  wf_lexer l -> steps l l' -> (pos l < pos l')%nat ->
  token_at l (number_token (line l) (column l) (pos l) is_float is_hex l') l' /\
  tok_type (number_token (line l) (column l) (pos l) is_float is_hex l')
  = (if is_float then TOKEN_DOUBLE_CONST else TOKEN_INT_CONST).
Proof.
  intros W S Hp. unfold number_token, token_at.
  destruct is_float; cbn [set_value tok_type tok_line tok_column tok_lexeme];
    (split; [| reflexivity]);
    pose proof (cut_lexeme l l' TOKEN_INT_CONST 0 0 W S) as HL;
    cbn [create_token tok_lexeme] in HL |- *;
    repeat split; auto; intros; try discriminate.
Qed.

Lemma read_number_token l t l' :
  wf_lexer l -> at_end l = false -> isdigit (current_char l) = true ->
  read_number l = Some (t, l') ->
  token_at l t l' /\
  (tok_type t = TOKEN_INT_CONST \/ tok_type t = TOKEN_DOUBLE_CONST).
Proof.
  intros W A C E.
  destruct (read_number_moves l (proj1 W) A C) as (t0 & l0 & E0 & G).
  rewrite E in E0. inversion E0; subst t0 l0; clear E0.
  destruct (good_after_step l l' (not_at_end_lt l (proj1 W) A) G) as [_ Hp].
  unfold read_number in E.
  assert (K : exists f h, steps l l' /\
            t = number_token (line l) (column l) (pos l) f h l').
  { destruct ((current_char l =? "0")%char
              && ((peek l =? "x")%char || (peek l =? "X")%char)).
    - apply bind_some_inv in E as (l1 & E1 & E2). inversion E2; subst.
      exists false, true. split; [| reflexivity].
      eapply steps_trans; [| apply (advance_while_steps _ _ _ _ E1)].
      stepping.
    - apply bind_some_inv in E as (l1 & E1 & E2).
      apply bind_some_inv in E2 as ([f2 l2] & E2 & E3).
      apply bind_some_inv in E3 as ([f3 l3] & E3 & E4).
      inversion E4; subst.
      exists f3, false. split; [| reflexivity].
      eapply steps_trans; [apply (advance_while_steps _ _ _ _ E1) |].
      eapply steps_trans; [apply (read_fraction_steps _ _ _ E2) |].
      apply (read_exponent_steps _ _ _ _ E3). }
  destruct K as (f & h & S & ->).
  destruct (number_token_at l l' f h W S Hp) as [T Ty].
  split; [exact T |]. rewrite Ty. destruct f; auto.
Qed.

Lemma read_string_token l t l' :
  wf_lexer l -> at_end l = false ->
  read_string l = Some (t, l') ->
  token_at l t l' /\
  (tok_type t = TOKEN_STRING_CONST \/
   tok_type t = TOKEN_ERROR /\ at_end l' = true).
Proof.
  intros W A E.
  destruct (read_string_moves l (proj1 W)) as (t0 & l0 & E0 & G).
  rewrite E in E0. inversion E0; subst t0 l0; clear E0.
  destruct (good_after_step l l' (not_at_end_lt l (proj1 W) A) G) as [_ Hp].
  unfold read_string in E.
  apply bind_some_inv in E as (l1 & E1 & E2).
  destruct (read_string_loop_steps _ _ _ E1) as [S1 C1].
  assert (S : steps l l1) by (eapply steps_trans; [| exact S1]; stepping).
  destruct (negb (current_char l1 =? dquote)%char) eqn:Q;
    inversion E2; subst; clear E2.
  - split.
    + unfold token_at; cbn. repeat split; auto; intros; try discriminate.
      contradiction.
    + right. split; [reflexivity |].
      destruct C1 as [C1 | C1]; [exact C1 |].
      rewrite C1 in Q. discriminate.
  - assert (S' : steps l (advance l1)) by stepping.
    split; [| left; reflexivity].
    unfold token_at. rewrite (cut_lexeme l _ _ _ _ W S').
    cbn. repeat split; auto; intros; try discriminate.
Qed.

Lemma read_char_token l :
  wf_lexer l -> at_end l = false ->
  token_at l (fst (read_char l)) (snd (read_char l)) /\
  (tok_type (fst (read_char l)) = TOKEN_CHAR_CONST \/
   tok_type (fst (read_char l)) = TOKEN_ERROR).
Proof.
  intros W A.
  pose proof (read_char_moves l (proj1 W)) as G.
  destruct (good_after_step l _ (not_at_end_lt l (proj1 W) A) G) as [_ Hp].
  revert Hp. unfold read_char.
  match goal with
  | |- context [let '(v, l0) := ?e in _] =>
      assert (S2 : steps l (snd e)); [| destruct e as [v l2]]
  end.
  { destruct (current_char (advance l) =? backslash)%char; simpl; [stepping |].
    destruct (negb (at_end (advance l))
              && negb (current_char (advance l) =? squote)%char); simpl;
      stepping. }
  simpl in S2.
  destruct (negb (current_char l2 =? squote)%char); cbn [fst snd]; intros Hp.
  - split; [| right; reflexivity].
    unfold token_at; cbn. repeat split; auto; intros; try discriminate.
    contradiction.
  - assert (S' : steps l (advance l2)) by stepping.
    split; [| left; reflexivity].
    unfold token_at. cbn [set_value tok_type tok_line tok_column tok_lexeme].
    pose proof (cut_lexeme l _ TOKEN_CHAR_CONST 0 0 W S') as HL.
    cbn [create_token tok_lexeme] in HL |- *.
    repeat split; auto; intros; try discriminate.
Qed.

Lemma read_operator_token l :
  wf_lexer l -> at_end l = false ->
  token_at l (fst (read_operator l)) (snd (read_operator l)) /\
  tok_type (fst (read_operator l)) <> TOKEN_EOF.
Proof.
  intros W A. destruct (not_at_end_unread l W A) as (r & U).
  destruct (one_char l _ r W U) as (S1 & T1 & P1).
  unfold read_operator. cbv zeta.
  repeat match goal with
         | |- context [if ?b then _ else _] => destruct b eqn:?
         end;
    cbn [fst snd];
    (split; [| discriminate]);
    match goal with
    | H : (_ =? _)%char && (peek l =? _)%char = true |- _ =>
        apply andb_prop in H as [H1 H2];
        apply Ascii.eqb_eq in H1; apply Ascii.eqb_eq in H2;
        let r' := fresh "r" in
        destruct (peek_unread l r _ W U H2) as [r' ->]; [discriminate |];
        destruct (two_chars l _ _ r' W U) as (S2 & T2 & P2);
        unfold token_at; cbn [create_token tok_type tok_line tok_column
                              tok_lexeme];
        rewrite T2, H1;
        repeat split; auto; intros; discriminate
    | H : (current_char l =? _)%char = true |- _ =>
        apply Ascii.eqb_eq in H;
        unfold token_at; cbn [create_token tok_type tok_line tok_column
                              tok_lexeme];
        rewrite T1, H;
        repeat split; auto; intros; discriminate
    | _ =>
        unfold token_at; cbn [create_token tok_type tok_line tok_column
                              tok_lexeme];
        repeat split; auto; intros; try discriminate; contradiction
    end.
Qed.

(** ** What the scanner passes over *)

Lemma skip_whitespace_reads l :
  wf_lexer l -> at_end l = false -> isspace (current_char l) = true ->
  exists ws l1,
    skip_whitespace l = Some l1 /\ reads l ws l1 /\
    ws <> [] /\ forallb isspace ws = true.
Proof.
  intros W A C. destruct (not_at_end_unread l W A) as (r & U).
  destruct (advance_while_run isspace l W) as (l1 & E & R & _).
  exists (take_while isspace (unread l)), l1.
  split; [exact E |]. split; [exact R |].
  split; [| apply take_while_all].
  rewrite U. simpl. rewrite C. discriminate.
Qed.

Lemma not_newline_stop c : not_newline c = false -> c = newline.
Proof.
  unfold not_newline. intros H. apply negb_false_iff in H.
  apply Ascii.eqb_eq, H.
Qed.

Lemma skip_line_comment_reads l u :
  wf_lexer l -> unread l = "/"%char :: "/"%char :: u ->
  exists l1,
    skip_line_comment l = Some l1 /\
    ((exists rest,
        drop_while not_newline u = newline :: rest /\
        reads l ("/"%char :: "/"%char :: take_while not_newline u ++ [newline]) l1
        /\ unread l1 = rest)
     \/
     (drop_while not_newline u = [] /\
      reads l ("/"%char :: "/"%char :: take_while not_newline u) l1 /\
      unread l1 = [])).
Proof.
  intros W U.
  destruct (unread_cons l _ _ W U) as (_ & _ & _ & _ & R1 & U1).
  pose proof R1 as (W1 & _).
  destruct (unread_cons _ _ _ W1 U1) as (_ & _ & _ & _ & R2 & U2).
  pose proof R2 as (W2 & _).
  pose proof (reads_trans _ _ _ _ _ R1 R2) as R12. simpl in R12.
  destruct (advance_while_run not_newline (advance (advance l)) W2)
    as (l3 & E3 & R3 & U3).
  rewrite U2 in R3, U3.
  pose proof (reads_trans _ _ _ _ _ R12 R3) as R. simpl in R.
  pose proof R3 as (W3 & _).
  unfold skip_line_comment.
  change (fun c : ascii => negb (c =? "010")%char) with not_newline.
  rewrite E3. cbn [bind].
  destruct (drop_while not_newline u) as [| c rest] eqn:D.
  - destruct (unread_nil l3 W3 U3) as [A3 _].
    unfold at_end in A3. apply Ascii.eqb_eq in A3. rewrite A3.
    exists l3. split; [reflexivity |]. right. auto.
  - pose proof (drop_while_stops not_newline u) as St. rewrite D in St.
    simpl in St. apply not_newline_stop in St. subst c.
    destruct (unread_cons l3 _ _ W3 U3) as (C3 & _ & _ & _ & R4 & U4).
    rewrite C3. cbn [Ascii.eqb Bool.eqb].
    exists (advance l3). split; [reflexivity |]. left. exists rest.
    split; [reflexivity |]. split; [| exact U4].
    pose proof (reads_trans _ _ _ _ _ R R4) as R'.
    simpl in R'. exact R'.
Qed.

Lemma before_close_open s : has_close (before_close s) = false.
Proof.
  induction s as [| c r IH]; simpl; [reflexivity |].
  destruct ((c =? "*")%char && (hd NUL r =? "/")%char) eqn:E;
    [reflexivity |].
  simpl. rewrite IH, orb_false_r.
  destruct r as [| c' r']; simpl in *; [apply andb_false_r |].
  destruct ((c' =? "*")%char && (hd NUL r' =? "/")%char) eqn:E'; simpl.
  - apply andb_prop in E' as [E1 _]. apply Ascii.eqb_eq in E1. subst c'.
    apply andb_false_r.
  - exact E.
Qed.

Lemma after_close_split s :
  match after_close s with
  | Some rest => s = before_close s ++ "*"%char :: "/"%char :: rest
  | None => s = before_close s
  end.
Proof.
  induction s as [| c r IH]; simpl; [reflexivity |].
  destruct ((c =? "*")%char && (hd NUL r =? "/")%char) eqn:E.
  - apply andb_prop in E as [E1 E2]. apply Ascii.eqb_eq in E1.
    destruct r as [| c' r']; simpl in *; [discriminate |].
    apply Ascii.eqb_eq in E2. subst. reflexivity.
  - destruct (after_close r); simpl; f_equal; exact IH.
Qed.

Lemma skip_block_comment_loop_closes body :
  forall fuel l rest,
    wf_lexer l -> unread l = body ++ "*"%char :: "/"%char :: rest ->
    has_close body = false ->
    (List.length body < fuel)%nat ->
    exists l', skip_block_comment_loop fuel l = Some l' /\
               reads l (body ++ ["*"%char; "/"%char]) l' /\ unread l' = rest.
Proof.
  induction body as [| c r IH]; intros fuel l rest W U Hc Hf;
    (destruct fuel as [| f]; [simpl in Hf; lia |]);
    cbn [skip_block_comment_loop]; simpl in U.
  - destruct (unread_cons l _ _ W U) as (Hcur & E & Hpk & _ & R1 & U1).
    pose proof R1 as (W1 & _).
    destruct (unread_cons _ _ _ W1 U1) as (_ & _ & _ & _ & R2 & U2).
    rewrite E, Hcur, Hpk. cbn.
    eexists. split; [reflexivity |]. split; [| exact U2].
    apply (reads_trans _ _ _ _ _ R1 R2).
  - destruct (unread_cons l _ _ W U) as (Hcur & E & Hpk & _ & R & U1).
    simpl in Hc, Hf. apply orb_false_elim in Hc as [Hc1 Hc2].
    assert (Hc1' : (c =? "*")%char
                   && (hd NUL (r ++ "*"%char :: "/"%char :: rest) =? "/")%char
                   = false).
    { destruct r; simpl in *; [apply andb_false_r | exact Hc1]. }
    rewrite E, Hcur, Hpk, Hc1'. cbn [negb].
    destruct (IH f (advance l) rest) as (l' & E' & R' & U'); auto;
      [apply R | lia |].
    exists l'. split; [exact E' |]. split; [| exact U'].
    apply (reads_trans _ [c] _ _ _ R R').
Qed.

Lemma skip_block_comment_reads l u :
  wf_lexer l -> unread l = "/"%char :: "*"%char :: u ->
  exists l1,
    skip_block_comment l = Some l1 /\
    ((exists rest,
        after_close u = Some rest /\
        reads l ("/"%char :: "*"%char :: before_close u
                   ++ ["*"%char; "/"%char]) l1 /\
        unread l1 = rest)
     \/
     (after_close u = None /\
      reads l ("/"%char :: "*"%char :: u) l1 /\ unread l1 = [])).
Proof.
  intros W U.
  destruct (unread_cons l _ _ W U) as (_ & _ & _ & _ & R1 & U1).
  pose proof R1 as (W1 & _).
  destruct (unread_cons _ _ _ W1 U1) as (_ & _ & _ & _ & R2 & U2).
  pose proof R2 as (W2 & _).
  pose proof (reads_trans _ _ _ _ _ R1 R2) as R12. simpl in R12.
  unfold skip_block_comment.
  pose proof (after_close_split u) as Sp.
  pose proof (before_close_open u) as Op.
  destruct (after_close u) as [rest |].
  - rewrite Sp in U2.
    destruct (skip_block_comment_loop_closes (before_close u)
                (budget (advance (advance l))) (advance (advance l)) rest
                W2 U2 Op) as (l1 & E & R & U').
    { apply (unread_budget _ _ _ W2 U2). }
    exists l1. split; [exact E |]. left. exists rest.
    split; [reflexivity |]. split; [| exact U'].
    apply (reads_trans _ _ _ _ _ R12 R).
  - rewrite <- Sp in Op.
    destruct (skip_block_comment_loop_reads u
                (budget (advance (advance l))) (advance (advance l))
                W2 U2 Op) as (l1 & E & R & U').
    { apply (unread_budget _ u []); [exact W2 | rewrite app_nil_r; exact U2]. }
    exists l1. split; [exact E |]. right.
    split; [reflexivity |]. split; [| exact U'].
    apply (reads_trans _ _ _ _ _ R12 R).
Qed.

Lemma reads_from_end l w l' : unread l = [] -> reads l w l' -> w = [].
Proof.
  intros U (_ & _ & _ & _ & U'). rewrite U in U'.
  symmetry in U'. apply app_eq_nil in U'. apply U'.
Qed.

Lemma eof_token_at l : wf_lexer l -> at_end l = true -> token_at l (eof_token l) l.
Proof.
  intros W A. unfold token_at, eof_token, text_between.
  rewrite Nat.sub_diag. cbn.
  repeat split; auto using steps_refl, at_end_wf; intros; try contradiction.
Qed.

Lemma unread_at_end l : wf_lexer l -> at_end l = true -> unread l = [].
Proof.
  intros W A. pose proof (unread_length l W) as L.
  rewrite (at_end_wf l W A), Nat.sub_diag in L.
  destruct (unread l); [reflexivity | discriminate].
Qed.

Lemma passes_over_prefix pre sk r :
  (forall x, skipped x -> skipped (pre ++ x)) ->
  passes_over sk r -> passes_over (pre ++ sk) r.
Proof.
  intros H [B [Sk | (s & c & -> & Sk & C & E)]]; split; trivial.
  - left. apply H, Sk.
  - right. exists (pre ++ s), c. rewrite app_assoc. auto.
Qed.

Lemma passes_over_cut c ls sk :
  cut_off c -> unread ls = [] -> sk = [] -> passes_over (c ++ sk) (unread ls).
Proof.
  intros C U ->. rewrite U, app_nil_r. split; [reflexivity |].
  right. exists [], c. split; [reflexivity |].
  split; [constructor | split; [exact C | reflexivity]].
Qed.

(** The loop of [get_next_token] passes over white space and comments and
    then reads one token, which begins where they end. *)
Lemma get_next_token_loop_shape fuel :
  forall l t l',
    wf_lexer l -> get_next_token_loop fuel l = Some (t, l') ->
    exists sk ls,
      reads l sk ls /\ steps l ls /\ passes_over sk (unread ls) /\
      token_at ls t l'.
Proof.
  induction fuel as [| f IH]; intros l t l' W E; [discriminate |].
  cbn [get_next_token_loop] in E.
  destruct (at_end l) eqn:A; cbn [negb] in E.
  { inversion E; subst. exists [], l'.
    split; [apply reads_nil, W |]. split; [apply steps_refl |].
    split; [| apply (eof_token_at l' W A)].
    rewrite (unread_at_end l' W A). split; [reflexivity | left; constructor]. }
  destruct (not_at_end_unread l W A) as (r & U).
  destruct (isspace (current_char l)) eqn:Hsp.
  { destruct (skip_whitespace_reads l W A Hsp) as (ws & l1 & E1 & R1 & N & Sp).
    pose proof (skip_whitespace_steps l l1 E1) as S1.
    rewrite E1 in E. cbn [bind] in E.
    destruct (IH l1 t l' (proj1 R1) E) as (sk & ls & R & S & Sk & T).
    exists (ws ++ sk), ls. split; [apply (reads_trans _ _ _ _ _ R1 R) |].
    split; [apply (steps_trans _ _ _ S1 S) |].
    split; [| exact T].
    apply passes_over_prefix; [| exact Sk].
    intros x Hx. constructor; assumption. }
  destruct ((current_char l =? "/")%char && (peek l =? "/")%char) eqn:C1.
  { apply andb_prop in C1 as [Hc Hp]. apply Ascii.eqb_eq in Hc, Hp.
    destruct (peek_unread l r _ W U Hp) as [u ->]; [discriminate |].
    rewrite Hc in U.
    destruct (skip_line_comment_reads l u W U) as (l1 & E1 & Cases).
    pose proof (skip_line_comment_steps l l1 E1) as S1.
    rewrite E1 in E. cbn [bind] in E.
    destruct Cases as [(rest & D & R1 & U1) | (D & R1 & U1)];
      destruct (IH l1 t l' (proj1 R1) E) as (sk & ls & R & S & Sk & T).
    - eexists _, ls. split; [apply (reads_trans _ _ _ _ _ R1 R) |].
      split; [apply (steps_trans _ _ _ S1 S) |].
      split; [| exact T].
      apply passes_over_prefix; [| exact Sk].
      intros x Hx. cbn [app]. rewrite <- app_assoc. cbn [app].
      constructor; [apply take_while_all | exact Hx].
    - pose proof (reads_from_end l1 sk ls U1 R) as Enil.
      eexists _, ls. split; [apply (reads_trans _ _ _ _ _ R1 R) |].
      split; [apply (steps_trans _ _ _ S1 S) |].
      split; [| exact T].
      apply passes_over_cut; [| | exact Enil].
      + apply cut_off_line, take_while_all.
      + destruct R as (_ & _ & _ & _ & Ur). rewrite U1, Enil in Ur.
        symmetry. exact Ur. }
  destruct ((current_char l =? "/")%char && (peek l =? "*")%char) eqn:C2.
  { apply andb_prop in C2 as [Hc Hp]. apply Ascii.eqb_eq in Hc, Hp.
    destruct (peek_unread l r _ W U Hp) as [u ->]; [discriminate |].
    rewrite Hc in U.
    destruct (skip_block_comment_reads l u W U) as (l1 & E1 & Cases).
    pose proof (skip_block_comment_steps l l1 E1) as S1.
    rewrite E1 in E. cbn [bind] in E.
    destruct Cases as [(rest & D & R1 & U1) | (D & R1 & U1)];
      destruct (IH l1 t l' (proj1 R1) E) as (sk & ls & R & S & Sk & T).
    - eexists _, ls. split; [apply (reads_trans _ _ _ _ _ R1 R) |].
      split; [apply (steps_trans _ _ _ S1 S) |].
      split; [| exact T].
      apply passes_over_prefix; [| exact Sk].
      intros x Hx. cbn [app]. rewrite <- app_assoc. cbn [app].
      constructor; [apply before_close_open | exact Hx].
    - pose proof (reads_from_end l1 sk ls U1 R) as Enil.
      eexists _, ls. split; [apply (reads_trans _ _ _ _ _ R1 R) |].
      split; [apply (steps_trans _ _ _ S1 S) |].
      split; [| exact T].
      apply passes_over_cut; [| | exact Enil].
      + apply cut_off_block.
        pose proof (after_close_split u) as Sp. rewrite D in Sp.
        rewrite Sp. apply before_close_open.
      + destruct R as (_ & _ & _ & _ & Ur). rewrite U1, Enil in Ur.
        symmetry. exact Ur. }
  assert (Here : forall tk, token_at l tk l' ->
            exists sk ls,
              reads l sk ls /\ steps l ls /\ passes_over sk (unread ls) /\
              token_at ls tk l').
  { intros tk T. exists [], l.
    split; [apply reads_nil, W |]. split; [apply steps_refl |].
    split; [| exact T].
    split; [| left; constructor].
    destruct (unread_cons l _ r W U) as (_ & _ & Hpk & _).
    rewrite U. cbn [begins_separator]. rewrite Hsp, <- Hpk. cbn [orb].
    destruct (current_char l =? "/")%char; cbn [andb] in *;
      [rewrite C1, C2 |]; reflexivity. }
  destruct (isalpha (current_char l) || (current_char l =? "_")%char) eqn:Hid.
  { apply Here.
    apply (read_identifier_token l t l' W A (ident_start_char _ Hid) E). }
  destruct (isdigit (current_char l)) eqn:Hd.
  { apply Here. apply (read_number_token l t l' W A Hd E). }
  destruct (current_char l =? dquote)%char.
  { apply Here. apply (read_string_token l t l' W A E). }
  destruct (current_char l =? squote)%char.
  - inversion E as [E']. apply Here.
    pose proof (read_char_token l W A) as [T _]. rewrite E' in T. exact T.
  - inversion E as [E']. apply Here.
    pose proof (read_operator_token l W A) as [T _]. rewrite E' in T. exact T.
Qed.

(** Decides [wf_lexer] on a closed scanner state. *)
Ltac wf_by_computation := split; [inv_by_computation | reflexivity].

Lemma get_next_token_parts (l : Lexer) (t : Token) (l' : Lexer) :
  wf_lexer l -> get_next_token l = Some (t, l') ->
  exists sk body,
    reads l (sk ++ body) l' /\
    passes_over sk (body ++ unread l') /\
    (tok_type t <> TOKEN_ERROR -> tok_lexeme t = body) /\
    (tok_type t <> TOKEN_EOF -> body <> []) /\
    (tok_type t = TOKEN_EOF -> body = [] /\ pos l' = len l').
Proof.
  intros W E.
  destruct (get_next_token_loop_shape _ l t l' W E)
    as (sk & ls & R & _ & Sk & S & _ & _ & HL & HE & HP).
  pose proof R as (Ws & _).
  pose proof (steps_reads ls l' Ws S) as R'.
  exists sk, (text_between ls (pos ls) (pos l')).
  split; [apply (reads_trans _ _ _ _ _ R R') |].
  split; [destruct R' as (_ & _ & _ & _ & <-); exact Sk |].
  split; [exact HL |]. split.
  - intros N K. specialize (HP N).
    destruct R' as (_ & _ & _ & P & _). rewrite K in P. simpl in P. lia.
  - intros K. destruct (HE K) as [-> P].
    unfold text_between. rewrite Nat.sub_diag. auto.
Qed.

(** X1: a call of [get_next_token] drops nothing silently.  The text it
    reads is all the white space and comments before the token, followed by
    the text of the token: that text begins with no white space and opens no
    comment, and a comment that nothing ends is passed over only up to the
    end of the input.  Unless the token is an ERROR token its text is its
    lexeme; it is empty for EOF only, which is issued at the end of the
    input. *)
Theorem nothing_dropped (l : Lexer) (t : Token) (l' : Lexer) :
  wf_lexer l -> get_next_token l = Some (t, l') ->
  exists sk body,
    reads l (sk ++ body) l' /\
    passes_over sk (body ++ unread l') /\
    (tok_type t <> TOKEN_ERROR -> tok_lexeme t = body) /\
    (tok_type t <> TOKEN_EOF -> body <> []) /\
    (tok_type t = TOKEN_EOF -> body = [] /\ pos l' = len l').
Proof. exact (get_next_token_parts l t l'). Qed.

Lemma nothing_dropped_witness :
  exists t l' sk body,
    get_next_token (create_lexer (lit " /* a */ // b
  x1 = 2")) = Some (t, l') /\
    tok_type t = TOKEN_IDENTIFIER /\
    reads (create_lexer (lit " /* a */ // b
  x1 = 2")) (sk ++ body) l' /\
    passes_over sk (body ++ unread l') /\
    (tok_type t <> TOKEN_ERROR -> tok_lexeme t = body) /\
    (tok_type t <> TOKEN_EOF -> body <> []) /\
    (tok_type t = TOKEN_EOF -> body = [] /\ pos l' = len l').
Proof.
  set (l0 := create_lexer (lit " /* a */ // b
  x1 = 2")).
  assert (W : wf_lexer l0) by wf_by_computation.
  assert (E : exists t l', get_next_token l0 = Some (t, l') /\
                           tok_type t = TOKEN_IDENTIFIER)
    by (eexists; eexists; split; vm_compute; reflexivity).
  destruct E as (t & l' & E & Ty).
  destruct (nothing_dropped l0 t l' W E) as (sk & body & H).
  exists t, l', sk, body. split; [exact E |]. split; [exact Ty | exact H].
Defined.

(** ** White space and comments before an open block comment *)

Lemma drop_while_all p ws x :
  forallb p ws = true -> drop_while p (ws ++ x) = drop_while p x.
Proof.
  induction ws as [| c r IH]; simpl; [reflexivity |].
  intros H. apply andb_prop in H as [-> H]. apply IH, H.
Qed.

Lemma take_while_stop p w c x :
  forallb p w = true -> p c = false ->
  take_while p (w ++ c :: x) = w /\ drop_while p (w ++ c :: x) = c :: x.
Proof.
  induction w as [| a r IH]; simpl; intros H Hc.
  - rewrite Hc. auto.
  - apply andb_prop in H as [-> H]. destruct (IH H Hc) as [-> ->]. auto.
Qed.

(** After the white space at the head of passed-over text comes passed-over
    text again. *)
Lemma skipped_drop_space sk :
  skipped sk ->
  forall tail,
    stops isspace tail ->
    exists sk2,
      drop_while isspace (sk ++ tail) = sk2 ++ tail /\ skipped sk2 /\
      (List.length sk2 <= List.length sk)%nat.
Proof.
  induction 1 as [| ws rest Hne Hws Hrest IH | body rest Hb Hrest IH
                    | body rest Hb Hrest IH]; intros tail St.
  - exists []. split; [| split; [constructor | lia]].
    destruct tail as [| c r]; simpl in *; [reflexivity |].
    rewrite St. reflexivity.
  - destruct (IH tail St) as (sk2 & E & Sk & L).
    exists sk2. rewrite <- app_assoc, (drop_while_all _ _ _ Hws).
    split; [exact E |]. split; [exact Sk |]. rewrite length_app. lia.
  - exists ("/"%char :: "/"%char :: body ++ newline :: rest).
    split; [reflexivity |]. split; [| lia].
    constructor; assumption.
  - exists ("/"%char :: "*"%char :: body ++ "*"%char :: "/"%char :: rest).
    split; [reflexivity |]. split; [| lia].
    constructor; assumption.
Qed.

Lemma separators_then_open_comment body :
  has_close body = false ->
  forall n sk fuel l,
    (List.length sk <= n)%nat -> skipped sk -> wf_lexer l ->
    unread l = sk ++ "/"%char :: "*"%char :: body ->
    (List.length sk + 2 <= fuel)%nat ->
    exists l',
      get_next_token_loop fuel l = Some (eof_token l', l') /\
      reads l (sk ++ "/"%char :: "*"%char :: body) l' /\
      pos l' = len l'.
Proof.
  intros Hc. induction n as [| n IH]; intros sk fuel l Hn Hsk W U Hf.
  - destruct sk; [| simpl in Hn; lia].
    apply (block_comment_to_end fuel l body W U Hc). simpl in Hf. lia.
  - destruct Hsk as [| ws rest Hne Hws Hrest | body0 rest Hb Hrest
                       | body0 rest Hb Hrest].
    + apply (block_comment_to_end fuel l body W U Hc). simpl in Hf. lia.
    + destruct ws as [| c ws]; [congruence |].
      rewrite <- app_assoc in U. cbn [app] in U.
      destruct (unread_cons l _ _ W U) as (Hcur & A & _).
      pose proof Hws as Hws'. cbn [forallb] in Hws'.
      apply andb_prop in Hws' as [Hsp _].
      destruct (advance_while_run isspace l W) as (l1 & E1 & R1 & U1).
      destruct (skipped_drop_space rest Hrest
                  ("/"%char :: "*"%char :: body) eq_refl)
        as (sk2 & D & Sk2 & L2).
      assert (U1' : unread l1 = sk2 ++ "/"%char :: "*"%char :: body).
      { rewrite U1, U.
        change (c :: ws ++ rest ++ "/"%char :: "*"%char :: body)
          with ((c :: ws) ++ rest ++ "/"%char :: "*"%char :: body).
        rewrite (drop_while_all _ _ _ Hws). exact D. }
      rewrite length_app in Hn, Hf. cbn [List.length] in Hn, Hf.
      destruct fuel as [| f]; [lia |].
      destruct (IH sk2 f l1) as (l' & E' & R' & P'); trivial;
        [lia | apply R1 | lia |].
      exists l'. split; [| split; [| exact P']].
      * cbn [get_next_token_loop]. rewrite A, Hcur, Hsp. cbn [negb].
        unfold skip_whitespace. rewrite E1. cbn [bind]. exact E'.
      * pose proof (reads_trans _ _ _ _ _ R1 R') as R.
        rewrite <- U1', U1, <- take_drop_while, U in R.
        rewrite <- app_assoc. exact R.
    + cbn [app] in U. rewrite <- app_assoc in U. cbn [app] in U.
      destruct (unread_cons l _ _ W U) as (Hcur & A & Hpk & _).
      cbn [hd] in Hpk.
      destruct (skip_line_comment_reads l _ W U) as (l1 & E1 & Cases).
      assert (Nl : not_newline newline = false) by reflexivity.
      destruct (take_while_stop not_newline body0 newline
                  (rest ++ "/"%char :: "*"%char :: body) Hb Nl) as [Tk Dr].
      rewrite Tk, Dr in Cases.
      destruct Cases as [(rest2 & D & R1 & U1) | (D & _)]; [| discriminate].
      injection D as <-.
      cbn [List.length] in Hn, Hf. rewrite length_app in Hn, Hf.
      cbn [List.length] in Hn, Hf.
      destruct fuel as [| f]; [lia |].
      destruct (IH rest f l1) as (l' & E' & R' & P'); trivial;
        [lia | apply R1 | lia |].
      exists l'. split; [| split; [| exact P']].
      * cbn [get_next_token_loop]. rewrite A, Hcur, Hpk.
        cbn -[skip_line_comment get_next_token_loop].
        rewrite E1. cbn [bind]. exact E'.
      * pose proof (reads_trans _ _ _ _ _ R1 R') as R.
        cbn [app] in R |- *. rewrite <- !app_assoc in R |- *.
        cbn [app] in R |- *. exact R.
    + cbn [app] in U. rewrite <- app_assoc in U. cbn [app] in U.
      destruct (unread_cons l _ _ W U) as (Hcur & A & Hpk & _ & Ra & Ua).
      cbn [hd] in Hpk. pose proof Ra as (Wa & _).
      destruct (unread_cons _ _ _ Wa Ua) as (_ & _ & _ & _ & Rb & Ub).
      pose proof Rb as (Wb & _).
      destruct (skip_block_comment_loop_closes body0
                  (budget (advance (advance l))) (advance (advance l))
                  (rest ++ "/"%char :: "*"%char :: body) Wb Ub Hb)
        as (l1 & E1 & R1 & U1).
      { apply (unread_budget _ _ _ Wb Ub). }
      cbn [List.length] in Hn, Hf. rewrite length_app in Hn, Hf.
      cbn [List.length] in Hn, Hf.
      destruct fuel as [| f]; [lia |].
      destruct (IH rest f l1) as (l' & E' & R' & P'); trivial;
        [lia | apply R1 | lia |].
      exists l'. split; [| split; [| exact P']].
      * cbn [get_next_token_loop]. rewrite A, Hcur, Hpk.
        cbn -[skip_block_comment get_next_token_loop].
        unfold skip_block_comment. rewrite E1. cbn [bind]. exact E'.
      * pose proof (reads_trans _ _ _ _ _ Ra
                      (reads_trans _ _ _ _ _ Rb
                         (reads_trans _ _ _ _ _ R1 R'))) as R.
        cbn [app] in R |- *. rewrite <- !app_assoc in R |- *.
        cbn [app] in R |- *. exact R.
Qed.

(** C5: when only white space and finished comments (line comments with
    their newline, block comments with their star-slash) stand between the
    lookahead and the opener of a block comment, and no closing star-slash
    follows the opener in the rest of the source, [get_next_token] reads
    all of that, the opener and everything after it, stops at the end of the
    input and returns the EOF token, not an ERROR token. *)
Theorem unterminated_block_comment (l : Lexer) (sk body : list ascii) :
  wf_lexer l ->
  unread l = sk ++ "/"%char :: "*"%char :: body ->
  skipped sk ->
  has_close body = false ->
  exists l',
    get_next_token l = Some (eof_token l', l') /\
    tok_type (eof_token l') = TOKEN_EOF /\
    reads l (sk ++ "/"%char :: "*"%char :: body) l' /\
    pos l' = len l'.
Proof.
  intros W U Hsk Hc.
  destruct (separators_then_open_comment body Hc (List.length sk) sk
              (budget l) l (Nat.le_refl _) Hsk W U) as (l' & E & R & P).
  { pose proof (unread_length l W) as UL.
    rewrite U, length_app in UL. cbn [List.length] in UL.
    unfold budget. lia. }
  exists l'. split; [exact E |]. split; [reflexivity |]. split; assumption.
Qed.

Lemma unterminated_block_comment_witness :
  (exists l',
     get_next_token (create_lexer (lit "  /* a * b")) = Some (eof_token l', l') /\
     tok_type (eof_token l') = TOKEN_EOF /\
     reads (create_lexer (lit "  /* a * b")) (lit "  /* a * b") l' /\
     pos l' = len l') /\
  (exists l',
     get_next_token (create_lexer (lit "/* a */ // c
/* b")) = Some (eof_token l', l') /\
     tok_type (eof_token l') = TOKEN_EOF /\
     reads (create_lexer (lit "/* a */ // c
/* b")) (lit "/* a */ // c
/* b") l' /\
     pos l' = len l').
Proof.
  split.
  - apply (unterminated_block_comment (create_lexer (lit "  /* a * b"))
             (lit "  ") (lit " a * b")).
    + wf_by_computation.
    + reflexivity.
    + apply (skipped_space (lit "  ") []);
        [discriminate | reflexivity | constructor].
    + reflexivity.
  - apply (unterminated_block_comment (create_lexer (lit "/* a */ // c
/* b")) (lit "/* a */ // c
") (lit " b")).
    + wf_by_computation.
    + reflexivity.
    + apply (skipped_block (lit " a ") (lit " // c
")); [reflexivity |].
      apply (skipped_space (lit " ") (lit "// c
")); [discriminate | reflexivity |].
      apply (skipped_line (lit " c") []); [reflexivity | constructor].
    + reflexivity.
Defined.

(** ** Lines and columns *)

Lemma firstn_snoc {A} (n : nat) (l : list A) (d : A) :
  (n < List.length l)%nat -> firstn (S n) l = firstn n l ++ [nth n l d].
Proof.
  revert l; induction n as [| n IH]; intros [| a l] H; simpl in *; try lia.
  - reflexivity.
  - f_equal. apply IH. lia.
Qed.

Lemma line_at_snoc text c :
  line_at (text ++ [c])
  = if (c =? newline)%char then line_at text + 1 else line_at text.
Proof.
  unfold line_at. rewrite count_occ_app. cbn [count_occ].
  destruct (ascii_dec c newline) as [-> | N].
  - rewrite Ascii.eqb_refl. lia.
  - destruct (Ascii.eqb_spec c newline); [contradiction | lia].
Qed.

Lemma column_at_snoc text c :
  column_at (text ++ [c])
  = if (c =? newline)%char then 1 else column_at text + 1.
Proof.
  unfold column_at. rewrite rev_unit. cbn [run_to_newline].
  destruct (c =? newline)%char; lia.
Qed.

Lemma located_create src : located (create_lexer src).
Proof. split; reflexivity. Qed.

Lemma located_advance l : wf_lexer l /\ located l -> wf_lexer (advance l) /\ located (advance l).
Proof.
  intros [W [Hl Hc]]. split; [apply advance_wf, W |].
  destruct (Nat.lt_ge_cases (pos l) (len l)) as [Hlt | Hge].
  - pose proof W as [(_ & Hin & _) L].
    assert (Hs : (pos l < List.length (source l))%nat).
    { pose proof (strlen_le (source l)). lia. }
    unfold located. rewrite (advance_pos l Hlt).
    destruct (advance_follows l) as (-> & _).
    rewrite (firstn_snoc _ _ NUL Hs), line_at_snoc, column_at_snoc.
    fold (char_at (source l) (pos l)). rewrite <- (Hin Hlt).
    unfold advance. destruct (Nat.ltb_spec (pos l) (len l)); [| lia].
    change "010"%char with newline.
    destruct (current_char l =? newline)%char; simpl; split; congruence.
  - unfold advance. destruct (Nat.ltb_spec (pos l) (len l)); [lia |].
    split; assumption.
Qed.

Lemma steps_located l l' :
  wf_lexer l -> located l -> steps l l' -> located l'.
Proof.
  intros W L S.
  apply (steps_invariant (fun l => wf_lexer l /\ located l) located_advance
           l l' S (conj W L)).
Qed.

(** X2: in a state whose line and column agree with its offset,
    [get_next_token] returns a state in which they agree again, and a token
    of any kind, ERROR included, that carries the line and the column of the
    offset where the passed-over text ends: the unread input is all the
    white space and comments before the token, of some length [n], and then
    text that begins with no white space and opens no comment, and the
    position is that of the offset [n] characters on.  Unless the token is
    an ERROR token, its lexeme is the source text from there to the new
    offset. *)
Theorem token_position (l : Lexer) (t : Token) (l' : Lexer) :
  wf_lexer l -> located l -> get_next_token l = Some (t, l') ->
  located l' /\
  exists sk rest,
    unread l = sk ++ rest /\ passes_over sk rest /\
    (pos l + List.length sk <= pos l')%nat /\
    tok_line t = line_at (firstn (pos l + List.length sk) (source l)) /\
    tok_column t = column_at (firstn (pos l + List.length sk) (source l)) /\
    (tok_type t <> TOKEN_ERROR ->
     (pos l + List.length sk + List.length (tok_lexeme t))%nat = pos l' /\
     tok_lexeme t = text_between l (pos l + List.length sk) (pos l')).
Proof.
  intros W L E.
  destruct (get_next_token_loop_shape _ l t l' W E)
    as (sk & ls & R & S0 & Sk & S & Hln & Hcol & HL & _ & _).
  pose proof R as (Ws & Hsrc & Hlen & Hpos & Hun).
  pose proof (steps_located l ls W L S0) as [Ll Lc].
  split; [apply (steps_located ls l' Ws (conj Ll Lc) S) |].
  pose proof (steps_reads ls l' Ws S) as R'.
  exists sk, (unread ls). rewrite <- Hpos, Hln, Hcol, Ll, Lc, Hsrc.
  split; [exact Hun |]. split; [exact Sk |].
  split; [apply (steps_pos ls l' (proj1 Ws) S) |].
  split; [reflexivity |]. split; [reflexivity |].
  intros N. rewrite (HL N).
  split.
  - destruct R' as (_ & _ & _ & P & _). lia.
  - unfold text_between. rewrite Hsrc, Hlen. reflexivity.
Qed.

Lemma token_position_witness :
  exists t l' sk rest,
    get_next_token (advance (create_lexer (lit "a
  @ = 1"))) = Some (t, l') /\
    tok_type t = TOKEN_ERROR /\
    located l' /\
    unread (advance (create_lexer (lit "a
  @ = 1"))) = sk ++ rest /\ passes_over sk rest /\
    tok_line t = line_at (firstn (1 + List.length sk) (lit "a
  @ = 1")) /\
    tok_column t = column_at (firstn (1 + List.length sk) (lit "a
  @ = 1")).
Proof.
  set (l0 := advance (create_lexer (lit "a
  @ = 1"))).
  assert (W : wf_lexer l0) by wf_by_computation.
  assert (L : located l0) by (split; reflexivity).
  assert (E : exists t l', get_next_token l0 = Some (t, l') /\
                           tok_type t = TOKEN_ERROR)
    by (eexists; eexists; split; vm_compute; reflexivity).
  destruct E as (t & l' & E & Ty).
  destruct (token_position l0 t l' W L E)
    as (L' & sk & rest & Hu & Hp & _ & Hl & Hc & _).
  exists t, l', sk, rest.
  exact (conj E (conj Ty (conj L' (conj Hu (conj Hp (conj Hl Hc)))))).
Defined.

(** ** The loop of [perform_lexical_analysis] *)

Lemma analysis_loop_step f l a t l1 :
  get_next_token l = Some (t, l1) ->
  analysis_loop (S f) l a
  = if is_eof t then Some (a, l1)
    else analysis_loop f l1
           {| printed := printed a ++ [t];
              token_count := token_count a + 1;
              error_count :=
                error_count a + (if is_error t then 1 else 0) |}.
Proof.
  intros E. cbn [analysis_loop]. rewrite E. cbn [bind].
  unfold is_eof, is_error.
  destruct (tok_type t); rewrite ?Z.add_0_r; reflexivity.
Qed.

Lemma is_eof_spec t : is_eof t = true <-> tok_type t = TOKEN_EOF.
Proof. unfold is_eof. destruct (tok_type t); split; congruence. Qed.

Lemma is_error_spec t : is_error t = true <-> tok_type t = TOKEN_ERROR.
Proof. unfold is_error. destruct (tok_type t); split; congruence. Qed.

Lemma analysis_loop_run fuel :
  forall l a,
    wf_lexer l -> (len l - pos l < fuel)%nat ->
    exists ts l',
      analysis_loop fuel l a
      = Some ({| printed := printed a ++ ts;
                 token_count := token_count a + Z.of_nat (List.length ts);
                 error_count :=
                   error_count a
                   + Z.of_nat (List.length (filter is_error ts)) |}, l') /\
      pos l' = len l' /\
      (List.length ts <= len l - pos l)%nat /\
      Forall (fun t => tok_type t <> TOKEN_EOF) ts /\
      covers ts (unread l).
Proof.
  induction fuel as [| f IH]; intros l a W Hf; [lia |].
  destruct (get_next_token_total l (proj1 W)) as (t & l1 & E & G).
  rewrite (analysis_loop_step f l a t l1 E).
  pose proof (good_after_wf l l1 W G) as W1.
  destruct (get_next_token_parts l t l1 W E)
    as (sk & body & R & Sk & HL & HN & HE).
  pose proof R as (_ & _ & Hlen & Hpos & U).
  destruct (is_eof t) eqn:Eof.
  - apply is_eof_spec in Eof. destruct (HE Eof) as [-> P1].
    exists [], l1. split.
    + rewrite app_nil_r. cbn. do 2 f_equal. destruct a; cbn; f_equal; lia.
    + split; [exact P1 |]. split; [cbn; lia |]. split; [constructor |].
      rewrite U, app_nil_r.
      assert (U1 : unread l1 = []).
      { unfold unread. apply skipn_all2.
        rewrite (text_length l1 W1). lia. }
      rewrite U1 in Sk |- *. rewrite app_nil_r. constructor. exact Sk.
  - assert (Ne : tok_type t <> TOKEN_EOF).
    { intros K. apply is_eof_spec in K. congruence. }
    assert (Nb : body <> []) by (apply HN, Ne).
    assert (Hb : (0 < List.length body)%nat)
      by (destruct body; [congruence | simpl; lia]).
    rewrite length_app in Hpos.
    assert (Hle : (pos l1 <= len l1)%nat) by apply W1.
    match goal with
    | |- context [analysis_loop f l1 ?a1] =>
        destruct (IH l1 a1 W1) as (ts & l' & E' & P' & Hn & Hf' & C');
        [rewrite Hlen; lia |]
    end.
    exists (t :: ts), l'. split.
    + rewrite E'. cbn [printed token_count error_count filter].
      rewrite <- app_assoc. cbn [app List.length].
      do 2 f_equal. f_equal; [lia |].
      destruct (is_error t); cbn [List.length]; lia.
    + split; [exact P' |].
      split; [cbn [List.length]; rewrite Hlen in Hn; lia |].
      split; [constructor; [exact Ne | exact Hf'] |].
      rewrite U, <- app_assoc.
      constructor; assumption.
Qed.

Lemma perform_lexical_analysis_run source :
  exists ts l,
    perform_lexical_analysis source
    = Some ({| printed := ts;
               token_count := Z.of_nat (List.length ts);
               error_count := Z.of_nat (List.length (filter is_error ts)) |},
            l) /\
    pos l = len l /\
    (List.length ts <= strlen source)%nat /\
    Forall (fun t => tok_type t <> TOKEN_EOF) ts /\
    covers ts (strdup source).
Proof.
  unfold perform_lexical_analysis.
  destruct (analysis_loop_run (S (len (create_lexer source)))
              (create_lexer source)
              {| printed := []; token_count := 0; error_count := 0 |}
              (create_lexer_wf source)) as (ts & l & E & P & Hn & Hf & C);
    [lia |].
  exists ts, l. split; [exact E |]. split; [exact P |].
  split; [simpl in Hn; lia |]. split; [exact Hf |].
  rewrite <- unread_create. exact C.
Qed.


(** X4: the tokens that [perform_lexical_analysis] prints cover the source:
    the source is, in order, all the white space and comments before the
    first token, the text of the first token, and so on, and the white space
    and comments at the end, where alone a comment may lack its end.  The
    text of a token begins with no white space and opens no comment; the
    text of a token other than ERROR is its lexeme; the text of an ERROR
    token is not empty. *)
Theorem analysis_covers (source : list ascii) :
  exists a l,
    perform_lexical_analysis source = Some (a, l) /\
    covers (printed a) (strdup source).
Proof.
  destruct (perform_lexical_analysis_run source)
    as (ts & l & E & _ & _ & _ & C).
  eexists _, l. split; [exact E | exact C].
Qed.

(** ** Identifiers and keywords *)

Lemma ident_start_dispatch c :
  isalpha c || (c =? "_")%char = true ->
  isspace c = false /\ (c =? "/")%char = false.
Proof. revert c. intros c. by_cases_on_char c; intros _; split; reflexivity. Qed.

(** X5: maximal munch for identifiers.  When the unread input begins with a
    letter or an underscore, [get_next_token] reads the longest run of
    letters, digits and underscores and returns it as the lexeme of a token
    whose kind is given by [lookup_keyword] on the whole run. *)
Theorem identifier_maximal_munch (l : Lexer) (c : ascii) (w r : list ascii) :
  wf_lexer l ->
  unread l = c :: w ++ r ->
  isalpha c || (c =? "_")%char = true ->
  forallb is_ident_char w = true ->
  stops is_ident_char r ->
  exists l',
    get_next_token l
    = Some ({| tok_type := lookup_keyword (c :: w); tok_lexeme := c :: w;
               tok_line := line l; tok_column := column l;
               tok_value := value_unset |}, l') /\
    reads l (c :: w) l' /\ unread l' = r.
Proof.
  intros W U Hc Hw Hr.
  destruct (unread_cons l _ _ W U) as (Hcur & A & _).
  destruct (ident_start_dispatch c Hc) as [D1 D2].
  assert (Hall : forallb is_ident_char (c :: w) = true).
  { simpl. rewrite (ident_start_char c Hc). exact Hw. }
  destruct (advance_while_reads is_ident_char (c :: w) (budget l) l r W U
              Hall Hr (unread_budget l (c :: w) r W U)) as (l' & E & R & U').
  exists l'. split; [| split; assumption].
  unfold get_next_token, budget. cbn [get_next_token_loop].
  rewrite A, Hcur, D1, D2, Hc. cbn [negb andb].
  unfold read_identifier. fold (budget l). rewrite E. cbn [bind].
  rewrite (reads_substr l _ l' W R).
  apply f_equal. f_equal.
  apply create_token_no_NUL, (reads_no_NUL l _ l' W R).
Qed.

Lemma identifier_maximal_munch_witness :
  exists l',
    get_next_token (create_lexer (lit "returning x"))
    = Some ({| tok_type := TOKEN_IDENTIFIER; tok_lexeme := lit "returning";
               tok_line := 1; tok_column := 1;
               tok_value := value_unset |}, l') /\
    reads (create_lexer (lit "returning x")) (lit "returning") l' /\
    unread l' = lit " x".
Proof.
  apply (identifier_maximal_munch (create_lexer (lit "returning x"))
           "r"%char (lit "eturning") (lit " x")).
  - wf_by_computation.
  - reflexivity.
  - reflexivity.
  - reflexivity.
  - reflexivity.
Defined.

Lemma streq_refl_keyword k :
  In k (map fst keywords) -> strdup k = k.
Proof.
  simpl. intros H.
  repeat (destruct H as [<- | H]; [reflexivity |]). contradiction.
Qed.

(** X6: the keyword table is exact.  Each of the thirteen keywords is
    looked up as its own kind, a string that is none of them is an
    identifier, and no lookup yields ERROR or EOF. *)
Theorem lookup_keyword_exact :
  (forall k ty, In (k, ty) keywords -> lookup_keyword k = ty) /\
  (forall s, ~ In (strdup s) (map fst keywords) ->
             lookup_keyword s = TOKEN_IDENTIFIER) /\
  (forall s, lookup_keyword s <> TOKEN_IDENTIFIER ->
             In (strdup s, lookup_keyword s) keywords) /\
  (forall s, lookup_keyword s <> TOKEN_ERROR /\ lookup_keyword s <> TOKEN_EOF).
Proof.
  split; [| split; [| split]].
  - intros k ty H. simpl in H.
    repeat (destruct H as [H | H]; [inversion H; subst; reflexivity |]).
    contradiction.
  - intros s H. unfold lookup_keyword.
    destruct (lookup_in_range keywords s) as [E | (k & Hin & E)]; [exact E |].
    exfalso. apply H. unfold streq in E.
    destruct (list_eq_dec ascii_dec (strdup s) (strdup k)) as [Eq |];
      [| discriminate].
    assert (Hk : In k (map fst keywords)).
    { apply in_map_iff. exists (k, lookup_in keywords s). auto. }
    rewrite Eq, (streq_refl_keyword k Hk). exact Hk.
  - intros s H. unfold lookup_keyword in *.
    destruct (lookup_in_range keywords s) as [E | (k & Hin & E)];
      [contradiction |].
    unfold streq in E.
    destruct (list_eq_dec ascii_dec (strdup s) (strdup k)) as [Eq |];
      [| discriminate].
    assert (Hk : In k (map fst keywords)).
    { apply in_map_iff. exists (k, lookup_in keywords s). auto. }
    rewrite Eq, (streq_refl_keyword k Hk). exact Hin.
  - exact lookup_keyword_not_special.
Qed.

Lemma lookup_keyword_exact_witness :
  lookup_keyword (lit "while") = TOKEN_WHILE /\
  lookup_keyword (lit "whilst") = TOKEN_IDENTIFIER.
Proof.
  destruct lookup_keyword_exact as (H1 & H2 & _). split.
  - apply H1. simpl. do 7 right. left. reflexivity.
  - apply H2. vm_compute. intuition discriminate.
Defined.

(** ** The names of the token kinds *)

(** X7: [token_type_to_string] gives different kinds different names, none
    of them the fallback name UNKNOWN, and the name of a keyword's kind is
    the keyword in capital letters. *)
Theorem token_names_distinct :
  (forall a b, token_type_to_string a = token_type_to_string b -> a = b) /\
  (forall a, token_type_to_string a <> "UNKNOWN"%string) /\
  (forall k ty, In (k, ty) keywords ->
     token_type_to_string ty = string_of_list_ascii (map toupper k)).
Proof.
  split; [| split].
  - intros a b. destruct a; destruct b; intros H;
      first [reflexivity | discriminate H].
  - intros a. destruct a; discriminate.
  - intros k ty H. simpl in H.
    repeat (destruct H as [H | H]; [inversion H; subst; reflexivity |]).
    contradiction.
Qed.

Lemma token_names_distinct_witness :
  TOKEN_LE = TOKEN_LE /\
  token_type_to_string TOKEN_RETURN = "RETURN"%string.
Proof.
  destruct token_names_distinct as (H1 & _ & H3). split.
  - apply H1. reflexivity.
  - apply (H3 (lit "return") TOKEN_RETURN). simpl. do 9 right. left.
    reflexivity.
Defined.

(** ** Numbers *)

Lemma stops_weaken (p q : ascii -> bool) r :
  (forall c, p c = false -> q c = false) -> stops p r -> stops q r.
Proof. intros H. destruct r; simpl; auto. Qed.

Lemma stops_hd_false p r : p NUL = false -> stops p r -> p (hd NUL r) = false.
Proof. intros H0 H. destruct r; simpl; assumption. Qed.

Lemma number_dispatch l d rest :
  wf_lexer l -> unread l = d :: rest -> isdigit d = true ->
  get_next_token l = read_number l.
Proof.
  intros W U Hd.
  destruct (unread_cons l _ _ W U) as (Hcur & A & _).
  destruct (digit_dispatch d Hd) as (D1 & D2 & D3 & _).
  unfold get_next_token, budget. cbn [get_next_token_loop].
  rewrite A, Hcur, D1, D2, D3, Hd. reflexivity.
Qed.

Lemma digit_facts c :
  isdigit c = true ->
  digit_value c = Some (code c - 48) /\ 0 <= code c - 48 < 10 /\
  isspace c = false /\ (c =? "-")%char = false /\ (c =? "+")%char = false /\
  is_x c = false.
Proof.
  revert c. intros c.
  by_cases_on_char c; intros _; repeat split; try discriminate; reflexivity.
Qed.

Lemma strtoll_digits_dec ds :
  forallb isdigit ds = true ->
  forall acc,
    strtoll_digits 10 acc ds
    = fold_left (fun a c => 10 * a + (code c - 48)) ds acc.
Proof.
  induction ds as [| d ds IH]; intros H acc; cbn [strtoll_digits fold_left];
    [reflexivity |].
  simpl in H. apply andb_prop in H as [Hd Hs].
  destruct (digit_facts d Hd) as (-> & Hr & _).
  destruct (Z.ltb_spec (code d - 48) 10); [| lia].
  rewrite (IH Hs). f_equal. lia.
Qed.

Lemma fold_dec_nonneg ds :
  forallb isdigit ds = true ->
  forall acc, 0 <= acc ->
    0 <= fold_left (fun a c => 10 * a + (code c - 48)) ds acc.
Proof.
  induction ds as [| d ds IH]; intros H acc Hacc; cbn [fold_left];
    [exact Hacc |].
  simpl in H. apply andb_prop in H as [Hd Hs].
  destruct (digit_facts d Hd) as (_ & Hr & _).
  apply (IH Hs). lia.
Qed.

Lemma atoll_digits ds :
  ds <> [] -> forallb isdigit ds = true ->
  atoll ds = Z.min (base10_value ds) LLONG_MAX.
Proof.
  intros Hne Hd. destruct ds as [| d ds]; [congruence |].
  pose proof Hd as Hd'. simpl in Hd'. apply andb_prop in Hd' as [H1 _].
  destruct (digit_facts d H1) as (_ & _ & Sp & Mi & Pl & _).
  unfold atoll, strtoll. cbn [skip_spaces]. rewrite Sp, Mi, Pl.
  cbn [Z.eqb]. rewrite (strtoll_digits_dec (d :: ds) Hd).
  apply clamp_nonneg. apply (fold_dec_nonneg (d :: ds) Hd). lia.
Qed.

(** The test for a hexadecimal prefix fails on a decimal number. *)
Lemma not_hex_prefix l d rest :
  wf_lexer l -> unread l = d :: rest ->
  (d = "0"%char -> is_x (hd NUL rest) = false) ->
  (current_char l =? "0")%char
  && ((peek l =? "x")%char || (peek l =? "X")%char) = false.
Proof.
  intros W U H.
  destruct (unread_cons l _ _ W U) as (-> & _ & -> & _).
  destruct (Ascii.eqb_spec d "0"); [| reflexivity].
  cbn [andb]. apply H. assumption.
Qed.

Lemma current_hd l : wf_lexer l -> current_char l = hd NUL (unread l).
Proof.
  intros W. destruct (unread l) as [| c r] eqn:U.
  - destruct (unread_nil l W U) as [A _]. apply Ascii.eqb_eq, A.
  - apply (unread_cons l c r W U).
Qed.

Lemma peek_hd l c r : wf_lexer l -> unread l = c :: r -> peek l = hd NUL r.
Proof. intros W U. apply (unread_cons l c r W U). Qed.

(** Neither a fraction nor an exponent begins at [l]. *)
Lemma no_fraction_no_exponent l f :
  wf_lexer l -> stops continues_number (unread l) ->
  read_fraction l = Some (false, l) /\ read_exponent f l = Some (f, l).
Proof.
  intros W H.
  pose proof (stops_hd_false continues_number _ eq_refl H) as K.
  rewrite <- (current_hd l W) in K. unfold continues_number in K.
  apply orb_false_elim in K as [K He2].
  apply orb_false_elim in K as [K He1].
  apply orb_false_elim in K as [_ Hdot].
  unfold read_fraction, read_exponent. rewrite Hdot, He1, He2. auto.
Qed.

(** X8: a decimal integer.  A run of digits that is not followed by a
    digit, a dot or an exponent mark, and that is not the zero of a
    hexadecimal prefix, is returned as an INT_CONST token with the digits as
    lexeme, whatever their value, and what follows the digits stays unread;
    when the decimal value of the digits fits a [long long], it is the value
    of the token. *)
Theorem decimal_integer (l : Lexer) (ds r : list ascii) :
  wf_lexer l ->
  unread l = ds ++ r ->
  ds <> [] -> forallb isdigit ds = true ->
  stops continues_number r ->
  (ds = ["0"%char] -> stops is_x r) ->
  exists l' v,
    get_next_token l
    = Some ({| tok_type := TOKEN_INT_CONST; tok_lexeme := ds;
               tok_line := line l; tok_column := column l;
               tok_value := int_value v |},
            l') /\
    reads l ds l' /\ unread l' = r /\
    (base10_value ds <= LLONG_MAX -> v = base10_value ds).
Proof.
  intros W U Hne Hd Hr Hx.
  assert (Hrd : stops isdigit r).
  { apply (stops_weaken continues_number); [| exact Hr].
    unfold continues_number. intros c H.
    repeat (apply orb_false_elim in H as [H _]). exact H. }
  destruct (advance_while_reads isdigit ds (budget l) l r W U Hd Hrd
              (unread_budget l _ _ W U)) as (l' & E & R & U').
  exists l', (Z.min (base10_value ds) LLONG_MAX).
  split; [| split; [exact R | split; [exact U' | apply Z.min_l]]].
  pose proof R as (W' & _).
  rewrite <- U' in Hr.
  destruct (no_fraction_no_exponent l' false W' Hr) as [Ef Ee].
  pose proof (atoll_digits ds Hne Hd) as Hv.
  destruct ds as [| d ds]; [congruence |].
  pose proof Hd as Hd'. simpl in Hd'. apply andb_prop in Hd' as [H1 H2].
  simpl in U. rewrite (number_dispatch l d _ W U H1).
  unfold read_number.
  rewrite (not_hex_prefix l d _ W U), E.
  - cbn [bind]. rewrite Ef. cbn [bind]. rewrite Ee. cbn [bind].
    unfold number_token. rewrite (reads_substr l _ l' W R).
    rewrite (create_token_no_NUL _ _ _ _ (reads_no_NUL l _ l' W R)).
    rewrite Hv. reflexivity.
  - intros ->. destruct ds as [| d2 ds].
    + apply (stops_hd_false is_x r eq_refl). apply Hx. reflexivity.
    + simpl in H2. apply andb_prop in H2 as [H2 _].
      apply (digit_facts d2 H2).
Qed.

Lemma decimal_integer_witness :
  (exists l' v,
     get_next_token (create_lexer (lit "123abc"))
     = Some ({| tok_type := TOKEN_INT_CONST; tok_lexeme := lit "123";
                tok_line := 1; tok_column := 1;
                tok_value := int_value v |}, l') /\
     reads (create_lexer (lit "123abc")) (lit "123") l' /\
     unread l' = lit "abc" /\
     (base10_value (lit "123") <= LLONG_MAX -> v = base10_value (lit "123")))
  /\
  (exists l' v,
     get_next_token (create_lexer (lit "99999999999999999999;"))
     = Some ({| tok_type := TOKEN_INT_CONST;
                tok_lexeme := lit "99999999999999999999";
                tok_line := 1; tok_column := 1;
                tok_value := int_value v |}, l') /\
     reads (create_lexer (lit "99999999999999999999;"))
       (lit "99999999999999999999") l' /\
     unread l' = lit ";" /\
     (base10_value (lit "99999999999999999999") <= LLONG_MAX ->
      v = base10_value (lit "99999999999999999999"))).
Proof.
  split.
  - apply (decimal_integer (create_lexer (lit "123abc")) (lit "123")
             (lit "abc")).
    + wf_by_computation.
    + reflexivity.
    + discriminate.
    + reflexivity.
    + reflexivity.
    + discriminate.
  - apply (decimal_integer (create_lexer (lit "99999999999999999999;"))
             (lit "99999999999999999999") (lit ";")).
    + wf_by_computation.
    + reflexivity.
    + discriminate.
    + reflexivity.
    + reflexivity.
    + discriminate.
Defined.

Lemma exponent_mark_facts e :
  is_exponent_mark e = true ->
  isdigit e = false /\ (e =? ".")%char = false /\ is_x e = false.
Proof. revert e. intros e. by_cases_on_char e; intros _; repeat split. Qed.

Lemma sign_facts s : is_sign s = true -> isdigit s = false.
Proof. revert s. intros s. by_cases_on_char s. Qed.

Lemma fraction_phase l fs r :
  wf_lexer l -> unread l = "."%char :: fs ++ r ->
  fs <> [] -> forallb isdigit fs = true -> stops isdigit r ->
  exists l',
    read_fraction l = Some (true, l') /\
    reads l ("."%char :: fs) l' /\ unread l' = r.
Proof.
  intros W U Hne Hd Hr.
  destruct (unread_cons l _ _ W U) as (Hcur & _ & Hpk & _ & R1 & U1).
  pose proof R1 as (W1 & _).
  destruct (advance_while_reads isdigit fs (budget (advance l)) (advance l) r
              W1 U1 Hd Hr (unread_budget _ _ _ W1 U1)) as (l' & E & R & U').
  exists l'. split; [| split; [apply (reads_trans _ _ _ _ _ R1 R) | exact U']].
  unfold read_fraction. rewrite Hcur, Hpk.
  destruct fs as [| d fs]; [congruence |].
  simpl in Hd. apply andb_prop in Hd as [H1 _].
  cbn [app hd]. rewrite H1. cbn [Ascii.eqb Bool.eqb andb].
  rewrite E. reflexivity.
Qed.

Lemma no_exponent l f :
  wf_lexer l -> stops is_exponent_mark (unread l) ->
  read_exponent f l = Some (f, l).
Proof.
  intros W H.
  pose proof (stops_hd_false is_exponent_mark _ eq_refl H) as K.
  rewrite <- (current_hd l W) in K. unfold is_exponent_mark in K.
  unfold read_exponent. rewrite K. reflexivity.
Qed.

Lemma no_fraction l :
  wf_lexer l -> (hd NUL (unread l) =? ".")%char = false ->
  read_fraction l = Some (false, l).
Proof.
  intros W H. rewrite <- (current_hd l W) in H.
  unfold read_fraction. rewrite H. reflexivity.
Qed.

Lemma exponent_phase l f e sg es r :
  wf_lexer l -> unread l = e :: sg ++ es ++ r ->
  is_exponent_mark e = true ->
  (sg = [] \/ exists s, sg = [s] /\ is_sign s = true) ->
  forallb isdigit es = true -> stops isdigit r ->
  (sg = [] -> es = [] -> stops is_sign r) ->
  exists l',
    read_exponent f l = Some (true, l') /\
    reads l (e :: sg ++ es) l' /\ unread l' = r.
Proof.
  intros W U He Hsg Hd Hr Hns.
  destruct (unread_cons l _ _ W U) as (Hcur & _ & _ & _ & R1 & U1).
  pose proof R1 as (W1 & _).
  unfold read_exponent. rewrite Hcur. fold (is_exponent_mark e). rewrite He.
  cbv zeta. fold (is_sign (current_char (advance l))).
  rewrite (current_hd _ W1), U1.
  destruct Hsg as [-> | (s & -> & Hs)]; cbn [app hd] in *.
  - (* no sign *)
    assert (Hno : is_sign (hd NUL (es ++ r)) = false).
    { destruct es as [| d es]; cbn [app hd].
      - apply (stops_hd_false is_sign r eq_refl). auto.
      - simpl in Hd. apply andb_prop in Hd as [H1 _].
        destruct (digit_facts d H1) as (_ & _ & _ & Mi & Pl & _).
        unfold is_sign. rewrite Mi, Pl. reflexivity. }
    rewrite Hno.
    destruct (advance_while_reads isdigit es (budget (advance l)) (advance l)
                r W1 U1 Hd Hr (unread_budget _ _ _ W1 U1))
      as (l' & E & R & U').
    rewrite E. cbn [bind]. exists l'.
    split; [reflexivity |]. split; [| exact U'].
    apply (reads_trans _ [e] _ es _ R1 R).
  - (* a sign *)
    rewrite Hs.
    destruct (unread_cons _ _ _ W1 U1) as (_ & _ & _ & _ & R2 & U2).
    pose proof R2 as (W2 & _).
    destruct (advance_while_reads isdigit es (budget (advance (advance l)))
                (advance (advance l)) r W2 U2 Hd Hr
                (unread_budget _ _ _ W2 U2)) as (l' & E & R & U').
    rewrite E. cbn [bind]. exists l'.
    split; [reflexivity |]. split; [| exact U'].
    apply (reads_trans _ [e] _ (s :: es) _ R1).
    apply (reads_trans _ [s] _ es _ R2 R).
Qed.

(** The end of [read_number] for a floating constant read from [l] to
    [l']. *)
Lemma double_token l w l' :
  wf_lexer l -> reads l w l' ->
  number_token (line l) (column l) (pos l) true false l'
  = {| tok_type := TOKEN_DOUBLE_CONST; tok_lexeme := w;
       tok_line := line l; tok_column := column l;
       tok_value := double_value (atof w) |}.
Proof.
  intros W R. unfold number_token. rewrite (reads_substr l _ l' W R).
  rewrite (create_token_no_NUL _ _ _ _ (reads_no_NUL l _ l' W R)).
  reflexivity.
Qed.

(** X9: a floating constant with a fraction.  Digits, a dot and at least
    one more digit, not followed by a digit or an exponent mark, are returned
    as one DOUBLE_CONST token whose lexeme is all of them and whose value is
    [atof] of the lexeme. *)
Theorem fraction_literal (l : Lexer) (ds fs r : list ascii) :
  wf_lexer l ->
  unread l = ds ++ "."%char :: fs ++ r ->
  ds <> [] -> forallb isdigit ds = true ->
  fs <> [] -> forallb isdigit fs = true ->
  stops (fun c => isdigit c || is_exponent_mark c) r ->
  exists l',
    get_next_token l
    = Some ({| tok_type := TOKEN_DOUBLE_CONST;
               tok_lexeme := ds ++ "."%char :: fs;
               tok_line := line l; tok_column := column l;
               tok_value := double_value (atof (ds ++ "."%char :: fs)) |},
            l') /\
    reads l (ds ++ "."%char :: fs) l' /\ unread l' = r.
Proof.
  intros W U Hne Hd Hnf Hf Hr.
  assert (Hrd : stops isdigit r).
  { apply (stops_weaken _ _ r (fun c H => proj1 (orb_false_elim _ _ H)) Hr). }
  assert (Hre : stops is_exponent_mark r).
  { apply (stops_weaken _ _ r (fun c H => proj2 (orb_false_elim _ _ H)) Hr). }
  destruct (advance_while_reads isdigit ds (budget l) l _ W U Hd eq_refl
              (unread_budget l _ _ W U)) as (l1 & E1 & R1 & U1).
  pose proof R1 as (W1 & _).
  destruct (fraction_phase l1 fs r W1 U1 Hnf Hf Hrd) as (l2 & E2 & R2 & U2).
  pose proof R2 as (W2 & _).
  rewrite <- U2 in Hre.
  pose proof (reads_trans _ _ _ _ _ R1 R2) as R.
  exists l2. split; [| split; assumption].
  destruct ds as [| d ds]; [congruence |].
  pose proof Hd as Hd'. simpl in Hd'. apply andb_prop in Hd' as [H1 H2].
  simpl in U. rewrite (number_dispatch l d _ W U H1).
  unfold read_number.
  rewrite (not_hex_prefix l d _ W U), E1.
  - cbn [bind]. rewrite E2. cbn [bind].
    rewrite (no_exponent l2 true W2 Hre). cbn [bind].
    rewrite (double_token l _ l2 W R). reflexivity.
  - intros _. destruct ds as [| d2 ds]; [reflexivity |].
    simpl in H2. apply andb_prop in H2 as [H2 _].
    apply (digit_facts d2 H2).
Qed.

Lemma fraction_literal_witness :
  exists l',
    get_next_token (create_lexer (lit "3.14159;"))
    = Some ({| tok_type := TOKEN_DOUBLE_CONST; tok_lexeme := lit "3.14159";
               tok_line := 1; tok_column := 1;
               tok_value := double_value (atof (lit "3.14159")) |}, l') /\
    reads (create_lexer (lit "3.14159;")) (lit "3.14159") l' /\
    unread l' = lit ";".
Proof.
  apply (fraction_literal (create_lexer (lit "3.14159;")) (lit "3")
           (lit "14159") (lit ";")).
  - wf_by_computation.
  - reflexivity.
  - discriminate.
  - reflexivity.
  - discriminate.
  - reflexivity.
  - reflexivity.
Defined.

(** X10: the exponent is taken as soon as its mark is seen.  Digits, an
    optional fraction, [e] or [E], an optional sign and the digits that
    follow, if there are any, are returned as one DOUBLE_CONST token: the
    exponent may lack its digits. *)
Theorem exponent_literal (l : Lexer) (ds frac sg es r : list ascii) (e : ascii) :
  wf_lexer l ->
  unread l = ds ++ frac ++ e :: sg ++ es ++ r ->
  ds <> [] -> forallb isdigit ds = true ->
  (frac = [] \/
   exists fs, frac = "."%char :: fs /\ fs <> [] /\ forallb isdigit fs = true) ->
  is_exponent_mark e = true ->
  (sg = [] \/ exists s, sg = [s] /\ is_sign s = true) ->
  forallb isdigit es = true -> stops isdigit r ->
  (sg = [] -> es = [] -> stops is_sign r) ->
  exists l',
    get_next_token l
    = Some ({| tok_type := TOKEN_DOUBLE_CONST;
               tok_lexeme := ds ++ frac ++ e :: sg ++ es;
               tok_line := line l; tok_column := column l;
               tok_value :=
                 double_value (atof (ds ++ frac ++ e :: sg ++ es)) |}, l') /\
    reads l (ds ++ frac ++ e :: sg ++ es) l' /\ unread l' = r.
Proof.
  intros W U Hne Hd Hfrac He Hsg Hes Hr Hns.
  destruct (exponent_mark_facts e He) as (Ed & Edot & Ex).
  assert (Hstop : stops isdigit (frac ++ e :: sg ++ es ++ r)).
  { destruct Hfrac as [-> | (fs & -> & _)]; [exact Ed | reflexivity]. }
  destruct (advance_while_reads isdigit ds (budget l) l _ W U Hd Hstop
              (unread_budget l _ _ W U)) as (l1 & E1 & R1 & U1).
  pose proof R1 as (W1 & _).
  assert (F : exists l2, read_fraction l1 = Some (negb (match frac with [] => true | _ => false end), l2) /\
                         reads l1 frac l2 /\
                         unread l2 = e :: sg ++ es ++ r).
  { destruct Hfrac as [-> | (fs & -> & Hnf & Hf)].
    - exists l1. split; [| split; [apply reads_nil, W1 | exact U1]].
      apply (no_fraction l1 W1). rewrite U1. exact Edot.
    - cbn [app] in U1.
      destruct (fraction_phase l1 fs _ W1 U1 Hnf Hf Ed) as (l2 & E2 & R2 & U2).
      exists l2. auto. }
  destruct F as (l2 & E2 & R2 & U2). pose proof R2 as (W2 & _).
  destruct (exponent_phase l2 (negb (match frac with [] => true | _ => false end))
              e sg es r W2 U2 He Hsg Hes Hr Hns)
    as (l3 & E3 & R3 & U3).
  pose proof (reads_trans _ _ _ _ _ R1 (reads_trans _ _ _ _ _ R2 R3)) as R.
  exists l3. split; [| split; assumption].
  destruct ds as [| d ds]; [congruence |].
  pose proof Hd as Hd'. simpl in Hd'. apply andb_prop in Hd' as [H1 H2].
  simpl in U. rewrite (number_dispatch l d _ W U H1).
  unfold read_number.
  rewrite (not_hex_prefix l d _ W U), E1.
  - cbn [bind]. rewrite E2. cbn [bind]. rewrite E3. cbn [bind].
    rewrite (double_token l _ l3 W R). reflexivity.
  - intros _. destruct ds as [| d2 ds].
    + destruct Hfrac as [-> | (fs & -> & _)]; [exact Ex | reflexivity].
    + simpl in H2. apply andb_prop in H2 as [H2 _].
      apply (digit_facts d2 H2).
Qed.

Lemma exponent_literal_witness :
  (exists l',
     get_next_token (create_lexer (lit "1.23e-5;"))
     = Some ({| tok_type := TOKEN_DOUBLE_CONST; tok_lexeme := lit "1.23e-5";
                tok_line := 1; tok_column := 1;
                tok_value := double_value (atof (lit "1.23e-5")) |}, l') /\
     reads (create_lexer (lit "1.23e-5;")) (lit "1.23e-5") l' /\
     unread l' = lit ";") /\
  (exists l',
     get_next_token (create_lexer (lit "7e+x"))
     = Some ({| tok_type := TOKEN_DOUBLE_CONST; tok_lexeme := lit "7e+";
                tok_line := 1; tok_column := 1;
                tok_value := double_value (atof (lit "7e+")) |}, l') /\
     reads (create_lexer (lit "7e+x")) (lit "7e+") l' /\
     unread l' = lit "x").
Proof.
  split.
  - apply (exponent_literal (create_lexer (lit "1.23e-5;")) (lit "1")
             (lit ".23") (lit "-") (lit "5") (lit ";") "e"%char).
    + wf_by_computation.
    + reflexivity.
    + discriminate.
    + reflexivity.
    + right. exists (lit "23"). repeat split; [discriminate].
    + reflexivity.
    + right. exists "-"%char. split; reflexivity.
    + reflexivity.
    + reflexivity.
    + discriminate.
  - apply (exponent_literal (create_lexer (lit "7e+x")) (lit "7")
             [] (lit "+") [] (lit "x") "e"%char).
    + wf_by_computation.
    + reflexivity.
    + discriminate.
    + reflexivity.
    + left. reflexivity.
    + reflexivity.
    + right. exists "+"%char. split; reflexivity.
    + reflexivity.
    + reflexivity.
    + discriminate.
Defined.

(** ** String literals *)

Lemma dquote_dispatch l :
  wf_lexer l -> current_char l = dquote ->
  at_end l = false /\ get_next_token l = read_string l.
Proof.
  intros W Hc.
  assert (A : at_end l = false) by (unfold at_end; rewrite Hc; reflexivity).
  split; [exact A |].
  unfold get_next_token, budget. cbn [get_next_token_loop].
  rewrite A, Hc. reflexivity.
Qed.

(** X11: a string literal is closed or runs to the end of the input.  When
    the lookahead is a double quote, [get_next_token] returns either a
    STRING_CONST token whose lexeme is the text read, from the opening quote
    to a closing quote, without a value, or the ERROR token for an
    unterminated string, and then the scanner is at the end of the input. *)
Theorem string_or_error_at_end (l : Lexer) :
  wf_lexer l -> current_char l = dquote ->
  exists t l',
    get_next_token l = Some (t, l') /\
    ((tok_type t = TOKEN_STRING_CONST /\
      (exists mid, tok_lexeme t = dquote :: mid ++ [dquote]) /\
      reads l (tok_lexeme t) l' /\ tok_value t = value_unset)
     \/
     (t = {| tok_type := TOKEN_ERROR; tok_lexeme := unterminated_string_msg;
             tok_line := line l; tok_column := column l;
             tok_value := value_unset |} /\
      pos l' = len l')).
Proof.
  intros W Hc. destruct (dquote_dispatch l W Hc) as [A ->].
  destruct (not_at_end_unread l W A) as (r & U). rewrite Hc in U.
  destruct (unread_cons l _ _ W U) as (_ & _ & _ & _ & R1 & _).
  pose proof R1 as (W1 & _).
  destruct (read_string_loop_total _ _ (proj1 W1) (budget_enough (advance l)))
    as (l1 & E1 & _).
  destruct (read_string_loop_steps _ _ _ E1) as [S1 C1].
  pose proof (steps_wf _ _ W1 S1) as Wl1.
  unfold read_string. rewrite E1. cbn [bind].
  destruct (Ascii.eqb_spec (current_char l1) dquote) as [Q | Q]; cbn [negb].
  - (* closed *)
    assert (Al1 : at_end l1 = false)
      by (unfold at_end; rewrite Q; reflexivity).
    destruct (not_at_end_unread l1 Wl1 Al1) as (r1 & U1'). rewrite Q in U1'.
    destruct (unread_cons l1 _ _ Wl1 U1') as (_ & _ & _ & _ & R3 & _).
    pose proof (steps_reads _ _ W1 S1) as R2.
    pose proof (reads_trans _ _ _ _ _ R1 (reads_trans _ _ _ _ _ R2 R3)) as R.
    do 2 eexists. split; [reflexivity |]. left.
    cbn [tok_type tok_value tok_lexeme create_token].
    rewrite (reads_substr l _ _ W R), (strdup_no_NUL _ (reads_no_NUL l _ _ W R)).
    split; [reflexivity |]. split; [eexists; reflexivity |].
    split; [exact R | reflexivity].
  - (* not closed *)
    do 2 eexists. split; [reflexivity |]. right.
    split; [reflexivity |].
    destruct C1 as [C1 | C1]; [| contradiction].
    apply (at_end_wf l1 Wl1 C1).
Qed.

Lemma string_or_error_at_end_witness :
  exists t l',
    get_next_token (create_lexer (dquote :: lit "Hello")) = Some (t, l') /\
    ((tok_type t = TOKEN_STRING_CONST /\
      (exists mid, tok_lexeme t = dquote :: mid ++ [dquote]) /\
      reads (create_lexer (dquote :: lit "Hello")) (tok_lexeme t) l' /\
      tok_value t = value_unset)
     \/
     (t = {| tok_type := TOKEN_ERROR; tok_lexeme := unterminated_string_msg;
             tok_line := 1; tok_column := 1; tok_value := value_unset |} /\
      pos l' = len l')).
Proof.
  apply (string_or_error_at_end (create_lexer (dquote :: lit "Hello"))).
  - wf_by_computation.
  - reflexivity.
Defined.

Lemma read_string_loop_body body :
  string_body body ->
  forall fuel l r,
    wf_lexer l -> unread l = body ++ dquote :: r ->
    (List.length body < fuel)%nat ->
    exists l', read_string_loop fuel l = Some l' /\
               reads l body l' /\ unread l' = dquote :: r.
Proof.
  induction 1 as [| c rest Hq Hb _ IH | c rest _ IH];
    intros fuel l r W U Hf;
    (destruct fuel as [| f]; [simpl in Hf; lia |]);
    cbn [read_string_loop]; cbn [app] in U.
  - destruct (unread_cons l _ _ W U) as (Hcur & A & _).
    rewrite A, Hcur. cbn. exists l.
    split; [reflexivity | split; [apply reads_nil, W | exact U]].
  - destruct (unread_cons l _ _ W U) as (Hcur & A & _ & _ & R1 & U1).
    rewrite A, Hcur.
    destruct (Ascii.eqb_spec c dquote); [contradiction |].
    destruct (Ascii.eqb_spec c backslash); [contradiction |].
    cbn [negb andb].
    destruct (IH f (advance l) r (proj1 R1) U1) as (l' & E & R & U');
      [simpl in Hf; lia |].
    exists l'. split; [exact E |]. split; [| exact U'].
    apply (reads_trans _ [c] _ rest _ R1 R).
  - destruct (unread_cons l _ _ W U) as (Hcur & A & _ & _ & R1 & U1).
    pose proof R1 as (W1 & _).
    destruct (unread_cons _ _ _ W1 U1) as (_ & A1 & _ & _ & R2 & U2).
    rewrite A, Hcur, A1. cbn.
    destruct (IH f (advance (advance l)) r (proj1 R2) U2) as (l' & E & R & U');
      [simpl in Hf; lia |].
    exists l'. split; [exact E |]. split; [| exact U'].
    apply (reads_trans _ [backslash] _ (c :: rest) _ R1).
    apply (reads_trans _ [c] _ rest _ R2 R).
Qed.

(** X12: escapes in strings.  A double quote, then characters other than
    the double quote and the backslash and backslashes each followed by any
    character, then a double quote, are returned as one STRING_CONST token;
    a quote after a backslash does not end the string, and the lexeme is the
    source text with its escapes as they are written. *)
Theorem string_literal (l : Lexer) (body r : list ascii) :
  wf_lexer l ->
  unread l = dquote :: body ++ dquote :: r ->
  string_body body ->
  exists l',
    get_next_token l
    = Some ({| tok_type := TOKEN_STRING_CONST;
               tok_lexeme := dquote :: body ++ [dquote];
               tok_line := line l; tok_column := column l;
               tok_value := value_unset |}, l') /\
    reads l (dquote :: body ++ [dquote]) l' /\ unread l' = r.
Proof.
  intros W U Hb.
  destruct (unread_cons l _ _ W U) as (Hc & _ & _ & _ & R1 & U1).
  destruct (dquote_dispatch l W Hc) as [A ->].
  pose proof R1 as (W1 & _).
  destruct (read_string_loop_body body Hb (budget (advance l)) (advance l) r
              W1 U1) as (l1 & E1 & R2 & U2).
  { apply (unread_budget _ _ _ W1 U1). }
  pose proof R2 as (W2 & _).
  destruct (unread_cons l1 _ _ W2 U2) as (Hc1 & _ & _ & _ & R3 & U3).
  pose proof (reads_trans _ _ _ _ _ R1 (reads_trans _ _ _ _ _ R2 R3)) as R.
  exists (advance l1). split; [| split; [exact R | exact U3]].
  unfold read_string. rewrite E1. cbn [bind]. rewrite Hc1.
  cbn [Ascii.eqb Bool.eqb negb].
  rewrite (reads_substr l _ _ W R).
  rewrite (create_token_no_NUL _ _ _ _ (reads_no_NUL l _ _ W R)).
  reflexivity.
Qed.

Lemma string_literal_witness :
  exists l',
    get_next_token
      (create_lexer (dquote :: lit "a" ++ backslash :: dquote :: lit "b" ++ dquote :: lit ";"))
    = Some ({| tok_type := TOKEN_STRING_CONST;
               tok_lexeme := dquote :: (lit "a" ++ backslash :: dquote :: lit "b")
                             ++ [dquote];
               tok_line := 1; tok_column := 1;
               tok_value := value_unset |}, l') /\
    reads (create_lexer
             (dquote :: lit "a" ++ backslash :: dquote :: lit "b" ++ dquote :: lit ";"))
          (dquote :: (lit "a" ++ backslash :: dquote :: lit "b") ++ [dquote]) l' /\
    unread l' = lit ";".
Proof.
  apply (string_literal
           (create_lexer
              (dquote :: lit "a" ++ backslash :: dquote :: lit "b" ++ dquote :: lit ";"))
           (lit "a" ++ backslash :: dquote :: lit "b") (lit ";")).
  - wf_by_computation.
  - reflexivity.
  - apply body_plain; [discriminate | discriminate |].
    apply body_escape. apply body_plain; [discriminate | discriminate |].
    apply body_nil.
Defined.

(** ** Character literals *)

Lemma squote_dispatch l :
  wf_lexer l -> current_char l = squote ->
  at_end l = false /\ get_next_token l = Some (read_char l).
Proof.
  intros W Hc.
  assert (A : at_end l = false) by (unfold at_end; rewrite Hc; reflexivity).
  split; [exact A |].
  unfold get_next_token, budget. cbn [get_next_token_loop].
  rewrite A, Hc. reflexivity.
Qed.

Lemma unescape_chain c :
  (if (c =? "n")%char then "010"%char
   else if (c =? "t")%char then "009"%char
   else if (c =? "r")%char then "013"%char
   else if (c =? backslash)%char then backslash
   else if (c =? squote)%char then squote
   else if (c =? "0")%char then NUL
   else c) = unescape c.
Proof. revert c. intros c. by_cases_on_char c. Qed.

(** X13: character literals.  A quote, one character that is neither a
    backslash nor a quote, and a quote are returned as a CHAR_CONST token
    with that character as value.  A quote, a backslash, one character and a
    quote are returned as a CHAR_CONST token whose value is the escape of
    the character: LF, TAB, CR, backslash, quote and NUL for [n], [t], [r],
    backslash, quote and [0], and the character itself otherwise.  The
    lexeme is the source text in both cases. *)
Theorem char_literal :
  (forall (l : Lexer) (c : ascii) (r : list ascii),
     wf_lexer l ->
     unread l = squote :: c :: squote :: r ->
     c <> backslash -> c <> squote ->
     exists l',
       get_next_token l
       = Some ({| tok_type := TOKEN_CHAR_CONST;
                  tok_lexeme := [squote; c; squote];
                  tok_line := line l; tok_column := column l;
                  tok_value := char_value c |}, l') /\
       reads l [squote; c; squote] l' /\ unread l' = r) /\
  (forall (l : Lexer) (c : ascii) (r : list ascii),
     wf_lexer l ->
     unread l = squote :: backslash :: c :: squote :: r ->
     exists l',
       get_next_token l
       = Some ({| tok_type := TOKEN_CHAR_CONST;
                  tok_lexeme := [squote; backslash; c; squote];
                  tok_line := line l; tok_column := column l;
                  tok_value := char_value (unescape c) |}, l') /\
       reads l [squote; backslash; c; squote] l' /\ unread l' = r).
Proof.
  split.
  - intros l c r W U Nb Nq.
    destruct (unread_cons l _ _ W U) as (Hc & _ & _ & _ & R1 & U1).
    destruct (squote_dispatch l W Hc) as [_ ->].
    pose proof R1 as (W1 & _).
    destruct (unread_cons _ _ _ W1 U1) as (Hc1 & A1 & _ & _ & R2 & U2).
    pose proof R2 as (W2 & _).
    destruct (unread_cons _ _ _ W2 U2) as (Hc2 & _ & _ & _ & R3 & U3).
    pose proof (reads_trans _ _ _ _ _ R1 (reads_trans _ _ _ _ _ R2 R3)) as R.
    cbn [app] in R.
    exists (advance (advance (advance l))). split; [| split; assumption].
    unfold read_char. rewrite Hc1, A1.
    destruct (Ascii.eqb_spec c backslash); [contradiction |].
    destruct (Ascii.eqb_spec c squote); [contradiction |].
    cbn [negb andb]. cbv beta iota zeta. rewrite Hc2, Ascii.eqb_refl.
    cbn [negb].
    rewrite (reads_substr l _ _ W R).
    unfold set_value. cbn [tok_type tok_line tok_column tok_lexeme create_token].
    rewrite (strdup_no_NUL _ (reads_no_NUL l _ _ W R)). reflexivity.
  - intros l c r W U.
    destruct (unread_cons l _ _ W U) as (Hc & _ & _ & _ & R1 & U1).
    destruct (squote_dispatch l W Hc) as [_ ->].
    pose proof R1 as (W1 & _).
    destruct (unread_cons _ _ _ W1 U1) as (Hc1 & _ & _ & _ & R2 & U2).
    pose proof R2 as (W2 & _).
    destruct (unread_cons _ _ _ W2 U2) as (Hc2 & _ & _ & _ & R3 & U3).
    pose proof R3 as (W3 & _).
    destruct (unread_cons _ _ _ W3 U3) as (Hc3 & _ & _ & _ & R4 & U4).
    pose proof (reads_trans _ _ _ _ _ R1
                  (reads_trans _ _ _ _ _ R2
                     (reads_trans _ _ _ _ _ R3 R4))) as R.
    cbn [app] in R.
    exists (advance (advance (advance (advance l)))).
    split; [| split; assumption].
    unfold read_char. rewrite Hc1, Ascii.eqb_refl.
    cbv beta iota zeta. rewrite Hc2, Hc3, Ascii.eqb_refl.
    cbn [negb].
    rewrite (unescape_chain c), (reads_substr l _ _ W R).
    unfold set_value. cbn [tok_type tok_line tok_column tok_lexeme create_token].
    rewrite (strdup_no_NUL _ (reads_no_NUL l _ _ W R)). reflexivity.
Qed.

Lemma char_literal_witness :
  (exists l',
     get_next_token (create_lexer (lit "'A';"))
     = Some ({| tok_type := TOKEN_CHAR_CONST; tok_lexeme := lit "'A'";
                tok_line := 1; tok_column := 1;
                tok_value := char_value "A" |}, l') /\
     reads (create_lexer (lit "'A';")) (lit "'A'") l' /\ unread l' = lit ";") /\
  (exists l',
     get_next_token (create_lexer (lit "'\n';"))
     = Some ({| tok_type := TOKEN_CHAR_CONST; tok_lexeme := lit "'\n'";
                tok_line := 1; tok_column := 1;
                tok_value := char_value "010" |}, l') /\
     reads (create_lexer (lit "'\n';")) (lit "'\n'") l' /\ unread l' = lit ";").
Proof.
  split.
  - apply (proj1 char_literal (create_lexer (lit "'A';")) "A"%char (lit ";")).
    + wf_by_computation.
    + reflexivity.
    + discriminate.
    + discriminate.
  - apply (proj2 char_literal (create_lexer (lit "'\n';")) "n"%char (lit ";")).
    + wf_by_computation.
    + reflexivity.
Defined.

Lemma advance_pos_le l : (pos (advance l) <= S (pos l))%nat.
Proof.
  unfold advance. destruct (Nat.ltb_spec (pos l) (len l)); [| lia].
  destruct (current_char l =? "010")%char; simpl; lia.
Qed.

Lemma read_char_pos l :
  (pos (snd (read_char l)) <= pos l + 4)%nat /\
  (tok_type (fst (read_char l)) = TOKEN_ERROR ->
   (pos (snd (read_char l)) <= pos l + 3)%nat).
Proof.
  pose proof (advance_pos_le l).
  pose proof (advance_pos_le (advance l)).
  pose proof (advance_pos_le (advance (advance l))).
  pose proof (advance_pos_le (advance (advance (advance l)))).
  unfold read_char.
  destruct (current_char (advance l) =? backslash)%char.
  - destruct (negb (current_char (advance (advance (advance l))) =? squote)%char);
      cbn [fst snd]; split; try lia; intros; try discriminate; lia.
  - destruct (negb (at_end (advance l))
              && negb (current_char (advance l) =? squote)%char).
    + destruct (negb (current_char (advance (advance l)) =? squote)%char);
        cbn [fst snd]; split; try lia; intros; try discriminate; lia.
    + destruct (negb (current_char (advance l) =? squote)%char);
        cbn [fst snd]; split; try lia; intros; try discriminate; lia.
Qed.

(** X14: a character literal reads little.  When the lookahead is a quote,
    [get_next_token] returns a CHAR_CONST token whose lexeme is the text
    read, at most four characters, or the ERROR token for an unterminated
    character constant after reading at least one and at most three
    characters, so that scanning goes on right after them. *)
Theorem char_literal_bounded (l : Lexer) :
  wf_lexer l -> current_char l = squote ->
  exists t l',
    get_next_token l = Some (t, l') /\
    (pos l < pos l')%nat /\
    ((tok_type t = TOKEN_CHAR_CONST /\ reads l (tok_lexeme t) l' /\
      (List.length (tok_lexeme t) <= 4)%nat)
     \/
     (tok_type t = TOKEN_ERROR /\ tok_lexeme t = unterminated_char_msg /\
      tok_line t = line l /\ tok_column t = column l /\
      (pos l' <= pos l + 3)%nat)).
Proof.
  intros W Hc. destruct (squote_dispatch l W Hc) as [A ->].
  destruct (read_char_token l W A) as [(S & Hln & Hcol & HL & _ & HP) Ty].
  destruct (read_char_pos l) as [P4 P3].
  destruct (read_char l) as [t l'] eqn:E. cbn [fst snd] in *.
  exists t, l'. split; [reflexivity |].
  assert (Hp : (pos l < pos l')%nat)
    by (apply HP; destruct Ty as [-> | ->]; discriminate).
  split; [exact Hp |].
  destruct Ty as [Ty | Ty].
  - left. split; [exact Ty |].
    pose proof (steps_reads l l' W S) as R.
    rewrite HL by (rewrite Ty; discriminate).
    split; [exact R |]. destruct R as (_ & _ & _ & P & _). lia.
  - right. split; [exact Ty |].
    split; [| split; [exact Hln | split; [exact Hcol | apply P3, Ty]]].
    revert Ty. clear - E. unfold read_char in E.
    repeat match type of E with
           | context [if ?b then _ else _] => destruct b
           end;
      inversion E; subst; cbn; intros; try discriminate; reflexivity.
Qed.

Lemma char_literal_bounded_witness :
  exists t l',
    get_next_token (create_lexer (lit "'ab'")) = Some (t, l') /\
    (0 < pos l')%nat /\
    ((tok_type t = TOKEN_CHAR_CONST /\
      reads (create_lexer (lit "'ab'")) (tok_lexeme t) l' /\
      (List.length (tok_lexeme t) <= 4)%nat)
     \/
     (tok_type t = TOKEN_ERROR /\ tok_lexeme t = unterminated_char_msg /\
      tok_line t = 1 /\ tok_column t = 1 /\
      (pos l' <= 3)%nat)).
Proof.
  apply (char_literal_bounded (create_lexer (lit "'ab'"))).
  - wf_by_computation.
  - reflexivity.
Defined.

(** ** Operators and illegal characters *)

Lemma operator_dispatch l :
  at_end l = false ->
  begins_other_token (current_char l) = false ->
  (current_char l =? "/")%char
  && ((peek l =? "/")%char || (peek l =? "*")%char) = false ->
  get_next_token l = Some (read_operator l).
Proof.
  intros A B C. unfold get_next_token, budget. cbn [get_next_token_loop].
  rewrite A. cbn [negb]. unfold begins_other_token in B.
  do 5 (apply orb_false_elim in B; destruct B as [B ?]).
  destruct (isalpha (current_char l) || (current_char l =? "_")%char) eqn:E.
  { apply orb_prop in E. destruct E; congruence. }
  repeat match goal with
         | H : ?x = false |- context [?x] => rewrite H
         end.
  destruct (current_char l =? "/")%char; cbn [andb orb] in *;
    [| reflexivity].
  apply orb_false_elim in C. destruct C as [-> ->]. reflexivity.
Qed.

Ltac split_orb :=
  repeat match goal with
         | H : _ || _ = false |- _ =>
             apply orb_false_elim in H; destruct H
         end.

Ltac use_false :=
  repeat match goal with
         | H : ?x = false |- context [?x] => rewrite H
         end.

Lemma pairs_with_comment a b :
  pairs_with a b = false ->
  (a =? "/")%char && ((b =? "/")%char || (b =? "*")%char) = false.
Proof. unfold pairs_with. intros H. split_orb. assumption. Qed.

Lemma operator_char_dispatch a ty :
  In (a, ty) one_char_ops -> begins_other_token a = false /\ a <> NUL.
Proof.
  intros H. cbv [one_char_ops In] in H.
  repeat (destruct H as [H | H];
          [inversion H; split; [reflexivity | discriminate] |]).
  destruct H.
Qed.

Lemma pair_dispatch a b ty :
  In (a, b, ty) two_char_ops ->
  begins_other_token a = false /\ a <> NUL /\ b <> NUL /\
  (a =? "/")%char = false.
Proof.
  intros H. cbv [two_char_ops In] in H.
  repeat (destruct H as [H | H];
          [inversion H; repeat split; discriminate |]).
  destruct H.
Qed.

(** X15: operators.  Two characters that form one of the six operators of
    two characters are returned as that one token, never as two operators
    of one character.  One of the seventeen operator characters that does
    not form such a pair, or open a comment, with the character after it is
    returned as its own token.  The lexeme is the text read and the position
    is that of the first character. *)
Theorem operator_tokens :
  (forall (l : Lexer) (a b : ascii) (ty : TokenType) (r : list ascii),
     wf_lexer l -> unread l = a :: b :: r ->
     In (a, b, ty) two_char_ops ->
     exists l',
       get_next_token l
       = Some ({| tok_type := ty; tok_lexeme := [a; b];
                  tok_line := line l; tok_column := column l;
                  tok_value := value_unset |}, l') /\
       reads l [a; b] l' /\ unread l' = r) /\
  (forall (l : Lexer) (a : ascii) (ty : TokenType) (r : list ascii),
     wf_lexer l -> unread l = a :: r ->
     In (a, ty) one_char_ops ->
     pairs_with a (hd NUL r) = false ->
     exists l',
       get_next_token l
       = Some ({| tok_type := ty; tok_lexeme := [a];
                  tok_line := line l; tok_column := column l;
                  tok_value := value_unset |}, l') /\
       reads l [a] l' /\ unread l' = r).
Proof.
  split.
  - intros l a b ty r W U H.
    destruct (unread_cons l _ _ W U) as (Hc & A & Hp & _ & R1 & U1).
    pose proof R1 as (W1 & _).
    destruct (unread_cons _ _ _ W1 U1) as (_ & _ & _ & _ & R2 & U2).
    pose proof (reads_trans _ _ _ _ _ R1 R2) as R. cbn [app] in R.
    cbn [hd] in Hp.
    destruct (pair_dispatch a b ty H) as (B & _ & _ & C).
    exists (advance (advance l)). split; [| split; assumption].
    rewrite (operator_dispatch l A); rewrite ?Hc; [| exact B | rewrite C; reflexivity].
    unfold read_operator. rewrite Hc, Hp. clear - H.
    cbv [two_char_ops In] in H.
    repeat (destruct H as [H | H]; [inversion H; reflexivity |]).
    destruct H.
  - intros l a ty r W U H P.
    destruct (unread_cons l _ _ W U) as (Hc & A & Hp & _ & R & U1).
    destruct (operator_char_dispatch a ty H) as (B & _).
    exists (advance l). split; [| split; assumption].
    rewrite (operator_dispatch l A); rewrite ?Hc, ?Hp;
      [| exact B | apply pairs_with_comment, P].
    unfold read_operator. rewrite Hc, Hp.
    revert P. generalize (hd NUL r). clear - H. intros b P.
    cbv [two_char_ops pairs_with existsb fst snd] in P. split_orb.
    cbv [one_char_ops In] in H.
    repeat (destruct H as [H | H];
            [inversion H; subst; cbv zeta;
             repeat match goal with
                    | |- context [(b =? ?x)%char] => destruct (b =? x)%char
                    end;
             try discriminate; reflexivity |]).
    destruct H.
Qed.

Lemma operator_tokens_witness :
  (exists l',
     get_next_token (create_lexer (lit "<=1"))
     = Some ({| tok_type := TOKEN_LE; tok_lexeme := lit "<=";
                tok_line := 1; tok_column := 1;
                tok_value := value_unset |}, l') /\
     reads (create_lexer (lit "<=1")) (lit "<=") l' /\ unread l' = lit "1") /\
  (exists l',
     get_next_token (create_lexer (lit "<1"))
     = Some ({| tok_type := TOKEN_LT; tok_lexeme := lit "<";
                tok_line := 1; tok_column := 1;
                tok_value := value_unset |}, l') /\
     reads (create_lexer (lit "<1")) (lit "<") l' /\ unread l' = lit "1").
Proof.
  split.
  - apply (proj1 operator_tokens (create_lexer (lit "<=1"))
             "<"%char "="%char TOKEN_LE (lit "1")).
    + wf_by_computation.
    + reflexivity.
    + simpl. tauto.
  - apply (proj2 operator_tokens (create_lexer (lit "<1"))
             "<"%char TOKEN_LT (lit "1")).
    + wf_by_computation.
    + reflexivity.
    + simpl. tauto.
    + reflexivity.
Defined.

(** X16: illegal characters.  A character that begins no token (it is no
    white space, letter, underscore, digit or quote, no operator character,
    and forms no operator of two characters with the character after it; a
    single [&] or [|] is such a character) is answered by an ERROR token
    whose text names the character, at the character's position, and exactly
    that one character is read. *)
Theorem illegal_character (l : Lexer) (c : ascii) (r : list ascii) :
  wf_lexer l -> unread l = c :: r ->
  begins_other_token c = false ->
  is_operator_char c = false ->
  pairs_with c (hd NUL r) = false ->
  exists l',
    get_next_token l
    = Some ({| tok_type := TOKEN_ERROR; tok_lexeme := illegal_char_msg c;
               tok_line := line l; tok_column := column l;
               tok_value := value_unset |}, l') /\
    reads l [c] l' /\ unread l' = r.
Proof.
  intros W U B O P.
  destruct (unread_cons l _ _ W U) as (Hc & A & Hp & _ & R & U1).
  exists (advance l). split; [| split; assumption].
  rewrite (operator_dispatch l A); rewrite ?Hc, ?Hp;
    [| exact B | apply pairs_with_comment, P].
  assert (N : c <> NUL)
    by (apply (unread_no_NUL l c W); rewrite U; left; reflexivity).
  assert (NN : ~ In NUL (illegal_char_msg c)).
  { unfold illegal_char_msg. intros H. apply in_app_or in H.
    destruct H as [H | H]; [revert H; vm_compute; intuition discriminate |].
    apply in_app_or in H.
    destruct H as [[H | []] | H]; [congruence |].
    revert H; vm_compute; intuition discriminate. }
  unfold read_operator. rewrite Hc, Hp.
  rewrite (create_token_no_NUL TOKEN_ERROR _ (line l) (column l) NN).
  revert P O. generalize (hd NUL r). clear. intros b P O.
  cbv [two_char_ops pairs_with existsb fst snd] in P.
  cbv [one_char_ops is_operator_char existsb fst] in O.
  split_orb. cbv zeta. use_false. cbn [andb]. reflexivity.
Qed.

Lemma illegal_character_witness :
  exists l',
    get_next_token (create_lexer (lit "&x"))
    = Some ({| tok_type := TOKEN_ERROR; tok_lexeme := illegal_char_msg "&";
               tok_line := 1; tok_column := 1;
               tok_value := value_unset |}, l') /\
    reads (create_lexer (lit "&x")) (lit "&") l' /\ unread l' = lit "x".
Proof.
  apply (illegal_character (create_lexer (lit "&x")) "&"%char (lit "x")).
  - wf_by_computation.
  - reflexivity.
  - reflexivity.
  - reflexivity.
  - reflexivity.
Defined.

(** * More on the automata *)

(** ** State sets *)

Lemma grows_incl a b : grows a b -> incl a b.
Proof. intros [[e ->] _] s H. apply in_or_app; auto. Qed.

Lemma grows_count a b :
  grows a b -> count a <= MAX_STATES -> count b <= MAX_STATES.
Proof. intros [_ L]. unfold count, MAX_STATES in *. lia. Qed.

Lemma grows_antisym a b : grows a b -> grows b a -> b = a.
Proof.
  intros G1 G2. apply grows_same_length; [exact G1 |].
  apply grows_length, G2.
Qed.

Lemma state_set_add_In set x s :
  In s (state_set_add set x) -> In s set \/ s = x.
Proof.
  unfold state_set_add.
  destruct (negb (state_set_contains set x) && (count set <? MAX_STATES));
    [| auto].
  intros H. apply in_app_or in H. destruct H as [H | [H | []]]; auto.
Qed.

Lemma state_set_add_NoDup set x : NoDup set -> NoDup (state_set_add set x).
Proof.
  intros N. unfold state_set_add.
  destruct (state_set_contains set x) eqn:C; cbn [negb andb]; [exact N |].
  destruct (count set <? MAX_STATES); [| exact N].
  assert (~ In x set) as NI
      by (rewrite <- state_set_contains_In; congruence).
  clear C. induction N as [| y r Hy N IH]; simpl.
  - constructor; [tauto | constructor].
  - constructor.
    + intros H. apply in_app_or in H. simpl in *. intuition (subst; tauto).
    + apply IH. simpl in NI. tauto.
Qed.

Lemma state_set_add_room set x :
  count (state_set_add set x) < MAX_STATES -> In x (state_set_add set x).
Proof.
  unfold state_set_add.
  destruct (state_set_contains set x) eqn:C; cbn [negb andb].
  - intros _. apply state_set_contains_In, C.
  - destruct (Z.ltb_spec (count set) MAX_STATES); [| lia].
    intros _. apply in_or_app. right. left. reflexivity.
Qed.

(** The loop over the transitions of [add_targets], on any list. *)
Lemma add_loop_grows state sym ts :
  forall set,
    grows set
      (fold_left
         (fun set t =>
            if (from_state t =? state) && (symbol t =? sym)
            then state_set_add set (to_state t) else set) ts set).
Proof.
  induction ts as [| t ts IH]; intros set; simpl; [apply grows_refl |].
  eapply grows_trans; [| apply IH].
  destruct ((from_state t =? state) && (symbol t =? sym));
    [apply state_set_add_grows | apply grows_refl].
Qed.

Lemma add_loop_sound state sym ts :
  forall set s,
    In s (fold_left
            (fun set t =>
               if (from_state t =? state) && (symbol t =? sym)
               then state_set_add set (to_state t) else set) ts set) ->
    In s set \/
    exists t, In t ts /\ from_state t = state /\ symbol t = sym /\
              to_state t = s.
Proof.
  induction ts as [| t ts IH]; intros set s; simpl; [auto |].
  intros H. apply IH in H. destruct H as [H | (t' & ? & ?)].
  - destruct ((from_state t =? state) && (symbol t =? sym)) eqn:E; [| auto].
    apply state_set_add_In in H. destruct H as [H | ->]; [auto |].
    apply andb_prop in E. destruct E as [E1 E2].
    apply Z.eqb_eq in E1. apply Z.eqb_eq in E2.
    right. exists t. auto.
  - right. exists t'. auto.
Qed.

Lemma add_loop_NoDup state sym ts :
  forall set,
    NoDup set ->
    NoDup (fold_left
             (fun set t =>
                if (from_state t =? state) && (symbol t =? sym)
                then state_set_add set (to_state t) else set) ts set).
Proof.
  induction ts as [| t ts IH]; intros set N; simpl; [exact N |].
  apply IH. destruct ((from_state t =? state) && (symbol t =? sym));
    [apply state_set_add_NoDup, N | exact N].
Qed.

Lemma add_loop_complete state sym ts :
  forall set t,
    count (fold_left
             (fun set t =>
                if (from_state t =? state) && (symbol t =? sym)
                then state_set_add set (to_state t) else set) ts set)
      < MAX_STATES ->
    In t ts -> from_state t = state -> symbol t = sym ->
    In (to_state t)
       (fold_left
          (fun set t =>
             if (from_state t =? state) && (symbol t =? sym)
             then state_set_add set (to_state t) else set) ts set).
Proof.
  induction ts as [| t0 ts IH]; intros set t C Hin Hf Hs; [destruct Hin |].
  simpl in *. destruct Hin as [-> | Hin]; [| apply IH; assumption].
  assert (E : (from_state t =? state) && (symbol t =? sym) = true)
    by (rewrite Hf, Hs, !Z.eqb_refl; reflexivity).
  rewrite E in *.
  pose proof (add_loop_grows state sym ts (state_set_add set (to_state t)))
    as G.
  apply (grows_incl _ _ G). apply state_set_add_room.
  pose proof (grows_length _ _ G). unfold count in *. lia.
Qed.

Section Sets.

Variable nfa : NFA.

Lemma add_targets_sound state sym set s :
  In s (add_targets nfa state sym set) ->
  In s set \/
  exists t, In t (nfa_transitions nfa) /\ from_state t = state /\
            symbol t = sym /\ to_state t = s.
Proof. apply add_loop_sound. Qed.

Lemma add_targets_NoDup state sym set :
  NoDup set -> NoDup (add_targets nfa state sym set).
Proof. apply add_loop_NoDup. Qed.

Lemma add_targets_complete state sym set t :
  count (add_targets nfa state sym set) < MAX_STATES ->
  In t (nfa_transitions nfa) -> from_state t = state -> symbol t = sym ->
  In (to_state t) (add_targets nfa state sym set).
Proof. apply add_loop_complete. Qed.

Lemma move_loop_grows sym states :
  forall result,
    grows result
      (fold_left (fun result state => add_targets nfa state sym result)
                 states result).
Proof.
  induction states as [| x r IH]; intros result; simpl; [apply grows_refl |].
  eapply grows_trans; [apply add_targets_grows | apply IH].
Qed.

Lemma move_loop_sound sym states :
  forall result s,
    In s (fold_left (fun result state => add_targets nfa state sym result)
                    states result) ->
    In s result \/
    exists t, In t (nfa_transitions nfa) /\ In (from_state t) states /\
              symbol t = sym /\ to_state t = s.
Proof.
  induction states as [| x r IH]; intros result s; simpl; [auto |].
  intros H. apply IH in H. destruct H as [H | (t & ? & ? & ?)].
  - apply add_targets_sound in H.
    destruct H as [H | (t & ? & ? & ?)]; [auto |].
    right. exists t. auto.
  - right. exists t. auto.
Qed.

Lemma move_loop_NoDup sym states :
  forall result,
    NoDup result ->
    NoDup (fold_left (fun result state => add_targets nfa state sym result)
                     states result).
Proof.
  induction states as [| x r IH]; intros result N; simpl; [exact N |].
  apply IH, add_targets_NoDup, N.
Qed.

Lemma move_loop_complete sym states :
  forall result t,
    count (fold_left (fun result state => add_targets nfa state sym result)
                     states result) < MAX_STATES ->
    In t (nfa_transitions nfa) -> In (from_state t) states ->
    symbol t = sym ->
    In (to_state t)
       (fold_left (fun result state => add_targets nfa state sym result)
                  states result).
Proof.
  induction states as [| x r IH]; intros result t C Hin Hf Hs;
    [destruct Hf |].
  simpl in *. destruct Hf as [Hf | Hf]; [| apply IH; assumption].
  pose proof (move_loop_grows sym r (add_targets nfa x sym result)) as G.
  apply (grows_incl _ _ G). apply add_targets_complete; auto.
  pose proof (grows_length _ _ G). unfold count in *. lia.
Qed.

End Sets.

Lemma move_sound nfa states sym s :
  In s (move nfa states sym) ->
  exists t, In t (nfa_transitions nfa) /\ In (from_state t) states /\
            symbol t = sym /\ to_state t = s.
Proof.
  unfold move. intros H. apply move_loop_sound in H.
  destruct H as [[] | H]. exact H.
Qed.

(** X17: [move].  The result holds only targets of transitions on the
    symbol from a state of the argument, holds no state twice and at most
    MAX_STATES states; as long as it is not full, it holds every such
    target. *)
Theorem move_targets (nfa : NFA) (states : StateSet) (sym : Z) :
  NoDup (move nfa states sym) /\
  count (move nfa states sym) <= MAX_STATES /\
  (forall s,
     In s (move nfa states sym) ->
     exists t, In t (nfa_transitions nfa) /\ In (from_state t) states /\
               symbol t = sym /\ to_state t = s) /\
  (count (move nfa states sym) < MAX_STATES ->
   forall t,
     In t (nfa_transitions nfa) -> In (from_state t) states ->
     symbol t = sym ->
     In (to_state t) (move nfa states sym)).
Proof.
  unfold move. split; [apply move_loop_NoDup; constructor |].
  split; [| split].
  - apply (grows_count []); [apply move_loop_grows | unfold count, MAX_STATES; simpl; lia].
  - intros s H. apply move_loop_sound in H. destruct H as [[] | H]. exact H.
  - intros C t. apply move_loop_complete, C.
Qed.

Lemma state_set_equal_NoDup (a b : StateSet) :
  NoDup a -> NoDup b ->
  (state_set_equal a b = true <-> same_states a b).
Proof.
  intros Na Nb. unfold state_set_equal, count, same_states.
  destruct (Z.eqb_spec (Z.of_nat (List.length a)) (Z.of_nat (List.length b)))
    as [E | E]; cbn [negb].
  - rewrite forallb_forall. split.
    + intros H s. split.
      * intros Hin. apply state_set_contains_In, H, Hin.
      * apply (NoDup_length_incl Na); [lia |].
        intros x Hx. apply state_set_contains_In, H, Hx.
    + intros H x Hx. apply state_set_contains_In, H, Hx.
  - split; [discriminate |]. intros H. exfalso. apply E. f_equal.
    apply Nat.le_antisymm; apply NoDup_incl_length; trivial;
      intros x Hx; apply H, Hx.
Qed.

(** X18: [state_set_equal] on sets without repetitions is equality of
    sets: it answers true exactly when both hold the same states, in
    whatever order. *)
Theorem state_set_equal_same_states (a b : StateSet) :
  NoDup a -> NoDup b ->
  (state_set_equal a b = true <-> same_states a b).
Proof. apply state_set_equal_NoDup. Qed.

Lemma state_set_equal_same_states_witness :
  state_set_equal [1; 2; 3] [3; 1; 2] = true <->
  same_states [1; 2; 3] [3; 1; 2].
Proof.
  apply (state_set_equal_same_states [1; 2; 3] [3; 1; 2]).
  - repeat constructor; simpl; intuition lia.
  - repeat constructor; simpl; intuition lia.
Defined.

Lemma find_from_spec sets target :
  forall i,
    (find_from i sets target = -1 /\
     forall s, In s sets -> state_set_equal s target = false)
    \/
    (exists k,
       (k < List.length sets)%nat /\
       find_from i sets target = i + Z.of_nat k /\
       state_set_equal (nth k sets []) target = true /\
       forall j, (j < k)%nat ->
                 state_set_equal (nth j sets []) target = false).
Proof.
  induction sets as [| s r IH]; intros i; simpl.
  - left. split; [reflexivity | intros s []].
  - destruct (state_set_equal s target) eqn:E.
    + right. exists 0%nat. repeat split; try lia; try assumption.
    + destruct (IH (i + 1)) as [[H1 H2] | (k & Hk & H1 & H2 & H3)].
      * left. split; [exact H1 |]. intros s' [<- | H]; auto.
      * right. exists (S k). split; [lia |]. split; [lia |].
        split; [exact H2 |]. intros [| j] Hj; [exact E | apply H3; lia].
Qed.

(** X19: [find_state_set_index] among sets without repetitions returns the
    index of the first set of the list that holds the same states as the
    target, and -1 exactly when no set of the list does. *)
Theorem find_state_set_index_first (sets : list StateSet) (target : StateSet) :
  NoDup target -> (forall s, In s sets -> NoDup s) ->
  (find_state_set_index sets target = -1 /\
   forall s, In s sets -> ~ same_states s target)
  \/
  (exists k,
     (k < List.length sets)%nat /\
     find_state_set_index sets target = Z.of_nat k /\
     same_states (nth k sets []) target /\
     forall j, (j < k)%nat -> ~ same_states (nth j sets []) target).
Proof.
  intros Nt Ns.
  assert (F : forall s, In s sets ->
                state_set_equal s target = false -> ~ same_states s target).
  { intros s Hs E H.
    apply (state_set_equal_NoDup s target (Ns s Hs) Nt) in H. congruence. }
  destruct (find_from_spec sets target 0) as [[H1 H2] | (k & Hk & H1 & H2 & H3)].
  - left. split; [exact H1 |]. intros s Hs. apply (F s Hs), H2, Hs.
  - right. exists k. split; [exact Hk |]. split; [exact H1 |]. split.
    + apply state_set_equal_NoDup; [apply Ns, nth_In, Hk | exact Nt | exact H2].
    + intros j Hj. apply F; [apply nth_In; lia | apply H3, Hj].
Qed.

Lemma find_state_set_index_first_witness :
  (find_state_set_index [[0]; [1; 2]; [2; 1]] [2; 1] = -1 /\
   forall s, In s [[0]; [1; 2]; [2; 1]] -> ~ same_states s [2; 1])
  \/
  (exists k,
     (k < List.length [[0]; [1; 2]; [2; 1]])%nat /\
     find_state_set_index [[0]; [1; 2]; [2; 1]] [2; 1] = Z.of_nat k /\
     same_states (nth k [[0]; [1; 2]; [2; 1]] []) [2; 1] /\
     forall j, (j < k)%nat ->
               ~ same_states (nth j [[0]; [1; 2]; [2; 1]] []) [2; 1]).
Proof.
  apply (find_state_set_index_first [[0]; [1; 2]; [2; 1]] [2; 1]).
  - repeat constructor; simpl; intuition lia.
  - intros s H. simpl in H.
    destruct H as [<- | [<- | [<- | []]]];
      repeat constructor; simpl; intuition lia.
Defined.

(** ** epsilon_closure and the states reached without input *)

Section Reach.

Variable nfa : NFA.

Lemma closure_scan_grows fuel :
  forall i closure c,
    closure_scan fuel nfa i closure = Some c -> grows closure c.
Proof.
  induction fuel as [| f IH]; intros i closure c; [discriminate |].
  cbn [closure_scan]. destruct (i <? List.length closure)%nat.
  - intros H. eapply grows_trans; [apply add_targets_grows | apply (IH _ _ _ H)].
  - intros [= <-]. apply grows_refl.
Qed.

Lemma closure_scan_keeps (P : Z -> Prop) fuel :
  (forall t, In t (nfa_transitions nfa) -> symbol t = EPSILON ->
             P (from_state t) -> P (to_state t)) ->
  forall i closure c,
    closure_scan fuel nfa i closure = Some c ->
    (forall s, In s closure -> P s) -> forall s, In s c -> P s.
Proof.
  intros Step. induction fuel as [| f IH]; intros i closure c; [discriminate |].
  cbn [closure_scan]. destruct (Nat.ltb_spec i (List.length closure)) as [Hi | Hi].
  - intros H Hall. apply (IH _ _ _ H). intros s Hs.
    apply add_targets_sound in Hs.
    destruct Hs as [Hs | (t & Ht & Hf & Hsym & <-)]; [auto |].
    apply Step; trivial. rewrite Hf. apply Hall, nth_In, Hi.
  - intros [= <-] Hall. exact Hall.
Qed.

Lemma closure_loop_keeps (P : Z -> Prop) fuel :
  (forall t, In t (nfa_transitions nfa) -> symbol t = EPSILON ->
             P (from_state t) -> P (to_state t)) ->
  forall closure c,
    closure_loop fuel nfa closure = Some c ->
    (forall s, In s closure -> P s) -> forall s, In s c -> P s.
Proof.
  intros Step. induction fuel as [| f IH]; intros closure c; [discriminate |].
  cbn [closure_loop].
  destruct (closure_scan (scan_fuel closure) nfa 0 closure) as [c1 |] eqn:E;
    [| discriminate].
  cbn [bind]. intros H Hall.
  pose proof (closure_scan_keeps P _ Step _ _ _ E Hall) as Hall1.
  destruct (count c1 >? count closure).
  - apply (IH _ _ H Hall1).
  - injection H as <-. exact Hall1.
Qed.

Lemma closure_scan_NoDup fuel :
  forall i closure c,
    closure_scan fuel nfa i closure = Some c -> NoDup closure -> NoDup c.
Proof.
  induction fuel as [| f IH]; intros i closure c; [discriminate |].
  cbn [closure_scan]. destruct (i <? List.length closure)%nat.
  - intros H N. apply (IH _ _ _ H), add_targets_NoDup, N.
  - intros [= <-] N. exact N.
Qed.

Lemma closure_loop_NoDup fuel :
  forall closure c,
    closure_loop fuel nfa closure = Some c -> NoDup closure -> NoDup c.
Proof.
  induction fuel as [| f IH]; intros closure c; [discriminate |].
  cbn [closure_loop].
  destruct (closure_scan (scan_fuel closure) nfa 0 closure) as [c1 |] eqn:E;
    [| discriminate].
  cbn [bind]. intros H N.
  pose proof (closure_scan_NoDup _ _ _ _ E N) as N1.
  destruct (count c1 >? count closure).
  - apply (IH _ _ H N1).
  - injection H as <-. exact N1.
Qed.

(** A scan that changes nothing has found nothing to add at any index. *)
Lemma closure_scan_fixed fuel :
  forall i c,
    closure_scan fuel nfa i c = Some c ->
    forall j, (i <= j < List.length c)%nat ->
              add_targets nfa (nth j c 0) EPSILON c = c.
Proof.
  induction fuel as [| f IH]; intros i c; [discriminate |].
  cbn [closure_scan]. destruct (Nat.ltb_spec i (List.length c)) as [Hi | Hi];
    [| intros _ j Hj; lia].
  intros H j Hj.
  assert (E : add_targets nfa (nth i c 0) EPSILON c = c).
  { apply grows_antisym; [apply add_targets_grows |].
    apply (closure_scan_grows _ _ _ _ H). }
  rewrite E in H. destruct (Nat.eq_dec i j) as [<- | Hne]; [exact E |].
  apply (IH _ _ H). lia.
Qed.

Lemma scan_stable_closed c t :
  scan_stable nfa c -> count c < MAX_STATES ->
  In t (nfa_transitions nfa) -> symbol t = EPSILON ->
  In (from_state t) c -> In (to_state t) c.
Proof.
  intros St C Ht Hs Hf.
  destruct (In_nth c (from_state t) 0 Hf) as (j & Hj & E).
  pose proof (closure_scan_fixed _ _ _ St j ltac:(lia)) as F.
  rewrite <- F. apply add_targets_complete; auto.
  rewrite F. exact C.
Qed.

End Reach.

(** X20: [epsilon_closure] computes the states reached over epsilon
    transitions.  It returns for every NFA and set; every state of the
    result is reached from a state of the argument over epsilon transitions
    alone; when the result is not full (fewer than MAX_STATES states) it
    holds every state so reached; and a set without repetitions stays
    without repetitions. *)
Theorem epsilon_closure_reachable (nfa : NFA) (states : StateSet) :
  exists closure,
    epsilon_closure nfa states = Some closure /\
    (forall s, In s closure -> eps_reachable nfa states s) /\
    (count closure < MAX_STATES ->
     forall s, eps_reachable nfa states s -> In s closure) /\
    (NoDup states -> NoDup closure).
Proof.
  destruct (closure_loop_total nfa (S (S (Z.to_nat MAX_STATES))) states)
    as (c & E & G & St); [lia |].
  exists c. split; [exact E |]. split; [| split].
  - apply (closure_loop_keeps nfa (eps_reachable nfa states) _) with (2 := E).
    + intros t Ht Hs Hf. apply (eps_step nfa states (from_state t) t); auto.
    + intros s Hs. apply eps_here, Hs.
  - intros C s R. induction R as [s Hs | s t R IH Ht Hf Hs].
    + apply (grows_incl _ _ G), Hs.
    + apply (scan_stable_closed nfa c t St C Ht Hs). rewrite Hf. exact IH.
  - apply (closure_loop_NoDup nfa _ _ _ E).
Qed.

(** ** Arrays and tables *)

Lemma upto_In n s : In s (upto n) <-> 0 <= s < n.
Proof.
  unfold upto. rewrite in_map_iff. split.
  - intros (k & <- & H). apply in_seq in H. lia.
  - intros H. exists (Z.to_nat s). split; [lia |]. apply in_seq. lia.
Qed.

Lemma upto_NoDup n : NoDup (upto n).
Proof.
  unfold upto. generalize (seq_NoDup (Z.to_nat n) 0).
  induction 1 as [| k r Hk N IH]; simpl; constructor; [| exact IH].
  rewrite in_map_iff. intros (j & E & Hj).
  apply Nat2Z.inj in E. subst. contradiction.
Qed.

Lemma upto_length n : List.length (upto n) = Z.to_nat n.
Proof. unfold upto. rewrite length_map, length_seq. reflexivity. Qed.

Lemma update_length {A : Type} k (v : A) a :
  List.length (update k v a) = List.length a.
Proof.
  revert k. induction a as [| x r IH]; intros [| k]; simpl; auto.
Qed.

Lemma nth_update_same {A : Type} k (v : A) a d :
  (k < List.length a)%nat -> nth k (update k v a) d = v.
Proof.
  revert k. induction a as [| x r IH]; intros [| k] H; simpl in *;
    try lia; [reflexivity | apply IH; lia].
Qed.

Lemma nth_update_other {A : Type} k j (v : A) a d :
  j <> k -> nth j (update k v a) d = nth j a d.
Proof.
  revert k j. induction a as [| x r IH]; intros [| k] [| j] H; simpl;
    try reflexivity; try congruence.
  apply IH. congruence.
Qed.

Lemma array_get_update_same {A : Type} i (v : A) a d :
  0 <= i < count a -> array_get (update (Z.to_nat i) v a) i d = v.
Proof.
  unfold array_get, count. intros H.
  destruct (Z.ltb_spec i 0); [lia |]. apply nth_update_same. lia.
Qed.

Lemma array_get_update_other {A : Type} i j (v : A) a d :
  0 <= i -> j <> i ->
  array_get (update (Z.to_nat i) v a) j d = array_get a j d.
Proof.
  unfold array_get. intros Hi H.
  destruct (Z.ltb_spec j 0); [reflexivity |]. apply nth_update_other. lia.
Qed.

Lemma array_set_Some {A : Type} (a : list A) i v :
  0 <= i < count a -> array_set a i v = Some (update (Z.to_nat i) v a).
Proof.
  unfold array_set, count. intros H.
  destruct (Z.leb_spec 0 i); [| lia].
  destruct (Z.ltb_spec i (Z.of_nat (List.length a))); [| lia]. reflexivity.
Qed.

Lemma array_get_In {A : Type} (a : list A) i d :
  0 <= i < count a -> In (array_get a i d) a.
Proof.
  unfold array_get, count. intros H.
  destruct (Z.ltb_spec i 0); [lia |]. apply nth_In. lia.
Qed.

Lemma array_get_outside {A : Type} (a : list A) i d :
  ~ 0 <= i < count a -> array_get a i d = d.
Proof.
  unfold array_get, count. intros H.
  destruct (Z.ltb_spec i 0); [reflexivity |]. apply nth_overflow. lia.
Qed.

Lemma array_get_map_upto {A : Type} (f : Z -> A) n s d :
  0 <= s < n -> array_get (map f (upto n)) s d = f s.
Proof.
  intros H. unfold array_get. destruct (Z.ltb_spec s 0); [lia |].
  assert (L : (Z.to_nat s < List.length (upto n))%nat)
    by (rewrite upto_length; lia).
  rewrite (nth_indep _ d (f 0)) by (rewrite length_map; exact L).
  rewrite map_nth. f_equal. unfold upto.
  rewrite (nth_indep _ 0 (Z.of_nat 0)) by exact L.
  rewrite map_nth, seq_nth by lia. lia.
Qed.

Lemma In_update {A : Type} k (v : A) a x :
  In x (update k v a) -> x = v \/ In x a.
Proof.
  revert k. induction a as [| y r IH]; intros [| k]; simpl; try tauto.
  - intuition.
  - intros [H | H]; [auto |]. apply IH in H. tauto.
Qed.

Lemma empty_table_shaped : shaped empty_table.
Proof.
  split; [reflexivity |]. intros row H. apply repeat_spec in H. subst.
  reflexivity.
Qed.

Lemma table_get_empty state sym : table_get empty_table state sym = -1.
Proof.
  unfold table_get.
  destruct (Z.ltb_spec state 0) as [H | H];
    [unfold array_get at 2; destruct (Z.ltb_spec state 0); [| lia];
     unfold array_get; destruct (sym <? 0); [reflexivity | destruct (Z.to_nat sym); reflexivity] |].
  destruct (Z.ltb_spec state MAX_STATES) as [H1 | H1].
  - assert (E : array_get empty_table state [] = repeat (-1) (Z.to_nat MAX_ALPHABET)).
    { apply (repeat_spec (Z.to_nat MAX_STATES)). apply array_get_In.
      unfold count, empty_table. rewrite repeat_length. lia. }
    rewrite E. unfold array_get. destruct (sym <? 0); [reflexivity |].
    destruct (Nat.ltb_spec (Z.to_nat sym) (Z.to_nat MAX_ALPHABET)).
    + apply (repeat_spec (Z.to_nat MAX_ALPHABET)), nth_In.
      rewrite repeat_length. assumption.
    + apply nth_overflow. rewrite repeat_length. assumption.
  - rewrite (array_get_outside empty_table).
    + unfold array_get. destruct (sym <? 0); [reflexivity |].
      destruct (Z.to_nat sym); reflexivity.
    + unfold count, empty_table. rewrite repeat_length. lia.
Qed.

Lemma table_set_shaped t state sym v :
  shaped t -> 0 <= state < MAX_STATES -> 0 <= sym < MAX_ALPHABET ->
  exists t',
    table_set t state sym v = Some t' /\ shaped t' /\
    forall state' sym',
      table_get t' state' sym'
      = if (state' =? state) && (sym' =? sym) then v
        else table_get t state' sym'.
Proof.
  intros [L Rows] Hs Hc. unfold table_set.
  assert (Lr : count (array_get t state []) = MAX_ALPHABET)
    by (apply Rows, array_get_In; lia).
  rewrite (array_set_Some _ sym v) by lia. cbn [bind].
  rewrite (array_set_Some t state) by lia.
  eexists. split; [reflexivity |]. split.
  - split.
    + unfold count in *. rewrite update_length. exact L.
    + intros row H. apply In_update in H. destruct H as [-> | H]; [| auto].
      unfold count in *. rewrite update_length. exact Lr.
  - intros state' sym'. unfold table_get.
    destruct (Z.eqb_spec state' state) as [-> | Hne]; cbn [andb].
    + rewrite array_get_update_same by lia.
      destruct (Z.eqb_spec sym' sym) as [-> | Hne].
      * apply array_get_update_same. lia.
      * apply array_get_update_other; lia.
    + rewrite array_get_update_other by lia. reflexivity.
Qed.

(** ** The refinement of minimize_dfa *)

Lemma filter_flip {A : Type} (f g : A -> bool) l x :
  NoDup l -> In x l -> f x = true -> g x = false ->
  (forall y, y <> x -> In y l -> g y = f y) ->
  List.length (filter f l) = S (List.length (filter g l)).
Proof.
  induction 1 as [| a r Ha N IH]; intros Hin Hf Hg Hrest; [destruct Hin |].
  simpl. destruct Hin as [-> | Hin].
  - rewrite Hf, Hg. simpl. f_equal. f_equal. apply filter_ext_in.
    intros y Hy. symmetry. apply Hrest; [| right; exact Hy].
    intros ->. contradiction.
  - rewrite (Hrest a) by (try (intros ->; contradiction); left; reflexivity).
    assert (E : List.length (filter f r) = S (List.length (filter g r))).
    { apply IH; trivial. intros y Hy Hyr. apply Hrest; [exact Hy | right; exact Hyr]. }
    destruct (f a); simpl; lia.
Qed.

Lemma filter_tail {A : Type} (f : A -> bool) a r s1 others :
  filter f (a :: r) = s1 :: others -> incl others r.
Proof.
  simpl. destruct (f a).
  - intros [= _ <-] x Hx. apply filter_In in Hx. tauto.
  - intros E x Hx.
    assert (H : In x (filter f r)) by (rewrite E; right; exact Hx).
    apply filter_In in H. tauto.
Qed.

Lemma existsb_false {A : Type} (f : A -> bool) l x :
  existsb f l = false -> In x l -> f x = false.
Proof.
  intros E Hin. destruct (f x) eqn:F; [| reflexivity].
  rewrite <- E. symmetry. apply existsb_exists. eauto.
Qed.

Section Refine.

Variable d : DFA.
Hypothesis some_state : 1 <= num_states d.

Lemma upto_tail s1 others (f : Z -> bool) :
  filter f (upto (num_states d)) = s1 :: others ->
  forall s, In s others -> 0 < s.
Proof.
  intros F s Hs. unfold upto in F.
  destruct (Z.to_nat (num_states d)) as [| m] eqn:E; [lia |].
  cbn [seq map] in F. apply filter_tail in F. apply F in Hs.
  apply in_map_iff in Hs. destruct Hs as (k & <- & Hk).
  apply in_seq in Hk. lia.
Qed.

Lemma refined_bound P k :
  refined d P k -> 2 <= k <= num_states d + 1.
Proof.
  intros (_ & _ & _ & _ & Z0 & Cnt). unfold count in Cnt. split.
  - pose proof (filter_length_le (fun s => array_get P s 0 <? 2)
                  (upto (num_states d))) as L.
    rewrite upto_length in L. lia.
  - assert (H : In 0 (filter (fun s => array_get P s 0 <? 2)
                        (upto (num_states d)))).
    { apply filter_In. split; [apply upto_In; lia | apply Z.ltb_lt, Z0]. }
    destruct (filter _ _); [destruct H | simpl in Cnt; lia].
Qed.

Lemma refined_update P k s :
  refined d P k -> 0 < s < num_states d -> array_get P s 0 < 2 ->
  refined d (update (Z.to_nat s) k P) (k + 1).
Proof.
  intros R Hs Hlow. pose proof (refined_bound P k R) as [K2 _].
  destruct R as (Len & Rng & Fin & Sing & Z0 & Cnt).
  assert (Hc : 0 <= s < count P) by (unfold count; lia).
  assert (Same : array_get (update (Z.to_nat s) k P) s 0 = k)
    by (apply array_get_update_same, Hc).
  assert (Other : forall x, x <> s ->
            array_get (update (Z.to_nat s) k P) x 0 = array_get P x 0)
    by (intros x Hx; apply array_get_update_other; lia).
  unfold refined. rewrite update_length.
  split; [exact Len |]. split; [| split; [| split; [| split]]].
  - intros x Hx. destruct (Z.eq_dec x s) as [-> | Hne].
    + rewrite Same. lia.
    + rewrite (Other x Hne). specialize (Rng x Hx). lia.
  - intros x y Hx Hy.
    destruct (Z.eq_dec x s) as [-> | Nx], (Z.eq_dec y s) as [-> | Ny];
      rewrite ?Same, ?(Other x), ?(Other y) by assumption.
    + reflexivity.
    + intros E. specialize (Rng y Hy). lia.
    + intros E. specialize (Rng x Hx). lia.
    + apply Fin; assumption.
  - intros x y Hx Hy.
    destruct (Z.eq_dec x s) as [-> | Nx], (Z.eq_dec y s) as [-> | Ny];
      rewrite ?Same, ?(Other x), ?(Other y) by assumption.
    + reflexivity.
    + intros E. specialize (Rng y Hy). lia.
    + intros E. specialize (Rng x Hx). lia.
    + apply Sing; assumption.
  - rewrite (Other 0) by lia. exact Z0.
  - unfold count in *.
    rewrite (filter_flip (fun x => array_get P x 0 <? 2)
               (fun x => array_get (update (Z.to_nat s) k P) x 0 <? 2)
               (upto (num_states d)) s) in Cnt.
    + lia.
    + apply upto_NoDup.
    + apply upto_In. lia.
    + apply Z.ltb_lt, Hlow.
    + rewrite Same. apply Z.ltb_ge. lia.
    + intros y Hy _. rewrite (Other y Hy). reflexivity.
Qed.

Lemma distinguishable_agree P s1 s2 :
  distinguishable d P s1 s2 = false -> agree d P s1 s2.
Proof.
  intros D sym Hin. unfold distinguishable in D.
  pose proof (existsb_false _ _ sym D Hin) as F. cbv zeta in F.
  apply orb_false_elim in F. destruct F as [F1 F2].
  apply negb_false_iff, eqb_prop in F1.
  destruct (Z.eqb_spec (table_get (transition d) s1 sym) (-1)) as [E1 | N1],
           (Z.eqb_spec (table_get (transition d) s2 sym) (-1)) as [E2 | N2];
    try discriminate; split; try tauto.
  cbn [negb andb] in F2. apply negb_false_iff, Z.eqb_eq in F2.
  intros _. exact F2.
Qed.

Lemma agree_refl P s : agree d P s s.
Proof. intros sym _. split; [tauto | reflexivity]. Qed.

Lemma agree_sym P s1 s2 : agree d P s1 s2 -> agree d P s2 s1.
Proof.
  intros A sym Hin. destruct (A sym Hin) as [I E]. split; [tauto |].
  intros N. symmetry. apply E. tauto.
Qed.

Lemma agree_trans P s1 s2 s3 :
  agree d P s1 s2 -> agree d P s2 s3 -> agree d P s1 s3.
Proof.
  intros A B sym Hin. destruct (A sym Hin) as [I1 E1], (B sym Hin) as [I2 E2].
  split; [tauto |]. intros N. rewrite E1 by exact N. apply E2. tauto.
Qed.

Lemma stable_congruent P num :
  refined d P num -> stable d P (upto num) -> congruent d P.
Proof.
  intros R St s s' Hs Hs' E.
  destruct R as (_ & Rng & _).
  destruct (filter (fun i => array_get P i 0 =? array_get P s 0)
                   (upto (num_states d))) as [| s1 others] eqn:F.
  - exfalso.
    assert (H : In s (filter (fun i => array_get P i 0 =? array_get P s 0)
                        (upto (num_states d))))
      by (apply filter_In; split; [apply upto_In, Hs | apply Z.eqb_refl]).
    rewrite F in H. destruct H.
  - assert (A : forall x, 0 <= x < num_states d ->
                  array_get P x 0 = array_get P s 0 -> agree d P s1 x).
    { intros x Hx Ex.
      assert (H : In x (s1 :: others)).
      { rewrite <- F. apply filter_In.
        split; [apply upto_In, Hx | apply Z.eqb_eq, Ex]. }
      destruct H as [<- | H]; [apply agree_refl |].
      apply distinguishable_agree.
      apply (St (array_get P s 0) s1 others x); trivial.
      apply upto_In, Rng, Hs. }
    apply (agree_trans P s s1 s').
    + apply agree_sym, A; [exact Hs | reflexivity].
    + apply A; [exact Hs' | symmetry; exact E].
Qed.

Lemma initial_refined :
  refined d
    (map (fun i => if array_get (final_states d) i false then 1 else 0)
         (upto (num_states d)))
    2.
Proof.
  assert (G : forall s, 0 <= s < num_states d ->
            array_get
              (map (fun i => if array_get (final_states d) i false
                             then 1 else 0) (upto (num_states d))) s 0
            = if array_get (final_states d) s false then 1 else 0)
    by (intros s Hs; apply array_get_map_upto, Hs).
  unfold refined. rewrite length_map, upto_length.
  split; [reflexivity |]. split; [| split; [| split; [| split]]].
  - intros s Hs. rewrite (G s Hs).
    destruct (array_get (final_states d) s false); lia.
  - intros s s' Hs Hs'. rewrite (G s Hs), (G s' Hs').
    destruct (array_get (final_states d) s false),
             (array_get (final_states d) s' false);
      intros; try reflexivity; lia.
  - intros s s' Hs Hs'. rewrite (G s Hs).
    destruct (array_get (final_states d) s false); lia.
  - rewrite (G 0) by lia.
    destruct (array_get (final_states d) 0 false); lia.
  - rewrite forallb_filter_id.
    + unfold count. rewrite upto_length. lia.
    + apply forallb_forall. intros s Hs. apply upto_In in Hs.
      rewrite (G s Hs). apply Z.ltb_lt.
      destruct (array_get (final_states d) s false); lia.
Qed.

Section Pass.

Variable P : list Z.
Variable num : Z.
Hypothesis refined_P : refined d P num.

Lemma compare_fold s1 others :
  forall st,
    NoDup others ->
    (forall s, In s others -> 0 < s < num_states d /\ array_get P s 0 < 2) ->
    refined d (new_partition st) (next_partition_id st) ->
    (forall s, In s others ->
               array_get (new_partition st) s 0 = array_get P s 0) ->
    let st' :=
      fold_left
        (fun st s2 =>
           if distinguishable d P s1 s2
           then {| new_partition := update (Z.to_nat s2) (next_partition_id st)
                                      (new_partition st);
                   next_partition_id := next_partition_id st + 1;
                   changed := true |}
           else st)
        others st in
    refined d (new_partition st') (next_partition_id st') /\
    (forall s, ~ In s others ->
               array_get (new_partition st') s 0
               = array_get (new_partition st) s 0) /\
    (changed st' = false ->
     st' = st /\
     forall s2, In s2 others -> distinguishable d P s1 s2 = false) /\
    (changed st' = true ->
     changed st = true \/ next_partition_id st < next_partition_id st') /\
    next_partition_id st <= next_partition_id st'.
Proof.
  induction others as [| s2 rest IH]; intros st N Hin R Same; cbn zeta.
  - simpl. split; [exact R |]. split; [reflexivity |].
    split; [intros _; split; [reflexivity | intros s2 []] |].
    split; [auto | lia].
  - inversion N as [| ? ? Hnotin N']; subst. cbn [fold_left].
    destruct (distinguishable d P s1 s2) eqn:D.
    + set (st1 := {| new_partition := update (Z.to_nat s2) (next_partition_id st)
                                        (new_partition st);
                     next_partition_id := next_partition_id st + 1;
                     changed := true |}).
      destruct (Hin s2 (or_introl eq_refl)) as [Hs2 Hlow].
      assert (R1 : refined d (new_partition st1) (next_partition_id st1)).
      { apply refined_update; [exact R | exact Hs2 |].
        rewrite Same by (left; reflexivity). exact Hlow. }
      destruct (IH st1 N') as (R' & Keep & C0 & C1 & Le); trivial.
      * intros s Hs. apply Hin. right. exact Hs.
      * intros s Hs. cbn [st1 new_partition].
        rewrite array_get_update_other;
          [apply Same; right; exact Hs | lia | intros ->; contradiction].
      * cbn zeta in *. split; [exact R' |]. split; [| split; [| split]].
        -- intros s Hs. rewrite Keep by (intros H; apply Hs; right; exact H).
           cbn [st1 new_partition]. apply array_get_update_other; [lia |].
           intros ->. apply Hs. left. reflexivity.
        -- intros C. destruct (C0 C) as [E _]. rewrite E in C. discriminate.
        -- intros _. right. cbn [st1 next_partition_id] in Le. lia.
        -- cbn [st1 next_partition_id] in Le. lia.
    + destruct (IH st N') as (R' & Keep & C0 & C1 & Le); trivial.
      * intros s Hs. apply Hin. right. exact Hs.
      * intros s Hs. apply Same. right. exact Hs.
      * cbn zeta in *. split; [exact R' |]. split; [| split; [| split]];
          trivial.
        -- intros s Hs. apply Keep. intros H. apply Hs. right. exact H.
        -- intros C. destruct (C0 C) as [E F]. split; [exact E |].
           intros x [<- | Hx]; [exact D | apply F, Hx].
Qed.

Lemma refine_block_inv st p :
  refined d (new_partition st) (next_partition_id st) ->
  (forall s, 0 <= s < num_states d -> array_get P s 0 = p ->
             array_get (new_partition st) s 0 = array_get P s 0) ->
  refined d (new_partition (refine_block d P st p))
            (next_partition_id (refine_block d P st p)) /\
  (forall s, 0 <= s < num_states d -> array_get P s 0 <> p ->
             array_get (new_partition (refine_block d P st p)) s 0
             = array_get (new_partition st) s 0) /\
  (changed (refine_block d P st p) = false ->
   refine_block d P st p = st /\ stable d P [p]) /\
  (changed (refine_block d P st p) = true ->
   changed st = true \/
   next_partition_id st < next_partition_id (refine_block d P st p)) /\
  next_partition_id st <= next_partition_id (refine_block d P st p).
Proof.
  intros R Same. unfold refine_block.
  destruct (filter (fun i => array_get P i 0 =? p) (upto (num_states d)))
    as [| s1 others] eqn:F.
  - split; [exact R |]. split; [reflexivity |]. split; [| split; [auto | lia]].
    intros _. split; [reflexivity |].
    intros q a b c [<- | []] F'. rewrite F in F'. discriminate.
  - assert (M : forall s, In s (s1 :: others) ->
                  0 <= s < num_states d /\ array_get P s 0 = p).
    { intros s Hs. rewrite <- F in Hs. apply filter_In in Hs.
      destruct Hs as [Hs E]. apply upto_In in Hs. apply Z.eqb_eq in E. auto. }
    assert (N : NoDup (s1 :: others))
      by (rewrite <- F; apply NoDup_filter, upto_NoDup).
    inversion N as [| ? ? N1 N2]; subst.
    destruct refined_P as (_ & _ & _ & Sing & _).
    destruct (compare_fold s1 others st N2) as (R' & Keep & C0 & C1 & Le);
      trivial.
    + intros s Hs. pose proof (upto_tail _ _ _ F s Hs).
      destruct (M s (or_intror Hs)) as [Hr E].
      destruct (M s1 (or_introl eq_refl)) as [Hr1 E1].
      split; [lia |].
      destruct (Z.lt_ge_cases (array_get P s 0) 2) as [L | G]; [exact L |].
      exfalso. apply N1. rewrite <- (Sing s s1); trivial. congruence.
    + intros s Hs. destruct (M s (or_intror Hs)). auto.
    + cbn zeta in *. split; [exact R' |]. split; [| split; [| split]];
        trivial.
      * intros s Hs Hne. apply Keep. intros H.
        destruct (M s (or_intror H)). congruence.
      * intros C. destruct (C0 C) as [E Fd]. split; [exact E |].
        intros q a b c [<- | []] F' Hc. rewrite F in F'.
        injection F' as <- <-. apply Fd, Hc.
Qed.

Lemma pass_inv ps :
  forall st,
    NoDup ps ->
    refined d (new_partition st) (next_partition_id st) ->
    (forall s, 0 <= s < num_states d -> In (array_get P s 0) ps ->
               array_get (new_partition st) s 0 = array_get P s 0) ->
    refined d (new_partition (fold_left (refine_block d P) ps st))
              (next_partition_id (fold_left (refine_block d P) ps st)) /\
    (changed (fold_left (refine_block d P) ps st) = false ->
     fold_left (refine_block d P) ps st = st /\ stable d P ps) /\
    (changed (fold_left (refine_block d P) ps st) = true ->
     changed st = true \/
     next_partition_id st
     < next_partition_id (fold_left (refine_block d P) ps st)) /\
    next_partition_id st
    <= next_partition_id (fold_left (refine_block d P) ps st).
Proof.
  induction ps as [| p r IH]; intros st N R Same; cbn [fold_left].
  - split; [exact R |]. split; [| split; [auto | lia]].
    intros _. split; [reflexivity |]. intros q a b c [].
  - inversion N as [| ? ? N1 N2]; subst.
    destruct (refine_block_inv st p R) as (R1 & Keep & C0 & C1 & Le).
    { intros s Hs E. apply Same; [exact Hs | left; symmetry; exact E]. }
    destruct (IH (refine_block d P st p) N2 R1) as (R' & D0 & D1 & Le').
    { intros s Hs Hin. rewrite Keep; trivial.
      - apply Same; [exact Hs | right; exact Hin].
      - intros E. apply N1. rewrite <- E. exact Hin. }
    split; [exact R' |]. split; [| split; [| lia]].
    + intros C. destruct (D0 C) as [E St]. rewrite E in C |- *.
      destruct (C0 C) as [E' St']. split; [exact E' |].
      intros q a b c [<- | Hq]; [apply St'; left; reflexivity | apply St, Hq].
    + intros C. destruct (D1 C) as [C' | Lt].
      * destruct (C1 C') as [? | ?]; [auto | right; lia].
      * right. lia.
Qed.

End Pass.

Lemma refine_loop_total fuel :
  forall P num,
    refined d P num ->
    (Z.to_nat (num_states d + 1 - num) < fuel)%nat ->
    exists P' num',
      refine_loop fuel d P num = Some (P', num') /\
      refined d P' num' /\ stable d P' (upto num').
Proof.
  induction fuel as [| f IH]; intros P num R Hf; [lia |].
  cbn [refine_loop]. cbv zeta.
  destruct (pass_inv P num R (upto num)
              {| new_partition := P; next_partition_id := num;
                 changed := false |} (upto_NoDup num) R)
    as (R' & C0 & C1 & Le); [reflexivity |].
  destruct (changed (fold_left (refine_block d P) (upto num) _)) eqn:C.
  - destruct (C1 eq_refl) as [C' | Lt]; [discriminate C' |].
    cbn [next_partition_id] in Lt.
    pose proof (refined_bound _ _ R') as [_ B].
    apply IH; [exact R' | lia].
  - destruct (C0 eq_refl) as [E St]. rewrite E. cbn [new_partition next_partition_id].
    exists P, num. split; [reflexivity |]. split; [exact R | exact St].
Qed.

End Refine.

(** ** The result of minimize_dfa *)

Lemma dfa_wf_facts d :
  dfa_wf d = true ->
  1 <= num_states d <= MAX_STATES /\
  0 <= start_state d < num_states d /\
  (forall s c, table_get (transition d) s c = -1 \/
               0 <= table_get (transition d) s c < num_states d) /\
  (forall c, In c (alphabet d) -> 0 <= c < MAX_ALPHABET) /\
  shaped (transition d).
Proof.
  unfold dfa_wf, is_state. intros H.
  repeat (apply andb_prop in H; destruct H as [H ?]).
  repeat match goal with
         | K : forallb _ _ = true |- _ => rewrite forallb_forall in K
         | K : (_ <=? _) = true |- _ => apply Z.leb_le in K
         | K : (_ =? _) = true |- _ => apply Z.eqb_eq in K
         | K : _ && _ = true |- _ => apply andb_prop in K; destruct K
         | K : (_ <? _) = true |- _ => apply Z.ltb_lt in K
         end.
  match goal with
  | K : forall x, In x (transition d) -> _ |- _ => rename K into Rows
  end.
  match goal with
  | K : forall x, In x (alphabet d) -> _ |- _ => rename K into Alpha
  end.
  split; [lia |]. split; [lia |]. split; [| split].
  - intros s c. unfold table_get.
    destruct (Z.ltb_spec s 0) as [Hs | Hs];
      [left; rewrite (array_get_outside (transition d)) by lia;
       apply array_get_outside; unfold count; simpl; lia |].
    destruct (Z.ltb_spec s (count (transition d))) as [Hs' | Hs'];
      [| left; rewrite (array_get_outside (transition d)) by lia;
         apply array_get_outside; unfold count; simpl; lia].
    pose proof (Rows _ (array_get_In (transition d) s [] (conj Hs Hs'))) as R.
    apply andb_prop in R. destruct R as [Lr R]. rewrite forallb_forall in R.
    set (row := array_get (transition d) s []) in *.
    destruct (Z.ltb_spec c 0) as [Hc | Hc];
      [left; apply array_get_outside; lia |].
    destruct (Z.ltb_spec c (count row)) as [Hc' | Hc'];
      [| left; apply array_get_outside; lia].
    specialize (R _ (array_get_In row c (-1) (conj Hc Hc'))).
    apply orb_prop in R. destruct R as [R | R].
    + left. apply Z.eqb_eq, R.
    + right. apply andb_prop in R. destruct R as [R1 R2].
      apply Z.leb_le in R1. apply Z.ltb_lt in R2. lia.
  - intros c Hc. specialize (Alpha c Hc). apply andb_prop in Alpha.
    destruct Alpha as [A1 A2]. apply Z.leb_le in A1. apply Z.ltb_lt in A2. lia.
  - split; [assumption |]. intros row Hr. specialize (Rows row Hr).
    apply andb_prop in Rows. destruct Rows as [R _]. apply Z.eqb_eq, R.
Qed.

Lemma on_alphabet_In d s c :
  shaped (transition d) -> on_alphabet d = true ->
  0 <= s < num_states d -> table_get (transition d) s c <> -1 ->
  In c (alphabet d).
Proof.
  intros [L Rows] H Hs Hne. unfold on_alphabet in H.
  rewrite forallb_forall in H. specialize (H s (proj2 (upto_In _ s) Hs)).
  rewrite forallb_forall in H.
  assert (Hc : 0 <= c < MAX_ALPHABET).
  { destruct (Z.ltb_spec c 0) as [Hc | Hc];
      [exfalso; apply Hne; apply array_get_outside; lia |].
    destruct (Z.ltb_spec c MAX_ALPHABET) as [Hc' | Hc']; [lia |].
    exfalso. apply Hne. unfold table_get.
    destruct (Z.ltb_spec s 0) as [Hs0 | Hs0]; [lia |].
    destruct (Z.ltb_spec s (count (transition d))) as [Hs' | Hs'].
    - apply array_get_outside.
      rewrite (Rows _ (array_get_In (transition d) s [] (conj Hs0 Hs'))). lia.
    - rewrite (array_get_outside (transition d)) by lia.
      apply array_get_outside. unfold count. simpl. lia. }
  specialize (H c (proj2 (upto_In _ c) Hc)).
  apply orb_prop in H. destruct H as [H | H].
  - apply Z.eqb_eq in H. contradiction.
  - apply existsb_exists in H. destruct H as (a & Ha & E).
    apply Z.eqb_eq in E. subst. exact Ha.
Qed.

Section Build.

Variable d : DFA.
Variable P : list Z.

Hypothesis alphabet_columns :
  forall c, In c (alphabet d) -> 0 <= c < MAX_ALPHABET.

(** The loop over the alphabet that copies the transitions of state [i]. *)
Lemma build_row i p syms :
  forall tbl,
    shaped tbl -> 0 <= p < MAX_STATES ->
    (forall c, In c syms -> 0 <= c < MAX_ALPHABET) ->
    exists tbl',
      fold_opt
        (fun tbl sym =>
           if negb (table_get (transition d) i sym =? -1)
           then table_set tbl p sym
                  (array_get P (table_get (transition d) i sym) 0)
           else Some tbl)
        syms tbl = Some tbl' /\
      shaped tbl' /\
      forall p' sym',
        (p' = p /\ In sym' syms /\ table_get (transition d) i sym' <> -1 ->
         table_get tbl' p' sym'
         = array_get P (table_get (transition d) i sym') 0) /\
        (~ (p' = p /\ In sym' syms /\ table_get (transition d) i sym' <> -1) ->
         table_get tbl' p' sym' = table_get tbl p' sym').
Proof.
  induction syms as [| sym r IH]; intros tbl Sh Hp Hc; cbn [fold_opt].
  - exists tbl. split; [reflexivity |]. split; [exact Sh |].
    intros p' sym'. split; [intros (_ & [] & _) | reflexivity].
  - cbv zeta.
    assert (Hr : forall c, In c r -> 0 <= c < MAX_ALPHABET)
      by (intros c H; apply Hc; right; exact H).
    destruct (Z.eqb_spec (table_get (transition d) i sym) (-1)) as [E | N];
      cbn [negb].
    + cbn [bind]. destruct (IH tbl Sh Hp Hr) as (tbl' & F & Sh' & G).
      exists tbl'. split; [exact F |]. split; [exact Sh' |].
      intros p' sym'. destruct (G p' sym') as [G1 G2]. split.
      * intros (Ep & [<- | Hin] & Hn); [contradiction | apply G1; auto].
      * intros Hno. apply G2. intros (Ep & Hin & Hn). apply Hno. simpl. auto.
    + destruct (table_set_shaped tbl p sym
                  (array_get P (table_get (transition d) i sym) 0) Sh Hp
                  (Hc sym (or_introl eq_refl)))
        as (tbl1 & -> & Sh1 & G1).
      cbn [bind]. destruct (IH tbl1 Sh1 Hp Hr) as (tbl' & F & Sh' & G).
      exists tbl'. split; [exact F |]. split; [exact Sh' |].
      intros p' sym'. destruct (G p' sym') as [Ga Gb]. split.
      * intros (Ep & Hin & Hn).
        destruct (in_dec Z.eq_dec sym' r) as [Hr' | Hr'];
          [apply Ga; auto |].
        destruct Hin as [<- | Hin]; [| contradiction].
        rewrite Gb by tauto. rewrite G1, Ep, !Z.eqb_refl. reflexivity.
      * intros Hno. rewrite Gb by (simpl in Hno; tauto). rewrite G1.
        destruct (Z.eqb_spec p' p) as [-> | Hne]; cbn [andb];
          [| reflexivity].
        destruct (Z.eqb_spec sym' sym) as [-> | Hne]; [| reflexivity].
        exfalso. apply Hno. simpl. auto.
Qed.

Hypothesis blocks_in_range :
  forall s, 0 <= s < num_states d -> 0 <= array_get P s 0 < MAX_STATES.

Lemma build_fold states :
  forall finals tbl,
    shaped tbl -> count finals = MAX_STATES ->
    (forall i, In i states -> 0 <= i < num_states d) ->
    exists finals' tbl',
      fold_opt (build_state d P) states (finals, tbl) = Some (finals', tbl') /\
      shaped tbl' /\ count finals' = MAX_STATES /\
      (forall p,
         array_get finals' p false = true <->
         array_get finals p false = true \/
         exists i, In i states /\ array_get (final_states d) i false = true /\
                   array_get P i 0 = p) /\
      (forall p sym,
         (table_get tbl' p sym = table_get tbl p sym /\
          ~ exists i, In i states /\ array_get P i 0 = p /\
                      In sym (alphabet d) /\
                      table_get (transition d) i sym <> -1)
         \/
         (exists i, In i states /\ array_get P i 0 = p /\
                    In sym (alphabet d) /\
                    table_get (transition d) i sym <> -1 /\
                    table_get tbl' p sym
                    = array_get P (table_get (transition d) i sym) 0)).
Proof.
  induction states as [| i r IH]; intros finals tbl Sh Lf Hr; cbn [fold_opt].
  - exists finals, tbl. split; [reflexivity |]. split; [exact Sh |].
    split; [exact Lf |]. split.
    + intros p. split; [auto | intros [H | (i & [] & _)]; exact H].
    + intros p sym. left. split; [reflexivity | intros (i & [] & _)].
  - pose proof (blocks_in_range i (Hr i (or_introl eq_refl))) as Hp.
    unfold build_state at 1. cbv zeta.
    assert (Hf : exists finals1,
               (if array_get (final_states d) i false
                then array_set finals (array_get P i 0) true
                else Some finals) = Some finals1 /\
               count finals1 = MAX_STATES /\
               forall p, array_get finals1 p false = true <->
                         array_get finals p false = true \/
                         (array_get (final_states d) i false = true /\
                          array_get P i 0 = p)).
    { destruct (array_get (final_states d) i false).
      - rewrite array_set_Some by lia. eexists. split; [reflexivity |].
        split; [unfold count in *; rewrite update_length; exact Lf |].
        intros p. destruct (Z.eq_dec p (array_get P i 0)) as [-> | Hne].
        + rewrite array_get_update_same by lia. tauto.
        + rewrite array_get_update_other by lia.
          split; [auto | intros [H | [_ H]]; [exact H | congruence]].
      - exists finals. split; [reflexivity |]. split; [exact Lf |].
        intros p. split; [auto | intros [H | [H _]]; [exact H | discriminate]]. }
    destruct Hf as (finals1 & -> & Lf1 & Gf). cbn [bind].
    destruct (build_row i (array_get P i 0) (alphabet d) tbl Sh Hp
                alphabet_columns) as (tbl1 & -> & Sh1 & Gt).
    cbn [bind].
    destruct (IH finals1 tbl1 Sh1 Lf1) as (finals' & tbl' & F & Sh' & Lf' & Gf' & Gt').
    { intros j Hj. apply Hr. right. exact Hj. }
    exists finals', tbl'. split; [exact F |]. split; [exact Sh' |].
    split; [exact Lf' |]. split.
    + intros p. rewrite Gf', Gf. split.
      * intros [[H | [H1 H2]] | (j & Hj & H1 & H2)]; [auto | |].
        -- right. exists i. simpl. auto.
        -- right. exists j. simpl. auto.
      * intros [H | (j & [<- | Hj] & H1 & H2)]; [auto | auto |].
        right. exists j. auto.
    + intros p sym. destruct (Gt' p sym) as [[E No] | (j & Hj & H1 & H2 & H3 & E)].
      * destruct (Gt p sym) as [Ga Gb].
        destruct (Z.eq_dec p (array_get P i 0)) as [Ep | Np];
          [destruct (in_dec Z.eq_dec sym (alphabet d)) as [Hin | Hin];
           [destruct (Z.eq_dec (table_get (transition d) i sym) (-1))
              as [En | Nn] |] |].
        -- left. split; [rewrite E; apply Gb; tauto |].
           intros (j & [<- | Hj] & H1 & H2 & H3); [contradiction |].
           apply No. exists j. auto.
        -- right. exists i. split; [left; reflexivity |].
           split; [auto |]. split; [exact Hin |]. split; [exact Nn |].
           rewrite E. apply Ga. auto.
        -- left. split; [rewrite E; apply Gb; tauto |].
           intros (j & [<- | Hj] & H1 & H2 & H3); [contradiction |].
           apply No. exists j. auto.
        -- left. split; [rewrite E; apply Gb; tauto |].
           intros (j & [<- | Hj] & H1 & H2 & H3); [congruence |].
           apply No. exists j. auto.
      * right. exists j. split; [right; exact Hj |]. auto.
Qed.

End Build.

Lemma array_get_repeat_false p :
  array_get (repeat false (Z.to_nat MAX_STATES)) p false = false.
Proof.
  unfold array_get. destruct (p <? 0); [reflexivity |].
  destruct (Nat.ltb_spec (Z.to_nat p) (Z.to_nat MAX_STATES)).
  - apply (repeat_spec (Z.to_nat MAX_STATES)), nth_In.
    rewrite repeat_length. assumption.
  - apply nth_overflow. rewrite repeat_length. assumption.
Qed.

(** What [minimize_dfa] returns for a well-formed DFA with room for one
    more state: the blocks, their count, and the table and final states
    built from them. *)
Lemma minimize_dfa_parts d :
  dfa_wf d = true -> num_states d < MAX_STATES ->
  exists P num finals tbl,
    minimize_dfa d
    = Some {| transition := tbl; num_states := num;
              start_state := array_get P (start_state d) 0;
              final_states := finals; alphabet := alphabet d |} /\
    refined d P num /\ congruent d P /\
    shaped tbl /\ count finals = MAX_STATES /\
    (forall p,
       array_get finals p false = true <->
       exists i, 0 <= i < num_states d /\
                 array_get (final_states d) i false = true /\
                 array_get P i 0 = p) /\
    (forall p sym,
       (table_get tbl p sym = -1 /\
        ~ exists i, 0 <= i < num_states d /\ array_get P i 0 = p /\
                    In sym (alphabet d) /\
                    table_get (transition d) i sym <> -1)
       \/
       (exists i, 0 <= i < num_states d /\ array_get P i 0 = p /\
                  In sym (alphabet d) /\
                  table_get (transition d) i sym <> -1 /\
                  table_get tbl p sym
                  = array_get P (table_get (transition d) i sym) 0)).
Proof.
  intros Wf Room.
  destruct (dfa_wf_facts d Wf) as (Hn & Hstart & Hnext & Halpha & Sh).
  unfold minimize_dfa. cbv zeta.
  destruct (refine_loop_total d (proj1 Hn) (S (S (Z.to_nat (num_states d))))
              _ 2 (initial_refined d (proj1 Hn)))
    as (P & num & -> & R & St); [lia |].
  cbn [bind]. cbv beta iota.
  pose proof (refined_bound d (proj1 Hn) P num R) as B.
  assert (Rng : forall s, 0 <= s < num_states d ->
                  0 <= array_get P s 0 < MAX_STATES).
  { intros s Hs. destruct R as (_ & Rng & _). specialize (Rng s Hs). lia. }
  destruct (build_fold d P Halpha Rng (upto (num_states d))
              (repeat false (Z.to_nat MAX_STATES)) empty_table
              empty_table_shaped)
    as (finals & tbl & -> & Sh' & Lf & Gf & Gt).
  { unfold count. rewrite repeat_length. reflexivity. }
  { intros i Hi. apply upto_In, Hi. }
  cbn [bind]. cbv beta iota.
  exists P, num, finals, tbl. split; [reflexivity |].
  split; [exact R |].
  split; [apply (stable_congruent d P num R St) |].
  split; [exact Sh' |]. split; [exact Lf |]. split.
  - intros p. rewrite Gf, array_get_repeat_false. split.
    + intros [H | (i & Hi & H)]; [discriminate |].
      exists i. split; [apply upto_In, Hi | exact H].
    + intros (i & Hi & H). right. exists i.
      split; [apply upto_In, Hi | exact H].
  - intros p sym.
    destruct (Gt p sym) as [[E No] | (i & Hi & H)].
    + left. split; [rewrite E; apply table_get_empty |].
      intros (i & Hi & H). apply No. exists i.
      split; [apply upto_In, Hi | exact H].
    + right. exists i. split; [apply upto_In, Hi | exact H].
Qed.

Lemma minimize_dfa_run d P num finals tbl :
  dfa_wf d = true -> on_alphabet d = true ->
  refined d P num -> congruent d P ->
  (forall p,
     array_get finals p false = true <->
     exists i, 0 <= i < num_states d /\
               array_get (final_states d) i false = true /\
               array_get P i 0 = p) ->
  (forall p sym,
     (table_get tbl p sym = -1 /\
      ~ exists i, 0 <= i < num_states d /\ array_get P i 0 = p /\
                  In sym (alphabet d) /\
                  table_get (transition d) i sym <> -1)
     \/
     (exists i, 0 <= i < num_states d /\ array_get P i 0 = p /\
                In sym (alphabet d) /\
                table_get (transition d) i sym <> -1 /\
                table_get tbl p sym
                = array_get P (table_get (transition d) i sym) 0)) ->
  forall m,
    transition m = tbl -> final_states m = finals ->
    forall w s,
      0 <= s < num_states d ->
      dfa_run d s w = dfa_run m (array_get P s 0) w.
Proof.
  intros Wf On R Cg Gf Gt m Et Ef.
  destruct (dfa_wf_facts d Wf) as (Hn & Hstart & Hnext & Halpha & Sh).
  pose proof R as (_ & Rng & Fin & _).
  induction w as [| c w IH]; intros s Hs; cbn [dfa_run]; rewrite ?Et, ?Ef.
  - destruct (array_get finals (array_get P s 0) false) eqn:F.
    + apply Gf in F. destruct F as (i & Hi & Hfi & E).
      rewrite <- Hfi. apply Fin; auto.
    + destruct (array_get (final_states d) s false) eqn:F'; [| reflexivity].
      rewrite <- F. symmetry. apply Gf. exists s. auto.
  - set (c' := char_to_int c).
    destruct (Z.eqb_spec (table_get (transition d) s c') (-1)) as [E | N].
    + destruct (Gt (array_get P s 0) c') as [[E' _] | (i & Hi & Ep & Hin & Hne & _)].
      * rewrite E'. reflexivity.
      * exfalso. apply Hne. apply (Cg i s Hi Hs Ep c' Hin), E.
    + pose proof (on_alphabet_In d s c' Sh On Hs N) as Hin.
      destruct (Gt (array_get P s 0) c') as [[_ No] | (i & Hi & Ep & _ & Hne & E')].
      * exfalso. apply No. exists s. auto.
      * rewrite E'.
        rewrite (proj2 (Cg i s Hi Hs Ep c' Hin) Hne).
        destruct (Hnext s c') as [? | Hr]; [contradiction |].
        destruct (Z.eqb_spec (array_get P (table_get (transition d) s c') 0) (-1))
          as [Eb | _]; [specialize (Rng _ Hr); lia |].
        apply IH, Hr.
Qed.

Lemma shaped_entries tbl (Q : Z -> Prop) :
  (forall p sym, Q (table_get tbl p sym)) ->
  forall row, In row tbl -> forall x, In x row -> Q x.
Proof.
  intros H row Hr x Hx.
  destruct (In_nth tbl row [] Hr) as (i & Hi & <-).
  destruct (In_nth _ x (-1) Hx) as (j & Hj & <-).
  specialize (H (Z.of_nat i) (Z.of_nat j)). unfold table_get, array_get in H.
  destruct (Z.ltb_spec (Z.of_nat i) 0); [lia |].
  destruct (Z.ltb_spec (Z.of_nat j) 0); [lia |].
  rewrite !Nat2Z.id in H. exact H.
Qed.

Lemma minimize_dfa_result_wf d P num finals tbl :
  dfa_wf d = true -> num_states d < MAX_STATES ->
  refined d P num -> shaped tbl -> count finals = MAX_STATES ->
  (forall p,
     array_get finals p false = true <->
     exists i, 0 <= i < num_states d /\
               array_get (final_states d) i false = true /\
               array_get P i 0 = p) ->
  (forall p sym,
     (table_get tbl p sym = -1 /\
      ~ exists i, 0 <= i < num_states d /\ array_get P i 0 = p /\
                  In sym (alphabet d) /\
                  table_get (transition d) i sym <> -1)
     \/
     (exists i, 0 <= i < num_states d /\ array_get P i 0 = p /\
                In sym (alphabet d) /\
                table_get (transition d) i sym <> -1 /\
                table_get tbl p sym
                = array_get P (table_get (transition d) i sym) 0)) ->
  forall m,
    m = {| transition := tbl; num_states := num;
           start_state := array_get P (start_state d) 0;
           final_states := finals; alphabet := alphabet d |} ->
    dfa_wf m = true /\ on_alphabet m = true.
Proof.
  intros Wf Room R [Lt Rows] Lf Gf Gt m ->.
  destruct (dfa_wf_facts d Wf) as (Hn & Hstart & Hnext & Halpha & Sh).
  pose proof (refined_bound d (proj1 Hn) P num R) as B.
  pose proof R as (_ & Rng & _).
  assert (Entry : forall p sym,
            table_get tbl p sym = -1 \/ 0 <= table_get tbl p sym < num).
  { intros p sym.
    destruct (Gt p sym) as [[E _] | (i & Hi & _ & _ & Hne & ->)]; [auto |].
    right. apply Rng. destruct (Hnext i sym); [contradiction | assumption]. }
  assert (Wa : (count (alphabet d) <=? MAX_ALPHABET) = true /\
               forallb (fun c => (0 <=? c) && (c <? MAX_ALPHABET)) (alphabet d)
               = true).
  { unfold dfa_wf in Wf. repeat (apply andb_prop in Wf; destruct Wf as [Wf ?]).
    auto. }
  split.
  - assert (C5 : forallb
                   (fun s => (0 <=? s) && (s <? num)
                             || negb (array_get finals s false))
                   (upto MAX_STATES) = true).
    { apply forallb_forall. intros s _.
      destruct (array_get finals s false) eqn:F; cbn [negb];
        [| apply orb_true_r].
      apply Gf in F. destruct F as (i & Hi & _ & <-).
      specialize (Rng i Hi). rewrite orb_false_r.
      apply andb_true_intro. split; [apply Z.leb_le | apply Z.ltb_lt]; lia. }
    assert (C7 : forallb
                   (fun row =>
                      (count row =? MAX_ALPHABET)
                      && forallb
                           (fun next => (next =? -1)
                                        || (0 <=? next) && (next <? num))
                           row)
                   tbl = true).
    { apply forallb_forall. intros row Hr.
      apply andb_true_intro. split; [apply Z.eqb_eq, Rows, Hr |].
      apply forallb_forall. intros x Hx.
      apply (shaped_entries tbl
               (fun x => (x =? -1) || (0 <=? x) && (x <? num) = true))
        with (2 := Hr) (3 := Hx).
      intros p sym. destruct (Entry p sym) as [-> | H]; [reflexivity |].
      apply orb_true_iff. right.
      apply andb_true_intro. split; [apply Z.leb_le | apply Z.ltb_lt]; lia. }
    pose proof (Rng _ Hstart) as Hs.
    destruct Wa as [C8 C9].
    unfold dfa_wf, is_state.
    cbn [num_states start_state final_states transition alphabet].
    rewrite C5, C7, C8, C9.
    rewrite (proj2 (Z.leb_le 1 num)) by lia.
    rewrite (proj2 (Z.leb_le num MAX_STATES)) by lia.
    rewrite (proj2 (Z.leb_le 0 _)) by apply Hs.
    rewrite (proj2 (Z.ltb_lt _ num)) by apply Hs.
    rewrite (proj2 (Z.eqb_eq _ _) Lf), (proj2 (Z.eqb_eq _ _) Lt).
    reflexivity.
  - unfold on_alphabet. cbn [num_states transition alphabet].
    apply forallb_forall. intros s _. apply forallb_forall. intros c _.
    destruct (Gt s c) as [[-> _] | (i & _ & _ & Hin & _)]; [reflexivity |].
    apply orb_true_iff. right. apply existsb_exists. exists c.
    split; [exact Hin | apply Z.eqb_refl].
Qed.

Lemma minimize_dfa_correct (d : DFA) :
  dfa_wf d = true -> num_states d < MAX_STATES -> on_alphabet d = true ->
  exists m,
    minimize_dfa d = Some m /\
    same_language d m /\
    dfa_wf m = true /\ on_alphabet m = true /\
    alphabet m = alphabet d /\
    2 <= num_states m <= num_states d + 1.
Proof.
  intros Wf Room On.
  destruct (minimize_dfa_parts d Wf Room)
    as (P & num & finals & tbl & E & R & Cg & Sh & Lf & Gf & Gt).
  destruct (dfa_wf_facts d Wf) as (Hn & Hstart & _).
  destruct (minimize_dfa_result_wf d P num finals tbl Wf Room R Sh Lf Gf Gt
              _ eq_refl) as [Wm Om].
  eexists. split; [exact E |]. split; [| split; [exact Wm |]].
  - intros w. unfold dfa_accepts. cbn [start_state].
    apply (minimize_dfa_run d P num finals tbl Wf On R Cg Gf Gt);
      [reflexivity | reflexivity | exact Hstart].
  - split; [exact Om |]. split; [reflexivity |].
    cbn [num_states]. apply (refined_bound d (proj1 Hn) P num R).
Qed.

(** X21: [minimize_dfa] keeps the language.  For a well-formed DFA with
    fewer than MAX_STATES states whose table has transitions on symbols of
    its alphabet only, [minimize_dfa] returns a DFA that accepts exactly the
    same words; the result is again well-formed with transitions on its
    alphabet only, has the same alphabet, at least two states and at most
    one state more than the argument. *)
Theorem minimize_dfa_same_language (d : DFA) :
  dfa_wf d = true -> num_states d < MAX_STATES -> on_alphabet d = true ->
  exists m,
    minimize_dfa d = Some m /\
    same_language d m /\
    dfa_wf m = true /\ on_alphabet m = true /\
    alphabet m = alphabet d /\
    2 <= num_states m <= num_states d + 1.
Proof. apply minimize_dfa_correct. Qed.

Lemma minimize_dfa_same_language_witness :
  exists m,
    minimize_dfa dfa_twins = Some m /\
    same_language dfa_twins m /\
    dfa_wf m = true /\ on_alphabet m = true /\
    alphabet m = alphabet dfa_twins /\
    2 <= num_states m <= num_states dfa_twins + 1.
Proof.
  apply (minimize_dfa_same_language dfa_twins).
  - vm_compute. reflexivity.
  - vm_compute. reflexivity.
  - vm_compute. reflexivity.
Defined.

(** ** State sets of a well-formed NFA *)

Lemma nfa_wf_facts nfa :
  nfa_wf nfa = true ->
  nfa_num_states nfa <= MAX_STATES /\
  0 <= nfa_start_state nfa < nfa_num_states nfa /\
  forall t, In t (nfa_transitions nfa) ->
            0 <= from_state t < nfa_num_states nfa /\
            0 <= to_state t < nfa_num_states nfa.
Proof.
  unfold nfa_wf, in_states. intros H.
  apply andb_prop in H. destruct H as [H Ht].
  apply andb_prop in H. destruct H as [Hk Hs].
  apply andb_prop in Hs. destruct Hs as [Hs1 Hs2].
  rewrite forallb_forall in Ht.
  split; [apply Z.leb_le, Hk |]. split; [lia |].
  intros t Hin. specialize (Ht t Hin).
  apply andb_prop in Ht. destruct Ht as [H1 H2].
  apply andb_prop in H1. apply andb_prop in H2. lia.
Qed.

Section Bounded.

Variable nfa : NFA.
Hypothesis wf : nfa_wf nfa = true.

Lemma bounded_count set :
  bounded nfa set -> count set <= nfa_num_states nfa.
Proof.
  intros [N R]. unfold count.
  assert (L : (List.length set <= List.length (upto (nfa_num_states nfa)))%nat).
  { apply NoDup_incl_length; [exact N |]. intros s Hs. apply upto_In, R, Hs. }
  rewrite upto_length in L.
  destruct set as [| x r]; [simpl; destruct (nfa_wf_facts nfa wf); lia |].
  pose proof (R x (or_introl eq_refl)). lia.
Qed.

Lemma state_set_add_bounded set x :
  bounded nfa set -> 0 <= x < nfa_num_states nfa ->
  bounded nfa (state_set_add set x) /\ In x (state_set_add set x).
Proof.
  intros B Hx. pose proof B as [N R]. split.
  - split; [apply state_set_add_NoDup, N |].
    intros s Hs. apply state_set_add_In in Hs.
    destruct Hs as [Hs | ->]; [apply R, Hs | exact Hx].
  - unfold state_set_add.
    destruct (state_set_contains set x) eqn:C; cbn [negb andb];
      [apply state_set_contains_In, C |].
    destruct (Z.ltb_spec (count set) MAX_STATES) as [Lt | Ge];
      [apply in_or_app; right; left; reflexivity |].
    exfalso.
    assert (In x set); [| apply state_set_contains_In in H; congruence].
    pose proof (bounded_count set B) as Bc.
    destruct (nfa_wf_facts nfa wf) as (Hk & _).
    apply (NoDup_length_incl N (l' := upto (nfa_num_states nfa))).
    + rewrite upto_length. unfold count in *. lia.
    + intros s Hs. apply upto_In, R, Hs.
    + apply upto_In, Hx.
Qed.

Lemma add_loop_bounded state sym ts :
  forall set,
    bounded nfa set ->
    (forall t, In t ts -> 0 <= to_state t < nfa_num_states nfa) ->
    bounded nfa
      (fold_left
         (fun set t =>
            if (from_state t =? state) && (symbol t =? sym)
            then state_set_add set (to_state t) else set) ts set) /\
    forall t,
      In t ts -> from_state t = state -> symbol t = sym ->
      In (to_state t)
         (fold_left
            (fun set t =>
               if (from_state t =? state) && (symbol t =? sym)
               then state_set_add set (to_state t) else set) ts set).
Proof.
  induction ts as [| t0 ts IH]; intros set B Hr; cbn [fold_left].
  - split; [exact B | intros t []].
  - assert (Hr' : forall t, In t ts -> 0 <= to_state t < nfa_num_states nfa)
      by (intros t H; apply Hr; right; exact H).
    destruct ((from_state t0 =? state) && (symbol t0 =? sym)) eqn:E.
    + destruct (state_set_add_bounded set (to_state t0) B
                  (Hr t0 (or_introl eq_refl))) as [B1 In1].
      destruct (IH _ B1 Hr') as [B' C']. split; [exact B' |].
      intros t [<- | Hin] Hf Hs; [| apply C'; assumption].
      apply (grows_incl _ _ (add_loop_grows state sym ts _)), In1.
    + destruct (IH _ B Hr') as [B' C']. split; [exact B' |].
      intros t [<- | Hin] Hf Hs; [| apply C'; assumption].
      rewrite Hf, Hs, !Z.eqb_refl in E. discriminate.
Qed.

Lemma add_targets_bounded state sym set :
  bounded nfa set ->
  bounded nfa (add_targets nfa state sym set) /\
  forall t,
    In t (nfa_transitions nfa) -> from_state t = state -> symbol t = sym ->
    In (to_state t) (add_targets nfa state sym set).
Proof.
  intros B. apply add_loop_bounded; [exact B |].
  intros t Ht. apply (nfa_wf_facts nfa wf), Ht.
Qed.

Lemma move_loop_bounded sym states :
  forall result,
    bounded nfa result ->
    bounded nfa
      (fold_left (fun result state => add_targets nfa state sym result)
                 states result) /\
    forall t,
      In t (nfa_transitions nfa) -> In (from_state t) states ->
      symbol t = sym ->
      In (to_state t)
         (fold_left (fun result state => add_targets nfa state sym result)
                    states result).
Proof.
  induction states as [| x r IH]; intros result B; cbn [fold_left].
  - split; [exact B | intros t _ []].
  - destruct (add_targets_bounded x sym result B) as [B1 C1].
    destruct (IH _ B1) as [B' C']. split; [exact B' |].
    intros t Ht [E | Hin] Hs; [| apply C'; assumption].
    apply (grows_incl _ _ (move_loop_grows nfa sym r _)).
    apply C1; auto.
Qed.

Lemma move_bounded states sym :
  bounded nfa (move nfa states sym) /\
  forall t,
    In t (nfa_transitions nfa) -> In (from_state t) states ->
    symbol t = sym ->
    In (to_state t) (move nfa states sym).
Proof.
  apply move_loop_bounded. split; [constructor | intros s []].
Qed.

Lemma scan_stable_eps_closed c :
  bounded nfa c -> scan_stable nfa c -> eps_closed nfa c.
Proof.
  intros B St t Ht Hs Hf.
  destruct (In_nth c (from_state t) 0 Hf) as (j & Hj & E).
  pose proof (closure_scan_fixed nfa _ _ _ St j ltac:(lia)) as F.
  rewrite <- F. apply (add_targets_bounded _ _ _ B); auto.
Qed.

Lemma eps_closed_reachable set from s :
  eps_closed nfa set -> incl from set ->
  eps_reachable nfa from s -> In s set.
Proof.
  intros C I R. induction R as [s Hs | s t R IH Ht Hf Hs].
  - apply I, Hs.
  - apply (C t Ht Hs). rewrite Hf. exact IH.
Qed.

Lemma closure_bounded M c :
  bounded nfa M -> epsilon_closure nfa M = Some c ->
  bounded nfa c /\ eps_closed nfa c /\
  forall s, In s c <-> eps_reachable nfa M s.
Proof.
  intros [N R] E.
  destruct (closure_loop_total nfa (S (S (Z.to_nat MAX_STATES))) M)
    as (c' & E' & G & St); [lia |].
  unfold epsilon_closure in E. rewrite E' in E. injection E as ->.
  assert (B : bounded nfa c).
  { split; [apply (closure_loop_NoDup nfa _ _ _ E' N) |].
    apply (closure_loop_keeps nfa
             (fun s => 0 <= s < nfa_num_states nfa) _) with (2 := E');
      [| exact R].
    intros t Ht _ _. apply (nfa_wf_facts nfa wf), Ht. }
  pose proof (scan_stable_eps_closed c B St) as C.
  split; [exact B |]. split; [exact C |]. intros s. split.
  - revert s.
    apply (closure_loop_keeps nfa (eps_reachable nfa M) _) with (2 := E').
    + intros t Ht Hs Hf. apply (eps_step nfa M (from_state t) t); auto.
    + intros s Hs. apply eps_here, Hs.
  - apply (eps_closed_reachable c M s C (grows_incl _ _ G)).
Qed.

End Bounded.

(** ** Paths of an NFA *)

Section Paths.

Variable nfa : NFA.

Lemma eps_reachable_mono X Y s :
  (forall x, In x X -> eps_reachable nfa Y x) ->
  eps_reachable nfa X s -> eps_reachable nfa Y s.
Proof.
  intros H R. induction R as [s Hs | s t R IH Ht Hf Hs].
  - apply H, Hs.
  - apply (eps_step nfa Y s t); assumption.
Qed.

Lemma eps_reachable_from X s :
  eps_reachable nfa X s -> exists x, In x X /\ eps_reachable nfa [x] s.
Proof.
  intros R. induction R as [s Hs | s t R (x & Hx & IH) Ht Hf Hs].
  - exists s. split; [exact Hs | apply eps_here; left; reflexivity].
  - exists x. split; [exact Hx |]. apply (eps_step nfa [x] s t); assumption.
Qed.

Lemma path_after_eps s u :
  eps_reachable nfa [s] u ->
  forall w s', nfa_path nfa u w s' -> nfa_path nfa s w s'.
Proof.
  intros R. induction R as [u Hu | u t R IH Ht Hf Hs]; intros w s' Pth.
  - destruct Hu as [<- | []]. exact Pth.
  - apply IH. apply (path_eps nfa u t); assumption.
Qed.

Lemma path_nil_eps s w s' :
  nfa_path nfa s w s' -> w = [] -> eps_reachable nfa [s] s'.
Proof.
  intros Pth. induction Pth as [s | s t w s' Ht Hf Hs Pth IH
                                  | s t c w s' Ht Hf Hs Hne Pth IH];
    intros E.
  - apply eps_here. left. reflexivity.
  - apply (eps_reachable_mono [to_state t]); [| apply IH, E].
    intros x [<- | []]. apply (eps_step nfa [s] s t); trivial.
    apply eps_here. left. reflexivity.
  - discriminate.
Qed.

Lemma path_cons_inv s w0 s' :
  nfa_path nfa s w0 s' ->
  forall c w,
    w0 = c :: w ->
    exists u t,
      eps_reachable nfa [s] u /\ In t (nfa_transitions nfa) /\
      from_state t = u /\ symbol t = char_to_int c /\ symbol t <> EPSILON /\
      nfa_path nfa (to_state t) w s'.
Proof.
  intros Pth. induction Pth as [s | s t w0 s' Ht Hf Hs Pth IH
                                  | s t c0 w0 s' Ht Hf Hs Hne Pth IH];
    intros c w E.
  - discriminate.
  - destruct (IH c w E) as (u & t' & R & H).
    exists u, t'. split; [| exact H].
    apply (eps_reachable_mono [to_state t]); [| exact R].
    intros x [<- | []]. apply (eps_step nfa [s] s t); trivial.
    apply eps_here. left. reflexivity.
  - injection E as -> ->. exists s, t.
    split; [apply eps_here; left; reflexivity |]. auto.
Qed.

End Paths.

(** ** The subset construction *)

Lemma array_get_app_old {A : Type} (a b : list A) i d :
  0 <= i < count a -> array_get (a ++ b) i d = array_get a i d.
Proof.
  unfold array_get, count. intros H. destruct (Z.ltb_spec i 0); [lia |].
  apply app_nth1. lia.
Qed.

Lemma array_get_app_new {A : Type} (a : list A) x d :
  array_get (a ++ [x]) (count a) d = x.
Proof.
  unfold array_get, count. destruct (Z.ltb_spec (Z.of_nat (List.length a)) 0);
    [lia |].
  rewrite Nat2Z.id, app_nth2, Nat.sub_diag by lia. reflexivity.
Qed.

Lemma count_app {A : Type} (a b : list A) : count (a ++ b) = count a + count b.
Proof. unfold count. rewrite length_app. lia. Qed.

Lemma subset_alphabet_range sym :
  In sym subset_alphabet -> 0 <= sym < MAX_ALPHABET.
Proof.
  assert (H : forallb (fun c => (0 <=? c) && (c <? MAX_ALPHABET))
                subset_alphabet = true) by (vm_compute; reflexivity).
  rewrite forallb_forall in H. intros Hin. specialize (H sym Hin).
  apply andb_prop in H. destruct H as [H1 H2].
  apply Z.leb_le in H1. apply Z.ltb_lt in H2. lia.
Qed.

Section Subset.

Variable nfa : NFA.
Hypothesis wf : nfa_wf nfa = true.

(** The state of the DFA for the set [c]: one that is there, or a new
    one. *)
Lemma choose_state states stack c v states' stack' :
  (forall set, In set states -> bounded nfa set /\ eps_closed nfa set) ->
  bounded nfa c ->
  (if find_state_set_index states c =? -1
   then if count states <? MAX_STATES
        then Some (count states, states ++ [c], count states :: stack)
        else None
   else Some (find_state_set_index states c, states, stack))
  = Some (v, states', stack') ->
  (states' = states /\ stack' = stack /\ 0 <= v < count states /\
   same_states (array_get states v []) c)
  \/
  (states' = states ++ [c] /\ stack' = count states :: stack /\
   v = count states /\ count states < MAX_STATES).
Proof.
  intros Sets Bc.
  destruct (find_from_spec states c 0) as [[E _] | (k & Hk & E & Eq & _)];
    unfold find_state_set_index; rewrite E.
  - cbn [Z.eqb]. destruct (Z.ltb_spec (count states) MAX_STATES); [| discriminate].
    intros [= <- <- <-]. right. auto.
  - rewrite Z.add_0_l.
    destruct (Z.eqb_spec (Z.of_nat k) (-1)); [lia |].
    intros [= <- <- <-]. left. split; [reflexivity |]. split; [reflexivity |].
    unfold count. split; [lia |].
    unfold array_get. destruct (Z.ltb_spec (Z.of_nat k) 0); [lia |].
    rewrite Nat2Z.id.
    apply state_set_equal_NoDup; [| apply Bc | exact Eq].
    apply (Sets (nth k states [])), nth_In, Hk.
Qed.

Lemma subset_step_inv cur st sym st' :
  subset_inv nfa (cur :: unmarked st) st ->
  0 <= cur < count (dfa_states st) ->
  In sym subset_alphabet ->
  subset_step nfa cur (array_get (dfa_states st) cur []) st sym = Some st' ->
  subset_inv nfa (cur :: unmarked st') st' /\
  0 <= cur < count (dfa_states st') /\
  array_get (dfa_states st') cur [] = array_get (dfa_states st) cur [] /\
  (forall sym', table_get (sub_table st) cur sym' <> -1 ->
                table_get (sub_table st') cur sym' <> -1) /\
  (count (move nfa (array_get (dfa_states st) cur []) sym) > 0 ->
   table_get (sub_table st') cur sym <> -1).
Proof.
  intros Inv Hcur Hsym. unfold subset_step. cbv zeta.
  set (cur_set := array_get (dfa_states st) cur []).
  destruct (Z.gtb_spec (count (move nfa cur_set sym)) 0) as [Hgt | Hle].
  2:{ intros [= <-]. split; [exact Inv |]. split; [exact Hcur |].
      split; [reflexivity |]. split; [auto | lia]. }
  destruct Inv as (Sh & Cnt & Sets & Start & Stack & Sound & Rows).
  destruct (epsilon_closure nfa (move nfa cur_set sym)) as [c |] eqn:Ec;
    [| discriminate].
  cbn [bind].
  destruct (closure_bounded nfa wf _ c (proj1 (move_bounded nfa wf cur_set sym))
              Ec) as (Bc & Cc & Rc).
  destruct (if find_state_set_index (dfa_states st) c =? -1
            then if count (dfa_states st) <? MAX_STATES
                 then Some (count (dfa_states st), dfa_states st ++ [c],
                            count (dfa_states st) :: unmarked st)
                 else None
            else Some (find_state_set_index (dfa_states st) c,
                       dfa_states st, unmarked st))
    as [[[v states'] stack'] |] eqn:Ch; [| discriminate].
  cbn [bind]. cbv beta iota.
  pose proof (choose_state _ _ _ _ _ _ Sets Bc Ch) as Choice.
  assert (F1 : forall i, 0 <= i < count (dfa_states st) ->
                 array_get states' i [] = array_get (dfa_states st) i []).
  { intros i Hi. destruct Choice as [(-> & _) | (-> & _)]; [reflexivity |].
    apply array_get_app_old, Hi. }
  assert (F2 : count (dfa_states st) <= count states' <= MAX_STATES).
  { destruct Choice as [(-> & _) | (-> & _ & _ & Room)]; [lia |].
    rewrite count_app. change (count [c]) with 1. lia. }
  assert (F3 : 0 <= v < count states').
  { destruct Choice as [(-> & _ & Hv & _) | (-> & _ & -> & _)]; [exact Hv |].
    rewrite count_app. change (count [c]) with 1.
    pose proof (Zle_0_nat (List.length (dfa_states st))).
    unfold count. lia. }
  assert (F4 : forall s, In s (array_get states' v []) <-> In s c).
  { destruct Choice as [(-> & _ & _ & Same) | (-> & _ & -> & _)];
      [exact Same |].
    rewrite array_get_app_new. tauto. }
  assert (F5 : forall set, In set states' ->
                 bounded nfa set /\ eps_closed nfa set).
  { destruct Choice as [(-> & _) | (-> & _)]; [exact Sets |].
    intros set Hs. apply in_app_or in Hs.
    destruct Hs as [Hs | [<- | []]]; [apply Sets, Hs | auto]. }
  assert (F6 : forall i, In i stack' -> 0 <= i < count states').
  { destruct Choice as [(-> & -> & _) | (-> & -> & -> & _)]; [exact Stack |].
    intros i [<- | Hi]; [exact F3 |]. specialize (Stack i Hi). lia. }
  assert (F7 : forall i, In i (unmarked st) -> In i stack').
  { destruct Choice as [(_ & -> & _) | (_ & -> & _)]; [auto |].
    intros i Hi. right. exact Hi. }
  assert (F8 : forall i, count (dfa_states st) <= i < count states' ->
                 In i stack').
  { destruct Choice as [(-> & _) | (-> & -> & _)]; [lia |].
    intros i. rewrite count_app. change (count [c]) with 1. intros Hi.
    left. lia. }
  clear Choice Ch.
  destruct (table_set_shaped (sub_table st) cur sym v Sh)
    as (tbl' & -> & Sh' & Get);
    [lia | apply subset_alphabet_range, Hsym |].
  cbn [bind]. intros [= <-]. cbn [sub_table dfa_states unmarked].
  split; [| split; [lia | split; [apply F1, Hcur | split]]].
  - unfold subset_inv. cbn [sub_table dfa_states unmarked].
    split; [exact Sh' |]. split; [lia |]. split; [exact F5 |].
    split; [rewrite F1 by lia; exact Start |]. split; [exact F6 |]. split.
    + intros i sym'. rewrite Get.
      destruct (Z.eqb_spec i cur) as [-> | Hne]; cbn [andb];
        [destruct (Z.eqb_spec sym' sym) as [-> | Hne] |].
      * right. split; [lia |]. split; [exact Hsym |]. split; [exact F3 |].
        intros s. rewrite F4, (F1 cur Hcur). apply Rc.
      * destruct (Sound cur sym') as [E | (Hi & Hin & Hv & R)]; [auto |].
        right. split; [lia |]. split; [exact Hin |]. split; [lia |].
        intros s. rewrite (F1 _ Hv), (F1 _ Hi). apply R.
      * destruct (Sound i sym') as [E | (Hi & Hin & Hv & R)]; [auto |].
        right. split; [lia |]. split; [exact Hin |]. split; [lia |].
        intros s. rewrite (F1 _ Hv), (F1 _ Hi). apply R.
    + intros i Hi Hp sym' Hin.
      destruct (Z.lt_ge_cases i (count (dfa_states st))) as [Lt | Ge].
      * rewrite (F1 i) by lia. rewrite Get.
        destruct (Z.eqb_spec i cur) as [-> | Hne];
          [exfalso; apply Hp; left; reflexivity |].
        cbn [andb]. apply Rows; [lia | | exact Hin].
        intros [E | H]; apply Hp; [left; exact E | right; apply F7, H].
      * exfalso. apply Hp. right. apply F8. lia.
  - intros sym' Hne. rewrite Get, Z.eqb_refl. cbn [andb].
    destruct (Z.eqb_spec sym' sym); [lia | exact Hne].
  - intros _. rewrite Get, !Z.eqb_refl. cbn [andb]. lia.
Qed.

Lemma subset_row_inv cur cur_set syms :
  forall st st',
    (forall sym, In sym syms -> In sym subset_alphabet) ->
    subset_inv nfa (cur :: unmarked st) st ->
    0 <= cur < count (dfa_states st) ->
    array_get (dfa_states st) cur [] = cur_set ->
    fold_opt (subset_step nfa cur cur_set) syms st = Some st' ->
    subset_inv nfa (cur :: unmarked st') st' /\
    0 <= cur < count (dfa_states st') /\
    array_get (dfa_states st') cur [] = cur_set /\
    (forall sym', table_get (sub_table st) cur sym' <> -1 ->
                  table_get (sub_table st') cur sym' <> -1) /\
    (forall sym, In sym syms -> count (move nfa cur_set sym) > 0 ->
                 table_get (sub_table st') cur sym <> -1).
Proof.
  induction syms as [| sym r IH]; intros st st' Hin Inv Hcur Hset;
    cbn [fold_opt].
  - intros [= <-]. split; [exact Inv |]. split; [exact Hcur |].
    split; [exact Hset |]. split; [auto | intros sym []].
  - destruct (subset_step nfa cur cur_set st sym) as [st1 |] eqn:E;
      [| discriminate].
    cbn [bind]. intros F. rewrite <- Hset in E.
    destruct (subset_step_inv cur st sym st1 Inv Hcur
                (Hin sym (or_introl eq_refl)) E)
      as (Inv1 & Hcur1 & Hset1 & Keep1 & New1).
    rewrite Hset in Hset1, New1.
    destruct (IH st1 st' (fun s H => Hin s (or_intror H)) Inv1 Hcur1 Hset1 F)
      as (Inv' & Hcur' & Hset' & Keep' & New').
    split; [exact Inv' |]. split; [exact Hcur' |]. split; [exact Hset' |].
    split; [intros sym' H; apply Keep', Keep1, H |].
    intros s [<- | Hs] Hgt; [apply Keep', New1, Hgt | apply New'; assumption].
Qed.

Lemma subset_loop_inv fuel :
  forall st st',
    subset_inv nfa (unmarked st) st ->
    subset_loop fuel nfa subset_alphabet st = Some st' ->
    subset_inv nfa [] st'.
Proof.
  induction fuel as [| f IH]; intros st st' Inv; [discriminate |].
  cbn [subset_loop]. destruct (unmarked st) as [| cur rest] eqn:U.
  - intros [= <-]. exact Inv.
  - cbv zeta.
    set (st1 := {| sub_table := sub_table st; dfa_states := dfa_states st;
                   unmarked := rest |}).
    destruct (fold_opt _ subset_alphabet st1) as [st2 |] eqn:F;
      [| discriminate].
    cbn [bind]. intros L.
    assert (Inv1 : subset_inv nfa (cur :: unmarked st1) st1).
    { destruct Inv as (Sh & Cnt & Sets & Start & Stack & Sound & Rows).
      unfold subset_inv. cbn [st1 sub_table dfa_states unmarked].
      repeat (split; [assumption |]). split; [| split; assumption].
      intros i Hi. apply Stack. rewrite U. right. exact Hi. }
    assert (Hcur : 0 <= cur < count (dfa_states st1)).
    { destruct Inv as (_ & _ & _ & _ & Stack & _). apply Stack.
      rewrite U. left. reflexivity. }
    destruct (subset_row_inv cur _ subset_alphabet st1 st2 (fun s H => H)
                Inv1 Hcur eq_refl F)
      as (Inv2 & Hcur2 & Hset2 & _ & New2).
    apply (IH st2 st'); [| exact L].
    destruct Inv2 as (Sh & Cnt & Sets & Start & Stack & Sound & Rows).
    unfold subset_inv. repeat (split; [assumption |]).
    intros i Hi Hp. destruct (Z.eq_dec i cur) as [-> | Hne].
    + intros sym Hin Hgt. apply New2; [exact Hin |].
      cbn [st1 dfa_states] in Hset2 |- *. rewrite <- Hset2. exact Hgt.
    + apply Rows; [exact Hi |]. intros [E | H]; [congruence | contradiction].
Qed.

End Subset.

Section Simulation.

Variable nfa : NFA.
Hypothesis wf : nfa_wf nfa = true.

Variable st : Subset.
Hypothesis all_rows : subset_inv nfa [] st.

Variable d : DFA.
Hypothesis d_table : transition d = sub_table st.
Hypothesis d_finals :
  final_states d
  = map (fun set =>
           existsb (fun s => array_get (nfa_final_states nfa) s false) set)
        (dfa_states st)
    ++ repeat false (Z.to_nat (MAX_STATES - count (dfa_states st))).

Lemma final_flag i :
  0 <= i < count (dfa_states st) ->
  array_get (final_states d) i false
  = existsb (fun s => array_get (nfa_final_states nfa) s false)
            (array_get (dfa_states st) i []).
Proof.
  intros Hi. rewrite d_finals. unfold array_get, count, StateSet in *.
  destruct (Z.ltb_spec i 0); [lia |].
  rewrite app_nth1 by (rewrite length_map; lia).
  match goal with
  | |- nth _ (map ?f _) _ = _ =>
      rewrite (nth_indep _ false (f [])) by (rewrite length_map; lia);
      rewrite (map_nth f)
  end.
  reflexivity.
Qed.

Lemma final_flag_outside i :
  ~ 0 <= i < count (dfa_states st) ->
  array_get (final_states d) i false = false.
Proof.
  intros Hi. rewrite d_finals. unfold array_get, count, StateSet in *.
  destruct (Z.ltb_spec i 0); [reflexivity |].
  rewrite app_nth2 by (rewrite length_map; lia).
  destruct (Nat.ltb_spec
              (Z.to_nat i - List.length
                 (map (fun set =>
                         existsb (fun s => array_get (nfa_final_states nfa) s false)
                                 set) (dfa_states st)))
              (Z.to_nat (MAX_STATES - Z.of_nat (List.length (dfa_states st)))))
    as [Lt | Ge].
  - apply (repeat_spec (Z.to_nat (MAX_STATES - Z.of_nat (List.length (dfa_states st))))).
    apply nth_In. rewrite repeat_length. exact Lt.
  - apply nth_overflow. rewrite repeat_length. exact Ge.
Qed.

Lemma subset_run_alphabet w :
  forall i,
    dfa_run d i w = true ->
    Forall (fun c => In (char_to_int c) subset_alphabet) w.
Proof.
  destruct all_rows as (_ & _ & _ & _ & _ & Sound & _).
  induction w as [| c w IH]; intros i; [constructor |].
  cbn [dfa_run]. rewrite d_table.
  destruct (Z.eqb_spec (table_get (sub_table st) i (char_to_int c)) (-1))
    as [E | N]; [discriminate |].
  intros R. constructor; [| apply (IH _ R)].
  destruct (Sound i (char_to_int c)) as [E | (_ & Hin & _)];
    [contradiction | exact Hin].
Qed.

Lemma subset_run w :
  forall i,
    0 <= i < count (dfa_states st) ->
    Forall (fun c => In (char_to_int c) subset_alphabet) w ->
    (dfa_run d i w = true <->
     exists s s',
       In s (array_get (dfa_states st) i []) /\
       nfa_path nfa s w s' /\
       array_get (nfa_final_states nfa) s' false = true).
Proof.
  destruct all_rows as (_ & Cnt & Sets & _ & _ & Sound & Rows).
  assert (Closed : forall i, 0 <= i < count (dfa_states st) ->
                     eps_closed nfa (array_get (dfa_states st) i [])).
  { intros i Hi. apply Sets, array_get_In, Hi. }
  induction w as [| c w IH]; intros i Hi Hw; cbn [dfa_run].
  - rewrite (final_flag i Hi), existsb_exists. split.
    + intros (s & Hs & F). exists s, s. split; [exact Hs |].
      split; [constructor | exact F].
    + intros (s & s' & Hs & Pth & F). exists s'. split; [| exact F].
      apply (eps_closed_reachable nfa _ [s] s' (Closed i Hi)).
      * intros x [<- | []]. exact Hs.
      * apply (path_nil_eps nfa s [] s' Pth eq_refl).
  - inversion Hw as [| ? ? Hc Hw']; subst. rewrite d_table.
    set (sym := char_to_int c) in *.
    assert (Hsym : sym <> EPSILON)
      by (pose proof (subset_alphabet_range sym Hc); unfold EPSILON; lia).
    destruct (Z.eqb_spec (table_get (sub_table st) i sym) (-1)) as [E | N].
    + split; [discriminate |]. intros (s & s' & Hs & Pth & F). exfalso.
      destruct (path_cons_inv nfa s _ s' Pth c w eq_refl)
        as (u & t & Ru & Ht & Hf & Hsy & _ & _).
      assert (Hu : In u (array_get (dfa_states st) i [])).
      { apply (eps_closed_reachable nfa _ [s] u (Closed i Hi)); [| exact Ru].
        intros x [<- | []]. exact Hs. }
      apply (Rows i Hi (fun H => H) sym Hc); [| exact E].
      assert (In (to_state t) (move nfa (array_get (dfa_states st) i []) sym)).
      { apply (move_bounded nfa wf); [exact Ht | rewrite Hf; exact Hu | exact Hsy]. }
      unfold count. destruct (move nfa _ sym); [contradiction | simpl; lia].
    + destruct (Sound i sym) as [E | (_ & _ & Hv & R)]; [contradiction |].
      rewrite (IH _ Hv Hw'). split.
      * intros (s & s' & Hs & Pth & F).
        apply R in Hs. apply eps_reachable_from in Hs.
        destruct Hs as (m & Hm & Rm).
        apply move_sound in Hm.
        destruct Hm as (t & Ht & Hf & Hsy & <-).
        exists (from_state t), s'. split; [exact Hf |]. split; [| exact F].
        apply (path_char nfa (from_state t) t c w s'); trivial;
          [congruence |].
        apply (path_after_eps nfa _ s Rm), Pth.
      * intros (s & s' & Hs & Pth & F).
        destruct (path_cons_inv nfa s _ s' Pth c w eq_refl)
          as (u & t & Ru & Ht & Hf & Hsy & _ & Pth').
        assert (Hu : In u (array_get (dfa_states st) i [])).
        { apply (eps_closed_reachable nfa _ [s] u (Closed i Hi)); [| exact Ru].
          intros x [<- | []]. exact Hs. }
        exists (to_state t), s'. split; [| split; assumption].
        apply R, eps_here.
        apply (move_bounded nfa wf); [exact Ht | rewrite Hf; exact Hu | exact Hsy].
Qed.

Lemma subset_accepts w :
  Forall (fun c => In (char_to_int c) subset_alphabet) w ->
  (dfa_run d 0 w = true <-> nfa_accepts nfa w).
Proof.
  intros Hw. pose proof all_rows as (_ & Cnt & Sets & Start & _).
  rewrite (subset_run w 0) by (trivial; lia). unfold nfa_accepts. split.
  - intros (s & s' & Hs & Pth & F). exists s'. split; [| exact F].
    apply Start in Hs. apply (path_after_eps nfa _ s Hs), Pth.
  - intros (s' & Pth & F). exists (nfa_start_state nfa), s'.
    split; [| split; assumption].
    apply Start, eps_here. left. reflexivity.
Qed.

Lemma subset_result_wf :
  num_states d = count (dfa_states st) -> start_state d = 0 ->
  alphabet d = subset_alphabet ->
  dfa_wf d = true /\ on_alphabet d = true.
Proof.
  intros En Es Ea.
  destruct all_rows as ((Lt & RowsT) & Cnt & _ & _ & _ & Sound & _).
  assert (Entry : forall i sym,
            table_get (sub_table st) i sym = -1 \/
            (In sym subset_alphabet /\
             0 <= table_get (sub_table st) i sym < count (dfa_states st))).
  { intros i sym. destruct (Sound i sym) as [E | (_ & Hin & Hv & _)]; auto. }
  split.
  - assert (C5 : forallb
                   (fun s => (0 <=? s) && (s <? count (dfa_states st))
                             || negb (array_get (final_states d) s false))
                   (upto MAX_STATES) = true).
    { apply forallb_forall. intros s _.
      destruct (Z.leb_spec 0 s); cbn [andb];
        [destruct (Z.ltb_spec s (count (dfa_states st))); cbn [orb];
         [reflexivity |] |];
        rewrite final_flag_outside by lia; reflexivity. }
    assert (C7 : forallb
                   (fun row =>
                      (count row =? MAX_ALPHABET)
                      && forallb
                           (fun next =>
                              (next =? -1)
                              || (0 <=? next) && (next <? count (dfa_states st)))
                           row)
                   (sub_table st) = true).
    { apply forallb_forall. intros row Hr.
      apply andb_true_intro. split; [apply Z.eqb_eq, RowsT, Hr |].
      apply forallb_forall. intros x Hx.
      apply (shaped_entries (sub_table st)
               (fun x => (x =? -1)
                         || (0 <=? x) && (x <? count (dfa_states st)) = true))
        with (2 := Hr) (3 := Hx).
      intros p sym. destruct (Entry p sym) as [-> | [_ H]]; [reflexivity |].
      apply orb_true_iff. right.
      apply andb_true_intro. split; [apply Z.leb_le | apply Z.ltb_lt]; lia. }
    assert (Lf : count (final_states d) = MAX_STATES).
    { rewrite d_finals. unfold count, StateSet in *.
      rewrite length_app, length_map, repeat_length. lia. }
    unfold dfa_wf, is_state. rewrite En, Es, Ea, d_table, C5, C7.
    rewrite (proj2 (Z.leb_le 1 _)) by lia.
    rewrite (proj2 (Z.leb_le _ MAX_STATES)) by lia.
    rewrite (proj2 (Z.ltb_lt 0 _)) by lia.
    rewrite (proj2 (Z.eqb_eq _ _) Lf), (proj2 (Z.eqb_eq _ _) Lt).
    vm_compute. reflexivity.
  - unfold on_alphabet. rewrite Ea, d_table.
    apply forallb_forall. intros s _. apply forallb_forall. intros c _.
    destruct (Entry s c) as [-> | [Hin _]]; [reflexivity |].
    apply orb_true_iff. right. apply existsb_exists. exists c.
    split; [exact Hin | apply Z.eqb_refl].
Qed.

End Simulation.

Lemma nfa_to_dfa_correct (nfa : NFA) (d : DFA) :
  nfa_wf nfa = true -> nfa_to_dfa nfa = Some d ->
  dfa_wf d = true /\ on_alphabet d = true /\
  alphabet d = subset_alphabet /\
  (forall w,
     dfa_accepts d w = true ->
     Forall (fun c => In (char_to_int c) subset_alphabet) w) /\
  (forall w,
     Forall (fun c => In (char_to_int c) subset_alphabet) w ->
     (dfa_accepts d w = true <-> nfa_accepts nfa w)).
Proof.
  intros Wf. unfold nfa_to_dfa. cbv zeta. fold subset_alphabet.
  destruct (epsilon_closure nfa [nfa_start_state nfa]) as [c0 |] eqn:E0;
    [| discriminate].
  cbn [bind].
  destruct (subset_loop _ nfa subset_alphabet _) as [st |] eqn:L;
    [| discriminate].
  cbn [bind]. intros [= <-].
  assert (B0 : bounded nfa [nfa_start_state nfa]).
  { split; [repeat constructor; simpl; tauto |].
    intros s [<- | []]. apply (nfa_wf_facts nfa Wf). }
  destruct (closure_bounded nfa Wf _ c0 B0 E0) as (Bc & Cc & Rc).
  assert (Inv : subset_inv nfa [] st).
  { apply (subset_loop_inv nfa Wf _ _ st) with (2 := L).
    unfold subset_inv. cbn [sub_table dfa_states unmarked].
    split; [apply empty_table_shaped |].
    split; [unfold count, MAX_STATES; simpl; lia |].
    split; [intros set [<- | []]; auto |].
    split; [exact Rc |].
    split; [intros i [<- | []]; unfold count; simpl; lia |].
    split; [intros i sym; left; apply table_get_empty |].
    intros i Hi Hp. exfalso. apply Hp. left. unfold count in Hi.
    simpl in Hi. lia. }
  destruct (subset_result_wf nfa st Inv
              {| transition := sub_table st;
                 num_states := count (dfa_states st);
                 start_state := 0;
                 final_states :=
                   map (fun set =>
                          existsb (fun s => array_get (nfa_final_states nfa) s false)
                                  set) (dfa_states st)
                   ++ repeat false (Z.to_nat (MAX_STATES - count (dfa_states st)));
                 alphabet := subset_alphabet |}
              eq_refl eq_refl eq_refl eq_refl eq_refl) as [Wd Od].
  split; [exact Wd |]. split; [exact Od |]. split; [reflexivity |]. split.
  - intros w. unfold dfa_accepts. cbn [start_state].
    apply (subset_run_alphabet nfa st Inv); reflexivity.
  - intros w Hw. unfold dfa_accepts. cbn [start_state].
    apply (subset_accepts nfa Wf st Inv); [reflexivity | reflexivity | exact Hw].
Qed.

(** X22: the subset construction.  When [nfa_to_dfa] returns a DFA for a
    well-formed NFA (the table of DFA states did not overflow), that DFA is
    well-formed, has the alphabet of letters, digits and the underscore,
    accepts only words over that alphabet, and accepts a word over that
    alphabet exactly when the NFA has a path that reads it from the start
    state to a final state. *)
Theorem nfa_to_dfa_language (nfa : NFA) (d : DFA) :
  nfa_wf nfa = true -> nfa_to_dfa nfa = Some d ->
  dfa_wf d = true /\ on_alphabet d = true /\
  alphabet d = subset_alphabet /\
  (forall w,
     dfa_accepts d w = true ->
     Forall (fun c => In (char_to_int c) subset_alphabet) w) /\
  (forall w,
     Forall (fun c => In (char_to_int c) subset_alphabet) w ->
     (dfa_accepts d w = true <-> nfa_accepts nfa w)).
Proof. apply nfa_to_dfa_correct. Qed.

Lemma nfa_to_dfa_language_witness :
  dfa_wf identifier_dfa = true /\ on_alphabet identifier_dfa = true /\
  alphabet identifier_dfa = subset_alphabet /\
  (forall w,
     dfa_accepts identifier_dfa w = true ->
     Forall (fun c => In (char_to_int c) subset_alphabet) w) /\
  (forall w,
     Forall (fun c => In (char_to_int c) subset_alphabet) w ->
     (dfa_accepts identifier_dfa w = true <->
      nfa_accepts create_nfa_for_identifier w)).
Proof.
  apply (nfa_to_dfa_language create_nfa_for_identifier identifier_dfa).
  - vm_compute. reflexivity.
  - vm_compute. reflexivity.
Defined.

(** X23: determinising and then minimising, as [show_minimized_dfa] does.
    When [nfa_to_dfa] returns a DFA with fewer than MAX_STATES states for a
    well-formed NFA, [minimize_dfa] returns a DFA for it, and that DFA
    accepts only words over the alphabet of letters, digits and the
    underscore and accepts such a word exactly when the NFA has a path
    that reads it from the start state to a final state. *)
Theorem determinize_then_minimize (nfa : NFA) (d : DFA) :
  nfa_wf nfa = true -> nfa_to_dfa nfa = Some d ->
  num_states d < MAX_STATES ->
  exists m,
    minimize_dfa d = Some m /\
    (forall w,
       dfa_accepts m w = true ->
       Forall (fun c => In (char_to_int c) subset_alphabet) w) /\
    (forall w,
       Forall (fun c => In (char_to_int c) subset_alphabet) w ->
       (dfa_accepts m w = true <-> nfa_accepts nfa w)).
Proof.
  intros Wf E Room.
  destruct (nfa_to_dfa_correct nfa d Wf E) as (Wd & Od & _ & Only & Lang).
  destruct (minimize_dfa_correct d Wd Room Od) as (m & Em & Same & _).
  exists m. split; [exact Em |]. split.
  - intros w. rewrite <- (Same w). apply Only.
  - intros w Hw. rewrite <- (Same w). apply Lang, Hw.
Qed.

Lemma determinize_then_minimize_witness :
  exists m,
    minimize_dfa identifier_dfa = Some m /\
    (forall w,
       dfa_accepts m w = true ->
       Forall (fun c => In (char_to_int c) subset_alphabet) w) /\
    (forall w,
       Forall (fun c => In (char_to_int c) subset_alphabet) w ->
       (dfa_accepts m w = true <-> nfa_accepts create_nfa_for_identifier w)).
Proof.
  apply (determinize_then_minimize create_nfa_for_identifier identifier_dfa).
  - vm_compute. reflexivity.
  - vm_compute. reflexivity.
  - vm_compute. reflexivity.
Defined.

(** ** The identifier NFA *)

Section IdentifierNFA.

Variable nfa : NFA.
Hypothesis shape : identifier_nfa_shape nfa = true.

Lemma identifier_nfa_facts :
  nfa_start_state nfa = 0 /\
  array_get (nfa_final_states nfa) 0 false = false /\
  array_get (nfa_final_states nfa) 1 false = true /\
  (forall t, In t (nfa_transitions nfa) -> symbol t <> EPSILON) /\
  (forall t c,
     In t (nfa_transitions nfa) -> symbol t = char_to_int c ->
     (from_state t = 0 /\ to_state t = 1 /\ is_letter c = true) \/
     (from_state t = 1 /\ to_state t = 1 /\ is_letter_or_digit c = true)) /\
  (forall c,
     is_letter c = true ->
     exists t, In t (nfa_transitions nfa) /\ from_state t = 0 /\
               to_state t = 1 /\ symbol t = char_to_int c) /\
  (forall c,
     is_letter_or_digit c = true ->
     exists t, In t (nfa_transitions nfa) /\ from_state t = 1 /\
               to_state t = 1 /\ symbol t = char_to_int c).
Proof.
  pose proof shape as H. unfold identifier_nfa_shape in H.
  apply andb_prop in H. destruct H as [H Hc].
  apply andb_prop in H. destruct H as [H He].
  apply andb_prop in H. destruct H as [H Hf1].
  apply andb_prop in H. destruct H as [Hs Hf0].
  rewrite forallb_forall in He, Hc.
  split; [apply Z.eqb_eq, Hs |]. split; [apply negb_true_iff, Hf0 |].
  split; [exact Hf1 |]. split; [| split; [| split]].
  - intros t Ht. specialize (He t Ht). apply negb_true_iff, Z.eqb_neq in He.
    exact He.
  - intros t c Ht Es. specialize (Hc c (all_chars_complete c)).
    apply andb_prop in Hc. destruct Hc as [Hc _].
    apply andb_prop in Hc. destruct Hc as [Hc _].
    rewrite forallb_forall in Hc. specialize (Hc t Ht).
    rewrite (proj2 (Z.eqb_eq _ _) Es) in Hc. cbn [implb] in Hc.
    destruct (Z.eqb_spec (from_state t) 0) as [E0 | N0].
    + apply andb_prop in Hc. destruct Hc as [H1 H2].
      apply Z.eqb_eq in H1. left. auto.
    + apply andb_prop in Hc. destruct Hc as [Hc H3].
      apply andb_prop in Hc. destruct Hc as [H1 H2].
      apply Z.eqb_eq in H1. apply Z.eqb_eq in H2. right. auto.
  - intros c Hl. specialize (Hc c (all_chars_complete c)).
    apply andb_prop in Hc. destruct Hc as [Hc _].
    apply andb_prop in Hc. destruct Hc as [_ Hc].
    rewrite Hl in Hc. cbn [implb] in Hc.
    apply existsb_exists in Hc. destruct Hc as (t & Ht & E).
    apply andb_prop in E. destruct E as [E E3].
    apply andb_prop in E. destruct E as [E1 E2].
    apply Z.eqb_eq in E1. apply Z.eqb_eq in E2. apply Z.eqb_eq in E3.
    exists t. auto.
  - intros c Hl. specialize (Hc c (all_chars_complete c)).
    apply andb_prop in Hc. destruct Hc as [_ Hc].
    rewrite Hl in Hc. cbn [implb] in Hc.
    apply existsb_exists in Hc. destruct Hc as (t & Ht & E).
    apply andb_prop in E. destruct E as [E E3].
    apply andb_prop in E. destruct E as [E1 E2].
    apply Z.eqb_eq in E1. apply Z.eqb_eq in E2. apply Z.eqb_eq in E3.
    exists t. auto.
Qed.

Lemma path_from_1 s w s' :
  nfa_path nfa s w s' -> s = 1 ->
  s' = 1 /\ forallb is_letter_or_digit w = true.
Proof.
  destruct identifier_nfa_facts as (_ & _ & _ & NoEps & Edge & _).
  intros Pth. induction Pth as [s | s t w s' Ht Hf Hs Pth IH
                                  | s t c w s' Ht Hf Hs Hne Pth IH];
    intros E.
  - auto.
  - exfalso. apply (NoEps t Ht Hs).
  - destruct (Edge t c Ht Hs) as [(F & _) | (_ & T & L)]; [lia |].
    destruct (IH T) as [E' Fw]. split; [exact E' |].
    cbn [forallb]. rewrite L, Fw. reflexivity.
Qed.

Lemma path_from_0 s w s' :
  nfa_path nfa s w s' -> s = 0 ->
  (w = [] /\ s' = 0) \/
  (exists c r, w = c :: r /\ is_letter c = true /\
               forallb is_letter_or_digit r = true /\ s' = 1).
Proof.
  destruct identifier_nfa_facts as (_ & _ & _ & NoEps & Edge & _).
  intros Pth. destruct Pth as [s | s t w s' Ht Hf Hs Pth
                                 | s t c w s' Ht Hf Hs Hne Pth];
    intros E.
  - left. auto.
  - exfalso. apply (NoEps t Ht Hs).
  - right. destruct (Edge t c Ht Hs) as [(_ & T & L) | (F & _)]; [| lia].
    destruct (path_from_1 _ _ _ Pth T) as [E' Fw].
    exists c, w. auto.
Qed.

Lemma path_1_loop w :
  forallb is_letter_or_digit w = true -> nfa_path nfa 1 w 1.
Proof.
  destruct identifier_nfa_facts as (_ & _ & _ & NoEps & _ & _ & Loop).
  induction w as [| c w IH]; cbn [forallb]; intros H; [constructor |].
  apply andb_prop in H. destruct H as [Hc Hw].
  destruct (Loop c Hc) as (t & Ht & F & T & S).
  apply (path_char nfa 1 t c w 1); trivial; [apply NoEps, Ht |].
  rewrite T. apply IH, Hw.
Qed.

Lemma identifier_nfa_shape_language w :
  nfa_accepts nfa w <-> matches_identifier w = true.
Proof.
  destruct identifier_nfa_facts as (S0 & F0 & F1 & NoEps & _ & First & _).
  unfold nfa_accepts. rewrite S0. split.
  - intros (s & Pth & F).
    destruct (path_from_0 _ _ _ Pth eq_refl)
      as [(-> & ->) | (c & r & -> & L & Fw & ->)]; [congruence |].
    cbn [matches_identifier]. rewrite L, Fw. reflexivity.
  - destruct w as [| c r]; cbn [matches_identifier]; [discriminate |].
    intros H. apply andb_prop in H. destruct H as [L Fw].
    destruct (First c L) as (t & Ht & F & T & S).
    exists 1. split; [| exact F1].
    apply (path_char nfa 0 t c r 1); trivial; [apply NoEps, Ht |].
    rewrite T. apply path_1_loop, Fw.
Qed.

End IdentifierNFA.

(** X24: the NFA that [create_nfa_for_identifier] builds is well-formed and
    has a path from its start state to a final state exactly for the words
    that match [[A-Za-z_][A-Za-z_0-9]*]. *)
Theorem identifier_nfa_language :
  nfa_wf create_nfa_for_identifier = true /\
  forall w,
    nfa_accepts create_nfa_for_identifier w <-> matches_identifier w = true.
Proof.
  split; [vm_compute; reflexivity |].
  apply identifier_nfa_shape_language. vm_compute. reflexivity.
Qed.

(** ** The rounds of the subset construction *)





